(** * The fantasy-aggregate engine and the bet bookkeeping of [bot.py]

    A shallow embedding of [fantasy_points], [compute_ppg],
    [get_current_max_week], [close_completed_bets], of the commands that
    write the [bets] table and of [next_run_datetime].

    Numbers.  A Python [float] and a [numpy.float64] are IEEE 754 binary64
    numbers.  [Binary64.float] holds the finite ones as the rational they
    stand for, with the two infinities and NaN beside them, and every
    operation rounds its exact result to the nearest binary64 number, ties
    to the even significand, as the hardware does.  The two zeros are one
    value here: they compare equal in Python, and nothing in this program
    divides by a zero.  Snap percentages and thresholds are only ever
    compared, which is exact, so they are kept as the rationals they stand
    for ([Q]).

    Tables.  A pandas DataFrame is the list of its rows, in row order, with
    the default index 0, 1, 2, ...  The columns that the CSV files always
    fill (seasons, weeks, teams, names, the player identifiers of the
    statistics and of the snap counts, snap percentages) are plain
    values; the PFR identifier of the identity map and the columns that a
    left merge adds are options, [None] being NaN.  A cell of a stat
    category is a float, NaN when the CSV cell is empty.  Text is ASCII,
    and no text cell reads as a number.

    Outcomes.  A call returns a value or raises; [OutsideModel] marks the
    inputs whose behaviour this embedding does not describe (name fragments
    that use regular-expression syntax other than [.]). *)

From Stdlib Require Import ZArith QArith Qround Qabs Qpower Lqa Permutation Lia.
From Stdlib Require Import Ascii String.
From Stdlib Require SpecFloat.
From stdpp Require Import gmap strings list pretty.

Local Open Scope Q_scope.

(** ** Binary64 arithmetic *)

Module Numeric.

(** Nearest integer, ties to the even one. *)
Definition round_half_even (x : Q) : Z :=
  let f := Qfloor x in
  match Qcompare (x - inject_Z f) (1 # 2) with
  | Lt => f
  | Gt => (f + 1)%Z
  | Eq => if Z.even f then f else (f + 1)%Z
  end.

End Numeric.

Module Binary64.

Inductive float :=
| Finite (q : Q)
| Inf (negative : bool)
| NaN.

(** The exponent [e] with [2 ^ e <= |q| < 2 ^ (e + 1)], for [q] not 0. *)
Definition ilog2 (q : Q) : Z :=
  let k := (Z.log2 (Z.abs (Qnum q)) - Z.log2 (Z.pos (Qden q)))%Z in
  if Qle_bool (2 ^ k) (Qabs q) then k else (k - 1)%Z.

(** The exponent of the last place of the 53-bit significand; the
    subnormal numbers share the exponent -1074. *)
Definition ulp_exp (q : Q) : Z := Z.max (ilog2 q - 52) (-1074).

(** The binary64 number nearest to [q], in lowest terms, before the test
    for overflow. *)
Definition rnd (q : Q) : Q :=
  if Qeq_bool q 0 then 0
  else let e := ulp_exp q in
       Qred (inject_Z (Numeric.round_half_even (q / 2 ^ e)) * 2 ^ e).

Definition negative (q : Q) : bool := negb (Qle_bool 0 q).

(** Rounding to binary64; what reaches [2 ^ 1024] overflows.  This is
    also the float that a decimal literal denotes. *)
Definition of_Q (q : Q) : float :=
  let r := rnd q in
  if Qle_bool (2 ^ 1024) (Qabs r) then Inf (negative r) else Finite r.

Definition add (x y : float) : float :=
  match x, y with
  | NaN, _ | _, NaN => NaN
  | Inf s, Inf s' => if Bool.eqb s s' then Inf s else NaN
  | Inf s, Finite _ | Finite _, Inf s => Inf s
  | Finite a, Finite b => of_Q (a + b)
  end.

Definition mul (x y : float) : float :=
  match x, y with
  | NaN, _ | _, NaN => NaN
  | Inf s, Inf s' => Inf (xorb s s')
  | Inf s, Finite q | Finite q, Inf s =>
      if Qeq_bool q 0 then NaN else Inf (xorb s (negative q))
  | Finite a, Finite b => of_Q (a * b)
  end.

(** The divisors of this program are 100 and the length of a column that
    is not empty; a division by 0 is not reached. *)
Definition div (x y : float) : float :=
  match x, y with
  | NaN, _ | _, NaN => NaN
  | Inf _, Inf _ => NaN
  | Inf s, Finite q => Inf (xorb s (negative q))
  | Finite _, Inf _ => Finite 0
  | Finite a, Finite b => if Qeq_bool b 0 then NaN else of_Q (a / b)
  end.

(** Rounding to a whole number, ties to the even one. *)
Definition rint (x : float) : float :=
  match x with
  | Finite q => Finite (inject_Z (Numeric.round_half_even q))
  | _ => x
  end.

Definition isnan (x : float) : bool :=
  match x with
  | NaN => true
  | _ => false
  end.

End Binary64.

Import Binary64.

(** ** [round], [sum] and [mean] *)

(** [round(x, ndigits)] of a Python float, [ndigits >= 0]: the decimal
    with [ndigits] places nearest to the exact value of [x], ties to the
    even one, converted back to binary64. *)
Definition py_round (x : float) (ndigits : nat) : float :=
  match x with
  | Finite q =>
      let scale := inject_Z (10 ^ Z.of_nat ndigits) in
      of_Q (inject_Z (Numeric.round_half_even (q * scale)) / scale)
  | _ => x
  end.

(** [round(x, decimals)] of a [numpy.float64], [decimals > 0]: NumPy
    multiplies by the power of ten, rounds to an integer and divides. *)
Definition np_round (x : float) (decimals : nat) : float :=
  let f := of_Q (inject_Z (10 ^ Z.of_nat decimals)) in
  div (rint (mul x f)) f.

(** [res += a[i]] for the elements in turn. *)
Definition sum_loop (res : float) (a : list float) : float :=
  fold_left add a res.

(** The unrolled loop of NumPy's pairwise summation:
    [r[j] += a[i + j]] for [blocks] blocks of eight. *)
Fixpoint unrolled (blocks : nat) (r a : list float)
  : list float * list float :=
  match blocks with
  | O => (r, a)
  | S k => unrolled k (zip_with add r (take 8 a)) (drop 8 a)
  end.

(** A block of 8 to 128 elements. *)
Definition pairwise_block (a : list float) : float :=
  let '(r, rest) := unrolled (length a / 8 - 1) (take 8 a) (drop 8 a) in
  match r with
  | [r0; r1; r2; r3; r4; r5; r6; r7] =>
      sum_loop (add (add (add r0 r1) (add r2 r3))
                    (add (add r4 r5) (add r6 r7))) rest
  | _ => NaN
  end.

(** NumPy's [pairwise_sum]: fewer than 8 elements are added up in turn,
    up to 128 go through eight accumulators, more are split in two.
    [fuel] bounds the depth of the splitting. *)
Fixpoint pairwise_sum (fuel : nat) (a : list float) : float :=
  let n := length a in
  if (n <? 8)%nat then sum_loop (Finite 0) a
  else if (n <=? 128)%nat then pairwise_block a
  else match fuel with
       | O => NaN
       | S fuel' =>
           let n2 := (n / 2)%nat in
           let n2 := (n2 - n2 mod 8)%nat in
           add (pairwise_sum fuel' (take n2 a))
               (pairwise_sum fuel' (drop n2 a))
       end.

(** [values.sum()]: the reduction starts from the identity 0. *)
Definition np_sum (a : list float) : float :=
  add (Finite 0) (pairwise_sum (length a) a).

(** [Series.mean()], which skips NaN: pandas puts 0 in their place, adds
    up, and divides by the number of the others. *)
Definition nanmean (values : list float) : float :=
  let count := length (List.filter (fun v => negb (isnan v)) values) in
  let the_sum := np_sum (map (fun v => if isnan v then Finite 0 else v) values) in
  if (0 <? count)%nat then div the_sum (of_Q (inject_Z (Z.of_nat count)))
  else NaN.

(** ** Outcomes of a call *)

Inductive exn := KeyError | ValueError | IndexingError | LoadError.

Inductive result (A : Type) :=
| Ok (a : A)
| Raise (e : exn)
| OutsideModel.
Arguments Ok {A} a.
Arguments Raise {A} e.
Arguments OutsideModel {A}.

#[global] Instance result_ret : MRet result := fun A a => Ok a.
#[global] Instance result_bind : MBind result := fun A B f m =>
  match m with
  | Ok a => f a
  | Raise e => Raise e
  | OutsideModel => OutsideModel
  end.

(** ** The tables of the data layer *)

(** One line of the weekly player statistics ([load_player_stats]).  The
    stat categories are kept as the mapping from column name to cell that
    [fantasy_points] reads with [row.get]: a column that the table lacks
    is no key, an empty cell is NaN. *)
Record StatRow := {
  season : Z;
  week : Z;
  season_type : string;
  team : string;
  player_id : string;
  player_name : string;
  stats : gmap string float
}.

Definition with_stats (row : StatRow) (m : gmap string float) : StatRow :=
  {| season := season row; week := week row; season_type := season_type row;
     team := team row; player_id := player_id row;
     player_name := player_name row; stats := m |}.

(** One line of the identity map ([load_players_map]), cut to the columns
    of [players_small].  A player without a PFR identifier has [None]. *)
Record PlayerRecord := {
  gsis_id : string;
  display_name : string;
  pfr_id : option string
}.

(** One line of the snap counts ([load_snap_counts]), cut to the columns of
    [snaps_small]. *)
Record SnapRecord := {
  snap_season : Z;
  snap_week : Z;
  snap_team : string;
  player : string;
  pfr_player_id : string;
  offense_pct : Q
}.

(** ** Scoring *)

(** A scoring dict: the nine weights that [fantasy_points] indexes. *)
Record ScoringRule := {
  receptions : float;
  pass_yd : float;
  pass_td : float;
  int_ : float;
  rush_yd : float;
  rush_td : float;
  rec_yd : float;
  rec_td : float;
  fumbles_lost : float
}.

Definition preset (rec : float) : ScoringRule :=
  {| receptions := rec; pass_yd := of_Q (4 # 100); pass_td := of_Q 4;
     int_ := of_Q (-2); rush_yd := of_Q (1 # 10); rush_td := of_Q 6;
     rec_yd := of_Q (1 # 10); rec_td := of_Q 6; fumbles_lost := of_Q (-2) |}.

Definition SCORING_PRESETS : gmap string ScoringRule :=
  {[ "PPR" := preset (of_Q 1); "HALF" := preset (of_Q (1 # 2));
     "STD" := preset (of_Q 0) ]}.

(** [g = lambda k: float(row.get(k, 0) or 0)]: a column that the row
    lacks and a cell that is 0 give 0.0; NaN is true for [or], so an empty
    cell stays NaN. *)
Definition g (row : StatRow) (k : string) : float :=
  match default (Finite 0) (stats row !! k) with
  | Finite v => if Qeq_bool v 0 then Finite 0 else Finite v
  | x => x
  end.

Definition fantasy_points (row : StatRow) (scoring : ScoringRule) : float :=
  let pts := Finite 0 in
  let pts := add pts (mul (g row "receptions") (receptions scoring)) in
  let pts := add pts (mul (g row "passing_yards") (pass_yd scoring)) in
  let pts := add pts (mul (g row "passing_tds") (pass_td scoring)) in
  let pts := add pts (mul (g row "interceptions") (int_ scoring)) in
  let pts := add pts (mul (g row "rushing_yards") (rush_yd scoring)) in
  let pts := add pts (mul (g row "rushing_tds") (rush_td scoring)) in
  let pts := add pts (mul (g row "receiving_yards") (rec_yd scoring)) in
  let pts := add pts (mul (g row "receiving_tds") (rec_td scoring)) in
  let pts := add pts (mul (g row "fumbles_lost") (fumbles_lost scoring)) in
  py_round pts 2.

(** The nine categories with their weights, in the order of the code. *)
Definition categories : list (string * (ScoringRule -> float)) :=
  [ ("receptions", receptions); ("passing_yards", pass_yd);
    ("passing_tds", pass_td); ("interceptions", int_);
    ("rushing_yards", rush_yd); ("rushing_tds", rush_td);
    ("receiving_yards", rec_yd); ("receiving_tds", rec_td);
    ("fumbles_lost", fumbles_lost) ]%string.

(** The number that a finite float stands for. *)
Definition value (x : float) : Q :=
  match x with
  | Finite q => q
  | _ => 0
  end.

(** The number in a cell, an absent category counting as 0. *)
Definition category_value (row : StatRow) (k : string) : Q :=
  match stats row !! k with
  | Some v => value v
  | None => 0
  end.

(** The scoring calculator as the specification words it: the weighted
    sum over the nine categories, in exact arithmetic. *)
Definition weighted_sum (row : StatRow) (rule : ScoringRule) : Q :=
  fold_right (fun kw acc =>
                category_value row (fst kw) * value (snd kw rule) + acc)
             0 categories.

(** A finite float of magnitude at most [M]. *)
Definition within (M : Q) (x : float) : Prop :=
  exists v, x = Finite v /\ Qabs v <= M.

(** Every cell of the nine categories that the row has holds a number of
    magnitude at most [M]. *)
Definition cells_within (M : Q) (row : StatRow) : Prop :=
  Forall (fun kw => forall x, stats row !! fst kw = Some x -> within M x)
         categories.

(** Every weight of the rule is a number of magnitude at most [W]. *)
Definition weights_within (W : Q) (rule : ScoringRule) : Prop :=
  Forall (fun kw => within W (snd kw rule)) categories.

(** The relative and the absolute error of one rounding to binary64. *)
Definition eps : Q := 2 ^ (-53).
Definition eta : Q := 2 ^ (-1075).

(** The exact sum of the numbers in a column. *)
Definition total (l : list float) : Q :=
  fold_right (fun x acc => value x + acc) 0 l.

Definition len (l : list float) : Q := inject_Z (Z.of_nat (length l)).

(** [x] is what some bracketing of binary64 additions makes of the
    numbers of [l], each used once. *)
Inductive sums_to : list float -> float -> Prop :=
| sums_leaf x : sums_to [x] x
| sums_add l1 l2 x y :
    sums_to l1 x -> sums_to l2 y -> sums_to (l1 ++ l2) (add x y)
| sums_perm l l' x : Permutation l l' -> sums_to l x -> sums_to l' x.

Definition scenario_A : StatRow :=
  {| season := 2024; week := 1; season_type := "REG"; team := "DAL";
     player_id := "00-0036358"; player_name := "C.Lamb";
     stats := {[ "receptions" := Finite 5; "receiving_yards" := Finite 80;
                 "receiving_tds" := Finite 1 ]} |}.

(** ** Text matching: [str.lower] and [str.contains] *)

(** [str.lower] on ASCII text. *)
Definition lower_ascii (a : ascii) : ascii :=
  let n := N_of_ascii a in
  if ((65 <=? n) && (n <=? 90))%N then ascii_of_N (n + 32) else a.

Fixpoint lower (s : string) : string :=
  match s with
  | EmptyString => EmptyString
  | String a s' => String (lower_ascii a) (lower s')
  end.

(** [Series.str.contains(pat)] is called with its defaults, so [pat] is a
    regular expression and a row matches when [re.search(pat, name)] finds
    an occurrence.  The embedding covers the patterns made of ordinary
    characters and of [.], which stands for any character but a newline. *)
Inductive pat_item :=
| PChar (a : ascii)
| PAny.

Definition re_special : list ascii :=
  list_ascii_of_string "\^$*+?{}[]|()".

Definition is_special (a : ascii) : bool :=
  existsb (Ascii.eqb a) re_special.

Fixpoint re_compile (pat : string) : option (list pat_item) :=
  match pat with
  | EmptyString => Some []
  | String a pat' =>
      if Ascii.eqb a "."%char then cons PAny <$> re_compile pat'
      else if is_special a then None
      else cons (PChar a) <$> re_compile pat'
  end.

Definition item_matches (i : pat_item) (a : ascii) : bool :=
  match i with
  | PChar c => Ascii.eqb c a
  | PAny => negb (Ascii.eqb a (ascii_of_N 10))
  end.

(** The pattern matches at the start of [s]. *)
Fixpoint match_here (pat : list pat_item) (s : string) : bool :=
  match pat, s with
  | [], _ => true
  | i :: pat', String a s' => item_matches i a && match_here pat' s'
  | _ :: _, EmptyString => false
  end.

(** The pattern matches somewhere in [s]. *)
Fixpoint re_search (pat : list pat_item) (s : string) : bool :=
  match_here pat s
  || match s with
     | EmptyString => false
     | String _ s' => re_search pat s'
     end.

Definition str_contains (names : list string) (pat : string)
  : result (list bool) :=
  match re_compile pat with
  | Some items => Ok (map (re_search items) names)
  | None => OutsideModel
  end.

(** Literal containment, as the specification words the name match. *)
Fixpoint substring_of (frag s : string) : bool :=
  String.prefix frag s
  || match s with
     | EmptyString => false
     | String _ s' => substring_of frag s'
     end.

(** A name fragment free of regular-expression syntax. *)
Definition literal_fragment (frag : string) : bool :=
  forallb (fun a => negb (Ascii.eqb a "."%char) && negb (is_special a))
          (list_ascii_of_string frag).

(** ** The pandas operations that [compute_ppg] uses *)

(** [left.merge(right, how="left")] on the key test [on]: the rows of
    [left] in their order, each paired with every row of [right] that has
    its key, or with a row of NaN when there is none. *)
Definition merge_left {A B : Type} (on : A -> B -> bool)
    (left : list A) (right : list B) : list (A * option B) :=
  flat_map (fun a =>
    match List.filter (on a) right with
    | [] => [(a, None)]
    | matches => map (fun b => (a, Some b)) matches
    end) left.

(** [frame[mask]] with a boolean Series: the mask is reindexed to the index
    of [frame]; an index label that the mask lacks raises. *)
Definition bool_index {A : Type} (frame : list A) (mask : list bool)
  : result (list A) :=
  if (length mask <? length frame)%nat then Raise IndexingError
  else Ok (map fst (List.filter snd (zip frame mask))).

Definition count_true (mask : list bool) : nat :=
  length (List.filter id mask).

Fixpoint put_masked {A : Type} (mask : list bool) (col vals : list A)
  : list A :=
  match mask, col with
  | true :: mask', x :: col' =>
      match vals with
      | v :: vals' => v :: put_masked mask' col' vals'
      | [] => x :: put_masked mask' col' []
      end
  | false :: mask', x :: col' => x :: put_masked mask' col' vals
  | _, _ => col
  end.

(** [frame.loc[mask, column] = values], [mask] having a [True]: as many
    values as masked rows, or ValueError. *)
Definition loc_assign {A : Type} (col : list A) (mask : list bool)
    (vals : list A) : result (list A) :=
  if (count_true mask =? length vals)%nat then Ok (put_masked mask col vals)
  else Raise ValueError.

Definition isna {A : Type} (x : option A) : bool :=
  match x with
  | Some _ => false
  | None => true
  end.

(** The dtype of a key column of text.  [read_csv] makes a column whose
    cells are all empty a column of NaN, which is [float64]; a column with
    some text, and any column of a table without lines, is [object]. *)
Inductive dtype := object | float64.

Definition text_dtype {A : Type} (col : list (option A)) : dtype :=
  match col with
  | [] => object
  | _ :: _ => if forallb isna col then float64 else object
  end.

Definition is_empty {A : Type} (frame : list A) : bool :=
  match frame with
  | [] => true
  | _ :: _ => false
  end.

(** ** [compute_ppg] *)

(** [stats[(stats["season"] == SEASON) & (stats["season_type"] == "REG")]] *)
Definition regular_season (SEASON : Z) (stats : list StatRow) : list StatRow :=
  List.filter (fun r => bool_decide (season r = SEASON)
                        && bool_decide (season_type r = "REG")) stats.

(** [stats[(stats["week"] >= start_week) & (stats["week"] <= end_week)]] *)
Definition week_range (start_week end_week : Z) (stats : list StatRow)
  : list StatRow :=
  List.filter (fun r => (start_week <=? week r)%Z && (week r <=? end_week)%Z)
              stats.

(** A candidate row: a stat row with the columns of its identity record. *)
Definition Cand : Type := StatRow * option PlayerRecord.

Definition cand_pfr_id (c : Cand) : option string := snd c ≫= pfr_id.

Definition on_player_id (r : StatRow) (p : PlayerRecord) : bool :=
  bool_decide (player_id r = gsis_id p).

(** The rows that match the name, before the identity map is merged in. *)
Definition matching_rows (SEASON : Z) (stats : list StatRow)
    (player_name_arg : string) (start_week end_week : Z)
  : result (list StatRow) :=
  let stats := regular_season SEASON stats in
  let stats := week_range start_week end_week stats in
  mask ← str_contains (map (fun r => lower (player_name r)) stats)
                      (lower player_name_arg);
  bool_index stats mask.

Definition on_primary (c : Cand) (s : SnapRecord) : bool :=
  bool_decide (season (fst c) = snap_season s)
  && bool_decide (week (fst c) = snap_week s)
  && bool_decide (team (fst c) = snap_team s)
  && bool_decide (cand_pfr_id c = Some (pfr_player_id s)).

Definition on_fallback (c : Cand) (s : SnapRecord) : bool :=
  bool_decide (season (fst c) = snap_season s)
  && bool_decide (week (fst c) = snap_week s)
  && bool_decide (team (fst c) = snap_team s)
  && bool_decide (player_name (fst c) = player s).

Definition offense_pct_column {A : Type} (frame : list (A * option SnapRecord))
  : list (option Q) :=
  map (fun j => offense_pct <$> snd j) frame.

(** [merge] checks the dtypes of each pair of key columns, unless exactly
    one of the two frames has no line: a column of numbers against a
    column of text raises ValueError.  The [pfr_id] column of the
    candidates has the dtype that the identity map gave it; the
    [pfr_player_id] column of the snap counts is text. *)
Definition merge_keys_clash {A B : Type} (left_dtype : dtype)
    (left : list A) (right : list B) : bool :=
  match left_dtype with
  | float64 => negb (xorb (is_empty left) (is_empty right))
  | object => false
  end.

(** The two merges against the snap counts: the joined rows and their
    [offense_pct] column, before [fillna]. *)
Definition snap_join (pfr_id_dtype : dtype) (cand : list Cand)
    (snaps : list SnapRecord) : result (list (Cand * option Q)) :=
  if merge_keys_clash pfr_id_dtype cand snaps then Raise ValueError
  else
    let joined := merge_left on_primary cand snaps in
    let col := offense_pct_column joined in
    let missing := map isna col in
    col ← (if existsb id missing then
             cand_missing ← bool_index cand missing;
             let fallback := merge_left on_fallback cand_missing snaps in
             loc_assign col missing (offense_pct_column fallback)
           else Ok col);
    Ok (zip (map fst joined) col).

(** [joined["offense_pct"].fillna(0.0)] *)
Definition fillna {A : Type} (frame : list (A * option Q)) : list (A * Q) :=
  map (fun j => (fst j, default 0 (snd j))) frame.

(** The filter on the threshold and the mean of the points.  The mean is
    a [numpy.float64], so [round(ppg, 2)] is NumPy's. *)
Definition aggregate (joined : list (StatRow * Q)) (min_snap_pct : Q)
    (scoring : ScoringRule) : float * nat :=
  let qualified := List.filter (fun j => Qle_bool min_snap_pct (snd j)) joined in
  match qualified with
  | [] => (Finite 0, 0%nat)
  | _ :: _ =>
      let fp := map (fun r => fantasy_points (fst r) scoring) qualified in
      let ppg := nanmean fp in
      let n := length qualified in
      (np_round ppg 2, n)
  end.

Definition compute_ppg (SEASON : Z) (stats : list StatRow)
    (snaps : list SnapRecord) (players : list PlayerRecord)
    (player_name_arg : string) (start_week end_week : Z) (min_snap_pct : Q)
    (scoring_key : string) : result (float * nat) :=
  match SCORING_PRESETS !! scoring_key with
  | None => Raise KeyError
  | Some scoring =>
      cand ← matching_rows SEASON stats player_name_arg start_week end_week;
      match cand with
      | [] => Ok (Finite 0, 0%nat)
      | _ :: _ =>
          let cand := merge_left on_player_id cand players in
          joined ← snap_join (text_dtype (map pfr_id players)) cand snaps;
          let joined := fillna joined in
          Ok (aggregate (map (fun j => (fst (fst j), snd j)) joined)
                        min_snap_pct scoring)
      end
  end.

(** The snap-join stage as the specification words it: the record under
    the primary key (season, week, team, secondary identifier) if there is
    one, else the record under the fallback key (season, week, team, name),
    else 0. *)
Definition primary_key (s : SnapRecord) : Z * Z * string * string :=
  (snap_season s, snap_week s, snap_team s, pfr_player_id s).

Definition fallback_key (s : SnapRecord) : Z * Z * string * string :=
  (snap_season s, snap_week s, snap_team s, player s).

Definition lookup_primary (snaps : list SnapRecord) (c : Cand)
  : option SnapRecord :=
  sid ← cand_pfr_id c;
  List.find (fun s => bool_decide
     (primary_key s = (season (fst c), week (fst c), team (fst c), sid)))
    snaps.

Definition lookup_fallback (snaps : list SnapRecord) (c : Cand)
  : option SnapRecord :=
  List.find (fun s => bool_decide
     (fallback_key s
      = (season (fst c), week (fst c), team (fst c), player_name (fst c))))
    snaps.

Definition snap_pct (snaps : list SnapRecord) (c : Cand) : Q :=
  match lookup_primary snaps c with
  | Some s => offense_pct s
  | None =>
      match lookup_fallback snaps c with
      | Some s => offense_pct s
      | None => 0
      end
  end.

#[global] Instance Qle_decision (x y : Q) : Decision (x <= y).
Proof.
  destruct (Qlt_le_dec y x) as [H|H].
  - right. now apply Qlt_not_le.
  - left. exact H.
Defined.



(** ** Published weeks and the closing of bets *)

(** The body of the [try] either raised (while loading or filtering) or
    has the statistics table. *)
Definition get_current_max_week (SEASON : Z)
    (loaded : exn + list StatRow) : Z :=
  match loaded with
  | inl _ => 0%Z
  | inr stats =>
      let stats := regular_season SEASON stats in
      match map week stats with
      | [] => 0%Z
      | w :: ws => fold_left Z.max ws w
      end
  end.

Module Bets.

(** A row of the [bets] table.  The columns declared without [NOT NULL]
    may hold NULL. *)
Record Bet := {
  id : Z;
  creator_discord_id : string;
  player_a : string;
  player_b : string;
  description : option string;
  scoring : string;
  min_snap_pct : Q;
  season : Z;
  start_week : option Z;
  end_week : option Z;
  participants : option string;
  is_active : option Z;
  created_at : string
}.

Definition set_is_active (v : option Z) (b : Bet) : Bet :=
  {| id := id b; creator_discord_id := creator_discord_id b;
     player_a := player_a b; player_b := player_b b;
     description := description b; scoring := scoring b;
     min_snap_pct := min_snap_pct b; season := season b;
     start_week := start_week b; end_week := end_week b;
     participants := participants b; is_active := v;
     created_at := created_at b |}.

(** [WHERE season=? AND is_active=1 AND end_week<=?]; a comparison with
    NULL does not hold. *)
Definition completed (SEASON max_week : Z) (b : Bet) : bool :=
  bool_decide (season b = SEASON)
  && bool_decide (is_active b = Some 1%Z)
  && match end_week b with
     | Some e => (e <=? max_week)%Z
     | None => false
     end.

(** [UPDATE bets SET is_active=0 WHERE ...] *)
Definition update_completed (SEASON max_week : Z) (bets : list Bet)
  : list Bet :=
  map (fun b => if completed SEASON max_week b
                then set_is_active (Some 0%Z) b else b) bets.

Definition close_completed_bets (SEASON : Z) (loaded : exn + list StatRow)
    (bets : list Bet) : list Bet :=
  let max_week := get_current_max_week SEASON loaded in
  if (max_week <=? 0)%Z then bets
  else update_completed SEASON max_week bets.

End Bets.

(** ** Sample tables *)

Definition sample_row (w : Z) (pid name : string) : StatRow :=
  {| season := 2024; week := w; season_type := "REG"; team := "DAL";
     player_id := pid; player_name := name;
     stats := {[ "receptions" := Finite 5; "receiving_yards" := Finite 80;
                 "receiving_tds" := Finite 1 ]} |}.

Definition sample_snap (w : Z) (name pfr : string) (pct : Q) : SnapRecord :=
  {| snap_season := 2024; snap_week := w; snap_team := "DAL";
     player := name; pfr_player_id := pfr; offense_pct := pct |}.

Definition david_johnson : StatRow := sample_row 1 "00-0032187" "David Johnson".

Definition sample_stats : list StatRow :=
  [ sample_row 1 "00-0036358" "CeeDee Lamb";
    sample_row 2 "00-0036358" "CeeDee Lamb";
    sample_row 3 "00-0036358" "CeeDee Lamb";
    sample_row 1 "00-0033873" "Jake Ferguson" ].

Definition sample_players : list PlayerRecord :=
  [ {| gsis_id := "00-0036358"; display_name := "CeeDee Lamb";
       pfr_id := Some "LambCe00" |} ].

(** Week 1 is found under the primary key, week 2 under the name only,
    week 3 not at all. *)
Definition sample_snaps : list SnapRecord :=
  [ sample_snap 1 "C. Lamb" "LambCe00" 10;
    sample_snap 2 "CeeDee Lamb" "LambCD99" 40;
    sample_snap 1 "Jake Ferguson" "FergJa00" 55 ].

Definition sample_cand : list Cand :=
  merge_left on_player_id sample_stats sample_players.

(** Two snap records under one fallback key. *)
Definition duplicate_snaps : list SnapRecord :=
  [ sample_snap 2 "CeeDee Lamb" "LambCD98" 40;
    sample_snap 2 "CeeDee Lamb" "LambCD99" 45 ].

Definition sample_bet (i : Z) (yr : Z) (last : option Z) (active : option Z)
  : Bets.Bet :=
  {| Bets.id := i; Bets.creator_discord_id := "1001";
     Bets.player_a := "CeeDee Lamb"; Bets.player_b := "Jake Ferguson";
     Bets.description := Some ""; Bets.scoring := "PPR";
     Bets.min_snap_pct := 25; Bets.season := yr;
     Bets.start_week := Some 1%Z; Bets.end_week := last;
     Bets.participants := Some ""; Bets.is_active := active;
     Bets.created_at := "2024-09-03T12:00:00-04:00" |}.

(** Bets that ended by week 3, one that runs on, one of another season,
    one already closed. *)
Definition sample_bets : list Bets.Bet :=
  [ sample_bet 1 2024 (Some 2%Z) (Some 1%Z);
    sample_bet 2 2024 (Some 3%Z) (Some 1%Z);
    sample_bet 3 2024 (Some 18%Z) (Some 1%Z);
    sample_bet 4 2023 (Some 2%Z) (Some 1%Z);
    sample_bet 5 2024 (Some 1%Z) (Some 0%Z) ].




(** A row with 38 passing yards and 102.75 receiving yards. *)
Definition fractional_row : StatRow :=
  {| season := 2024; week := 1; season_type := "REG"; team := "DAL";
     player_id := "00-0036358"; player_name := "CeeDee Lamb";
     stats := {[ "passing_yards" := Finite 38;
                 "receiving_yards" := Finite (411 # 4) ]} |}.

(** A row whose cell for the receptions is empty. *)
Definition empty_cell_row : StatRow :=
  {| season := 2024; week := 1; season_type := "REG"; team := "DAL";
     player_id := "00-0036358"; player_name := "CeeDee Lamb";
     stats := {[ "receptions" := NaN; "receiving_yards" := Finite 80 ]} |}.

(** Scenario B of the specification: snap percentages 10 and 40. *)
Definition sample_pairs : list (StatRow * Q) :=
  [ (sample_row 1 "00-0036358" "CeeDee Lamb", 10);
    (sample_row 2 "00-0036358" "CeeDee Lamb", 40) ].

Definition sample_pairs_swapped : list (StatRow * Q) :=
  [ (sample_row 2 "00-0036358" "CeeDee Lamb", 40);
    (sample_row 1 "00-0036358" "CeeDee Lamb", 10) ].

Definition sample_unfilled : list (StatRow * option Q) :=
  [ (sample_row 1 "00-0036358" "CeeDee Lamb", Some 40);
    (sample_row 2 "00-0036358" "CeeDee Lamb", None);
    (sample_row 3 "00-0036358" "CeeDee Lamb", Some 0) ].

(** ** More of Python's [str] *)

(** Text whose characters are all ASCII.  On such text [upper], [lower]
    and [strip] below are Python's [str.upper], [str.lower] and
    [str.strip]; they leave every other character alone, which Python
    does not. *)
Definition ascii_text (s : string) : Prop :=
  Forall (fun a => (N_of_ascii a < 128)%N) (list_ascii_of_string s).

(** [str.upper] on ASCII text. *)
Definition upper_ascii (a : ascii) : ascii :=
  let n := N_of_ascii a in
  if ((97 <=? n) && (n <=? 122))%N then ascii_of_N (n - 32) else a.

Fixpoint upper (s : string) : string :=
  match s with
  | EmptyString => EmptyString
  | String a s' => String (upper_ascii a) (upper s')
  end.

(** The ASCII characters that [str.isspace] accepts. *)
Definition is_space (a : ascii) : bool :=
  let n := N_of_ascii a in
  ((9 <=? n) && (n <=? 13) || (28 <=? n) && (n <=? 32))%N.

Fixpoint lstrip (s : string) : string :=
  match s with
  | EmptyString => EmptyString
  | String a s' => if is_space a then lstrip s' else s
  end.

(** [rstrip]: a character is dropped when it is a space and all that
    follows it is dropped too. *)
Fixpoint rstrip (s : string) : string :=
  match s with
  | EmptyString => EmptyString
  | String a s' =>
      match rstrip s' with
      | EmptyString => if is_space a then EmptyString else String a EmptyString
      | rest => String a rest
      end
  end.

Definition strip (s : string) : string := rstrip (lstrip s).

(** [sep.join(parts)] *)
Fixpoint join (sep : string) (parts : list string) : string :=
  match parts with
  | [] => EmptyString
  | p :: rest =>
      match rest with
      | [] => p
      | _ :: _ => p +:+ sep +:+ join sep rest
      end
  end.

(** [s.split(sep)] for a separator of one character: the pieces between
    the occurrences of [sep], an empty text giving one empty piece. *)
Fixpoint split (sep : ascii) (s : string) : list string :=
  match s with
  | EmptyString => [EmptyString]
  | String a s' =>
      if Ascii.eqb a sep then EmptyString :: split sep s'
      else match split sep s' with
           | piece :: pieces => String a piece :: pieces
           | [] => [String a EmptyString]
           end
  end.

(** [c in s] for a character [c]. *)
Fixpoint has_char (c : ascii) (s : string) : bool :=
  match s with
  | EmptyString => false
  | String a s' => Ascii.eqb a c || has_char c s'
  end.

(** [str(n)] of an int. *)
Definition str (n : Z) : string := pretty n.

(** ** Helpers of the commands *)

Record User := { user_id : Z }.

(** The second loop of [_collect_participant_ids]. *)
Fixpoint dedupe (ids : list string) (seen : gset string) : list string :=
  match ids with
  | [] => []
  | i :: ids' =>
      if decide (i ∈ seen) then dedupe ids' seen
      else i :: dedupe ids' (seen ∪ {[ i ]})
  end.

Definition _collect_participant_ids (users : list (option User))
  : list string :=
  let ids := omap (fun u => (fun u' => str (user_id u')) <$> u) users in
  dedupe ids ∅.

(** [(participants_str or "").split(",")] filtered by [if uid], as
    [standings], [mybets] and [weekly_job] read the column back. *)
Definition participant_mentions (participants_str : option string)
  : list string :=
  List.filter (fun uid => negb (String.eqb uid EmptyString))
              (split ","%char (default EmptyString participants_str)).

(** The caller of a command in a guild: the user and the two guild
    permissions that [user_can_edit] reads. *)
Record Interaction := {
  user : User;
  manage_guild : bool;
  administrator : bool
}.

Definition user_can_edit (interaction : Interaction) (creator_id : string)
  : bool :=
  if String.eqb (str (user_id (user interaction))) creator_id then true
  else manage_guild interaction || administrator interaction.

(** ** The commands that write the [bets] table *)

Module Commands.

Import Bets.

(** The table with the counter that SQLite keeps for an [AUTOINCREMENT]
    key: the largest key ever given out. *)
Record Db := {
  bets : list Bet;
  sqlite_sequence : Z
}.

Definition next_id (db : Db) : Z :=
  (fold_right Z.max (sqlite_sequence db) (map id (bets db)) + 1)%Z.

(** What a command answers. *)
Inductive Response :=
| ScoringMustBe
| MinSnapPctMustBe
| BetNotFound
| NoPermission
| NothingToUpdate
| BetCreated (bet_id : Z)
| BetUpdated (bet_id : Z).

Definition valid_pct (p : Q) : bool := Qle_bool 0 p && Qle_bool p 100.

Definition addbet (SEASON : Z) (now_iso : string) (db : Db)
    (interaction : Interaction) (player_a_arg player_b_arg : string)
    (tagged : list (option User)) (scoring_arg : string)
    (min_snap_pct_arg : Q) (start_week_arg end_week_arg : Z)
    (description_arg : string) : Db * Response :=
  let scoring_arg := upper scoring_arg in
  if negb (bool_decide (is_Some (SCORING_PRESETS !! scoring_arg)))
  then (db, ScoringMustBe)
  else if negb (valid_pct min_snap_pct_arg) then (db, MinSnapPctMustBe)
  else
    let end_week_arg := Z.min end_week_arg 18 in
    let start_week_arg := Z.max 1 start_week_arg in
    let participant_ids := _collect_participant_ids tagged in
    let participant_ids_str := join "," participant_ids in
    let bet_id := next_id db in
    let bet :=
      {| id := bet_id;
         creator_discord_id := str (user_id (user interaction));
         player_a := strip player_a_arg;
         player_b := strip player_b_arg;
         description := Some (strip description_arg);
         scoring := scoring_arg;
         min_snap_pct := min_snap_pct_arg;
         season := SEASON;
         start_week := Some start_week_arg;
         end_week := Some end_week_arg;
         participants := Some participant_ids_str;
         is_active := Some 1%Z;
         created_at := now_iso |} in
    ({| bets := bets db ++ [bet]; sqlite_sequence := bet_id |},
     BetCreated bet_id).

(** One [column=?] of the [UPDATE] that [editbet] builds. *)
Inductive Update :=
| SetPlayerA (v : string)
| SetPlayerB (v : string)
| SetScoring (v : string)
| SetMinSnapPct (v : Q)
| SetStartWeek (v : Z)
| SetEndWeek (v : Z)
| SetDescription (v : string)
| SetParticipants (v : string).

Definition apply_update (b : Bet) (u : Update) : Bet :=
  match u with
  | SetPlayerA v =>
      {| id := id b; creator_discord_id := creator_discord_id b;
         player_a := v; player_b := player_b b;
         description := description b; scoring := scoring b;
         min_snap_pct := min_snap_pct b; season := season b;
         start_week := start_week b; end_week := end_week b;
         participants := participants b; is_active := is_active b;
         created_at := created_at b |}
  | SetPlayerB v =>
      {| id := id b; creator_discord_id := creator_discord_id b;
         player_a := player_a b; player_b := v;
         description := description b; scoring := scoring b;
         min_snap_pct := min_snap_pct b; season := season b;
         start_week := start_week b; end_week := end_week b;
         participants := participants b; is_active := is_active b;
         created_at := created_at b |}
  | SetScoring v =>
      {| id := id b; creator_discord_id := creator_discord_id b;
         player_a := player_a b; player_b := player_b b;
         description := description b; scoring := v;
         min_snap_pct := min_snap_pct b; season := season b;
         start_week := start_week b; end_week := end_week b;
         participants := participants b; is_active := is_active b;
         created_at := created_at b |}
  | SetMinSnapPct v =>
      {| id := id b; creator_discord_id := creator_discord_id b;
         player_a := player_a b; player_b := player_b b;
         description := description b; scoring := scoring b;
         min_snap_pct := v; season := season b;
         start_week := start_week b; end_week := end_week b;
         participants := participants b; is_active := is_active b;
         created_at := created_at b |}
  | SetStartWeek v =>
      {| id := id b; creator_discord_id := creator_discord_id b;
         player_a := player_a b; player_b := player_b b;
         description := description b; scoring := scoring b;
         min_snap_pct := min_snap_pct b; season := season b;
         start_week := Some v; end_week := end_week b;
         participants := participants b; is_active := is_active b;
         created_at := created_at b |}
  | SetEndWeek v =>
      {| id := id b; creator_discord_id := creator_discord_id b;
         player_a := player_a b; player_b := player_b b;
         description := description b; scoring := scoring b;
         min_snap_pct := min_snap_pct b; season := season b;
         start_week := start_week b; end_week := Some v;
         participants := participants b; is_active := is_active b;
         created_at := created_at b |}
  | SetDescription v =>
      {| id := id b; creator_discord_id := creator_discord_id b;
         player_a := player_a b; player_b := player_b b;
         description := Some v; scoring := scoring b;
         min_snap_pct := min_snap_pct b; season := season b;
         start_week := start_week b; end_week := end_week b;
         participants := participants b; is_active := is_active b;
         created_at := created_at b |}
  | SetParticipants v =>
      {| id := id b; creator_discord_id := creator_discord_id b;
         player_a := player_a b; player_b := player_b b;
         description := description b; scoring := scoring b;
         min_snap_pct := min_snap_pct b; season := season b;
         start_week := start_week b; end_week := end_week b;
         participants := Some v; is_active := is_active b;
         created_at := created_at b |}
  end.

(** [UPDATE bets SET ... WHERE id=?] *)
Definition update_where_id (bet_id : Z) (updates : list Update)
    (rows : list Bet) : list Bet :=
  map (fun b => if bool_decide (id b = bet_id)
                then fold_left apply_update updates b else b) rows.

(** [if text:] on an optional text: given and not empty. *)
Definition given (text : option string) : option string :=
  match text with
  | Some EmptyString => None
  | other => other
  end.

Definition clamp_week (w : Z) : Z := Z.max 1 (Z.min 18 w).

(** The arguments of [editbet] after [bet_id]. *)
Record Edit := {
  edit_player_a : option string;
  edit_player_b : option string;
  edit_scoring : option string;
  edit_min_snap_pct : option Q;
  edit_start_week : option Z;
  edit_end_week : option Z;
  edit_description : option string;
  edit_tagged : list (option User);
  clear_participants : option bool
}.

(** [if arg is not None: updates.append(...)] *)
Definition when_given {A : Type} (arg : option A) (set : A -> Update)
  : list Update :=
  match arg with
  | Some v => [set v]
  | None => []
  end.

(** The scoring is put in upper case and checked against the presets. *)
Definition scoring_update (e : Edit) : Response + list Update :=
  match given (edit_scoring e) with
  | Some v =>
      if bool_decide (is_Some (SCORING_PRESETS !! upper v))
      then inr [SetScoring (upper v)]
      else inl ScoringMustBe
  | None => inr []
  end.

Definition min_snap_pct_update (e : Edit) : Response + list Update :=
  match edit_min_snap_pct e with
  | Some p => if valid_pct p then inr [SetMinSnapPct p]
              else inl MinSnapPctMustBe
  | None => inr []
  end.

Definition participants_update (e : Edit) : list Update :=
  let provided_participants :=
    existsb (fun p => negb (isna p)) (edit_tagged e) in
  let clear := default false (clear_participants e) in
  if clear || provided_participants then
    let participants_str :=
      if clear then EmptyString
      else join "," (_collect_participant_ids (edit_tagged e)) in
    [SetParticipants participants_str]
  else [].

(** The list [updates] that [editbet] builds, in the order of its
    [append]s, or the answer with which it returns early: the scoring is
    checked before the threshold. *)
Definition edit_updates (e : Edit) : Response + list Update :=
  match scoring_update e with
  | inl r => inl r
  | inr scoring_updates =>
      match min_snap_pct_update e with
      | inl r => inl r
      | inr pct_updates =>
          inr (when_given (given (edit_player_a e))
                          (fun v => SetPlayerA (strip v))
               ++ when_given (given (edit_player_b e))
                             (fun v => SetPlayerB (strip v))
               ++ scoring_updates
               ++ pct_updates
               ++ when_given (edit_start_week e)
                             (fun w => SetStartWeek (clamp_week w))
               ++ when_given (edit_end_week e)
                             (fun w => SetEndWeek (clamp_week w))
               ++ when_given (edit_description e)
                             (fun d => SetDescription (strip d))
               ++ participants_update e)
      end
  end.

Definition editbet (db : Db) (interaction : Interaction) (bet_id : Z)
    (e : Edit) : Db * Response :=
  match List.find (fun b => bool_decide (id b = bet_id)) (bets db) with
  | None => (db, BetNotFound)
  | Some row =>
      if negb (user_can_edit interaction (creator_discord_id row))
      then (db, NoPermission)
      else
        match edit_updates e with
        | inl r => (db, r)
        | inr [] => (db, NothingToUpdate)
        | inr (u :: us) =>
            ({| bets := update_where_id bet_id (u :: us) (bets db);
                sqlite_sequence := sqlite_sequence db |},
             BetUpdated bet_id)
        end
  end.

(** The bets that [standings] lists:
    [SELECT ... FROM bets WHERE is_active=1 AND season=?] *)
Definition active_bets (SEASON : Z) (rows : list Bet) : list Bet :=
  List.filter (fun b => bool_decide (is_active b = Some 1%Z)
                        && bool_decide (season b = SEASON)) rows.

(** [end_w = min(e, max_week if max_week > 0 else e)] *)
Definition clamp_to_published (e max_week : Z) : Z :=
  Z.min e (if (0 <? max_week)%Z then max_week else e).

(** The bets that [standings] lists after [close_completed_bets], each
    with the last week that it passes to [compute_ppg] when its
    [end_week] is not NULL.  The statistics are loaded twice: inside
    [close_completed_bets] and again for [max_week]. *)
Definition standings_windows (SEASON : Z)
    (loaded loaded_again : exn + list StatRow) (db : Db)
  : list (Bet * option Z) :=
  let rows := close_completed_bets SEASON loaded (bets db) in
  let max_week := get_current_max_week SEASON loaded_again in
  map (fun b => (b, (fun e => clamp_to_published e max_week) <$> end_week b))
      (active_bets SEASON rows).

(** A bet that [compute_ppg] can be called with: its scoring is the name
    of a preset and its threshold is a percentage. *)
Definition bet_valid (b : Bet) : Prop :=
  is_Some (SCORING_PRESETS !! scoring b)
  /\ 0 <= min_snap_pct b /\ min_snap_pct b <= 100.

Definition update_valid (u : Update) : Prop :=
  match u with
  | SetScoring v => is_Some (SCORING_PRESETS !! v)
  | SetMinSnapPct p => 0 <= p /\ p <= 100
  | SetStartWeek w | SetEndWeek w => (1 <= w <= 18)%Z
  | _ => True
  end.

Definition sample_db : Db :=
  {| bets := sample_bets; sqlite_sequence := 7 |}.

Definition sample_interaction : Interaction :=
  {| user := {| user_id := 1001 |}; manage_guild := false;
     administrator := false |}.

Definition sample_stranger : Interaction :=
  {| user := {| user_id := 2002 |}; manage_guild := false;
     administrator := false |}.

Definition sample_tagged : list (option User) :=
  [ Some {| user_id := 1001 |}; None; Some {| user_id := 2002 |};
    Some {| user_id := 1001 |}; None; None ].

Definition sample_edit : Edit :=
  {| edit_player_a := None; edit_player_b := Some "";
     edit_scoring := Some "half"; edit_min_snap_pct := Some (30 # 1);
     edit_start_week := Some 0%Z; edit_end_week := Some 25%Z;
     edit_description := None; edit_tagged := [None; None];
     clear_participants := Some false |}.

Definition sample_users : list (option User) :=
  [ Some {| user_id := 1001 |}; None; Some {| user_id := 2002 |} ].

End Commands.

(** Rows that are out of scope for the season 2024 and the weeks 1..18:
    another season, the post-season, a week past the range. *)
Definition sample_out_of_scope : list StatRow :=
  [ {| season := 2023; week := 1; season_type := "REG"; team := "DAL";
       player_id := "00-0036358"; player_name := "CeeDee Lamb";
       stats := {[ "receptions" := Finite 9 ]} |};
    {| season := 2024; week := 19; season_type := "POST"; team := "DAL";
       player_id := "00-0036358"; player_name := "CeeDee Lamb";
       stats := {[ "receptions" := Finite 9 ]} |};
    {| season := 2024; week := 19; season_type := "REG"; team := "DAL";
       player_id := "00-0036358"; player_name := "CeeDee Lamb";
       stats := {[ "receptions" := Finite 9 ]} |} ].

(** Two snap records under one primary key, and a candidate row that
    has this key. *)
Definition expanding_snaps : list SnapRecord :=
  [ sample_snap 1 "C. Lamb" "LambCe00" 10;
    sample_snap 1 "CeeDee Lamb" "LambCe00" 60 ].

Definition expanding_cand : list Cand :=
  [ (sample_row 1 "00-0036358" "CeeDee Lamb",
     Some {| gsis_id := "00-0036358"; display_name := "CeeDee Lamb";
             pfr_id := Some "LambCe00" |}) ].

(** ** The next weekly post *)

(** An aware datetime as pytz makes it: the date and the time that the
    clock shows (the days since Monday 0001-01-01 and the microseconds
    since midnight) and the offset from UTC, in seconds, of the tzinfo
    that is attached.  [datetime.now(TZ)] attaches the offset that is in
    force in Toronto at that moment. *)
Record datetime := {
  days : Z;
  micros : Z;
  utcoffset : Z
}.

Definition WEEKLY_POST_DAY : Z := 1.
Definition WEEKLY_POST_HOUR : Z := 12.
Definition WEEKLY_POST_MINUTE : Z := 0.

Definition weekday (t : datetime) : Z := (days t mod 7)%Z.

(** [t + timedelta(days=n)]: the clock moves, the tzinfo stays. *)
Definition add_days (t : datetime) (n : Z) : datetime :=
  {| days := (days t + n)%Z; micros := micros t; utcoffset := utcoffset t |}.

(** [t.replace(hour=h, minute=m, second=0, microsecond=0)]: the tzinfo
    stays. *)
Definition replace_time (t : datetime) (h m : Z) : datetime :=
  {| days := days t; micros := ((h * 3600 + m * 60) * 1000000)%Z;
     utcoffset := utcoffset t |}.

(** [a <= b] on two datetimes with the same tzinfo: Python compares what
    their clocks show. *)
Definition datetime_le (a b : datetime) : bool :=
  ((days a <? days b) || (days a =? days b) && (micros a <=? micros b))%Z.

(** The moment in UTC, in microseconds since 0001-01-01. *)
Definition utc_micros (t : datetime) : Z :=
  (days t * 86400000000 + micros t - utcoffset t * 1000000)%Z.

Definition next_run_datetime (now_local : datetime) : datetime :=
  let days_ahead := ((WEEKLY_POST_DAY - weekday now_local) mod 7)%Z in
  let candidate :=
    replace_time (add_days now_local days_ahead)
                 WEEKLY_POST_HOUR WEEKLY_POST_MINUTE in
  if datetime_le candidate now_local then add_days candidate 7
  else candidate.

(** Saturday 2 November 2024, 10:00 in Toronto, on daylight-saving time
    (UTC-4); the night after, Toronto goes back to UTC-5. *)
Definition before_fall_back : datetime :=
  {| days := 739191; micros := 10 * 3600 * 1000000; utcoffset := -14400 |}.

(** A statistics table whose one regular-season row of 2024 has the week
    -1. *)
Definition negative_week_stats : list StatRow :=
  [ sample_row (-1) "00-0036358" "CeeDee Lamb" ].

(** An identity map in which no line has a PFR identifier: pandas reads
    the column as float64. *)
Definition unmapped_players : list PlayerRecord :=
  [ {| gsis_id := "00-0036358"; display_name := "CeeDee Lamb";
       pfr_id := None |} ].

(** ** Binary64 beside the standard library's IEEE 754 *)

(** The number that a float of [SpecFloat] stands for. *)
Definition of_spec_float (x : SpecFloat.spec_float) : float :=
  match x with
  | SpecFloat.S754_zero _ => Finite 0
  | SpecFloat.S754_infinity s => Inf s
  | SpecFloat.S754_nan => NaN
  | SpecFloat.S754_finite s m e =>
      Finite (Qred ((if s then -(1) else 1) * inject_Z (Z.pos m) * 2 ^ e))
  end.

(** A binary64 number as a float of [SpecFloat]. *)
Definition to_spec_float (x : float) : SpecFloat.spec_float :=
  match x with
  | NaN => SpecFloat.S754_nan
  | Inf s => SpecFloat.S754_infinity s
  | Finite q =>
      let q := Qred q in
      match Qnum q with
      | Z0 => SpecFloat.S754_zero false
      | Z.pos m => SpecFloat.S754_finite false m (- Z.log2 (Z.pos (Qden q)))
      | Z.neg m => SpecFloat.S754_finite true m (- Z.log2 (Z.pos (Qden q)))
      end
  end.

Definition float_eqb (x y : float) : bool :=
  match x, y with
  | Finite a, Finite b => Qeq_bool a b
  | Inf s, Inf s' => Bool.eqb s s'
  | NaN, NaN => true
  | _, _ => false
  end.

(** Whether [add], [mul] and [div] give on [x] and [y] what the
    operations of [SpecFloat] give at precision 53 and largest exponent
    1024. *)
Definition agree_with_SpecFloat (x y : float) : bool :=
  let via op :=
    of_spec_float (op 53%Z 1024%Z (to_spec_float x) (to_spec_float y)) in
  float_eqb (add x y) (via SpecFloat.SFadd)
  && float_eqb (mul x y) (via SpecFloat.SFmul)
  && (float_eqb y (Finite 0) || float_eqb (div x y) (via SpecFloat.SFdiv)).

(** Numbers of the examples below, with their sums and means, and
    numbers at the ends of the range. *)
Definition sample_floats : list float :=
  [ Finite 0; Finite 1; Finite 3; Finite 4; Finite 100; Finite (-(2));
    of_Q (1 # 10); of_Q (4 # 100); of_Q (54 # 10); Finite 17;
    of_Q (77 # 10); Finite 9; Finite 38; Finite (411 # 4);
    of_Q (224 # 10); of_Q (301 # 10); of_Q (391 # 10);
    of_Q (9775 # 1000); of_Q (11795 # 1000); Finite (1955 # 2);
    Finite 9007199254740992; Finite (-(9007199254740991 # 4));
    Finite (2 ^ (-1074)); Finite (3 * 2 ^ (-1074)); Finite (2 ^ (-1022));
    Finite (2 ^ 1023); Finite (-(2 ^ 1023)); Finite (2 ^ 512);
    Finite (2 ^ (-540)); Inf false; Inf true; NaN ].

(** * Properties *)

(** ** Binary64 rounding *)

Section PowersOfTwo.

Lemma pow2_pos (e : Z) : 0 < 2 ^ e.
Proof. apply Qpower_0_lt. reflexivity. Qed.

Lemma pow2_plus (a b : Z) : 2 ^ (a + b) == 2 ^ a * 2 ^ b.
Proof. apply Qpower_plus. discriminate. Qed.

Lemma pow2_le (a b : Z) : (a <= b)%Z -> 2 ^ a <= 2 ^ b.
Proof. intros H. apply Qpower_le_compat_l; [exact H | discriminate]. Qed.

Lemma pow2_lt (a b : Z) : (a < b)%Z -> 2 ^ a < 2 ^ b.
Proof. intros H. apply Qpower_lt_compat_l; [exact H | reflexivity]. Qed.

Lemma pow2_lt_inv (a b : Z) : 2 ^ a < 2 ^ b -> (a < b)%Z.
Proof.
  intros H. destruct (Z_lt_le_dec a b) as [Hlt|Hle]; [exact Hlt|].
  apply pow2_le in Hle. exfalso. apply (Qlt_not_le _ _ H Hle).
Qed.

Lemma pow2_succ (e : Z) : 2 ^ (e + 1) == 2 * 2 ^ e.
Proof. rewrite pow2_plus. change (2 ^ 1) with 2. ring. Qed.

Lemma pow2_pred (e : Z) : 2 ^ (e - 1) == 2 ^ e * (1 # 2).
Proof.
  replace (e - 1)%Z with (e + -1)%Z by lia. rewrite pow2_plus.
  reflexivity.
Qed.

Lemma log2_bracket (n : Z) :
  (0 < n)%Z -> 2 ^ Z.log2 n <= inject_Z n /\ inject_Z n < 2 ^ (Z.log2 n + 1).
Proof.
  intros Hn. destruct (Z.log2_spec n Hn) as [Hlo Hhi].
  pose proof (Z.log2_nonneg n) as H0.
  rewrite <- (Zpower_Qpower 2) by lia.
  rewrite <- (Zpower_Qpower 2) by lia.
  split.
  - rewrite <- Zle_Qle. exact Hlo.
  - rewrite <- Zlt_Qlt. replace (Z.log2 n + 1)%Z with (Z.succ (Z.log2 n)) by lia.
    exact Hhi.
Qed.

End PowersOfTwo.

Section Ilog2.

Lemma Qabs_as_quotient (q : Q) :
  Qabs q == inject_Z (Z.abs (Qnum q)) / inject_Z (Z.pos (Qden q)).
Proof. destruct q as [n d]. unfold Qabs. cbn [Qnum Qden]. apply Qmake_Qdiv. Qed.

Lemma ilog2_spec (q : Q) :
  ~ q == 0 -> 2 ^ ilog2 q <= Qabs q /\ Qabs q < 2 ^ (ilog2 q + 1).
Proof.
  intros Hq.
  assert (Hn : (0 < Z.abs (Qnum q))%Z).
  { destruct q as [n d]. cbn [Qnum]. unfold Qeq in Hq. cbn in Hq. lia. }
  destruct (log2_bracket _ Hn) as [Hnlo Hnhi].
  destruct (log2_bracket (Z.pos (Qden q)) eq_refl) as [Hdlo Hdhi].
  assert (HD : 0 < inject_Z (Z.pos (Qden q))).
  { change 0 with (inject_Z 0). rewrite <- Zlt_Qlt. reflexivity. }
  unfold ilog2.
  set (a := Z.log2 (Z.abs (Qnum q))) in *.
  set (b := Z.log2 (Z.pos (Qden q))) in *.
  set (N := inject_Z (Z.abs (Qnum q))) in *.
  set (D := inject_Z (Z.pos (Qden q))) in *.
  pose proof (Qabs_as_quotient q) as Eabs. fold N D in Eabs.
  destruct (Qle_bool (2 ^ (a - b)) (Qabs q)) eqn:Etest.
  - apply Qle_bool_iff in Etest. split; [exact Etest|].
    rewrite Eabs. apply Qlt_shift_div_r; [exact HD|].
    apply Qlt_le_trans with (2 ^ (a + 1)); [exact Hnhi|].
    replace (a + 1)%Z with ((a - b + 1) + b)%Z by lia.
    rewrite pow2_plus.
    apply Qmult_le_l; [apply pow2_pos | exact Hdlo].
  - assert (Hlt : Qabs q < 2 ^ (a - b)).
    { apply Qnot_le_lt. intros H. apply Qle_bool_iff in H. congruence. }
    split.
    + rewrite Eabs. apply Qle_shift_div_l; [exact HD|].
      apply Qle_trans with (2 ^ a); [|exact Hnlo].
      replace a with ((a - b - 1) + (b + 1))%Z at 2 by lia.
      rewrite pow2_plus.
      apply Qmult_le_l; [apply pow2_pos | apply Qlt_le_weak, Hdhi].
    + replace (a - b - 1 + 1)%Z with (a - b)%Z by lia. exact Hlt.
Qed.

End Ilog2.

Section Rounding.

Lemma round_half_even_comp (x y : Q) :
  x == y -> Numeric.round_half_even x = Numeric.round_half_even y.
Proof.
  intros E. unfold Numeric.round_half_even.
  rewrite (Qfloor_comp _ _ E).
  assert (Ec : Qcompare (x - inject_Z (Qfloor y)) (1 # 2)
               = Qcompare (y - inject_Z (Qfloor y)) (1 # 2)).
  { apply Qcompare_comp; [now rewrite E | reflexivity]. }
  now rewrite Ec.
Qed.

Lemma round_half_even_nearest (x : Q) :
  Qabs (inject_Z (Numeric.round_half_even x) - x) <= 1 # 2.
Proof.
  unfold Numeric.round_half_even.
  pose proof (Qfloor_le x) as Hlo.
  pose proof (Qlt_floor x) as Hhi.
  rewrite inject_Z_plus in Hhi. change (inject_Z 1) with 1 in Hhi.
  set (f := Qfloor x) in *.
  apply Qabs_Qle_condition.
  destruct (Qcompare_spec (x - inject_Z f) (1 # 2)) as [E|E|E].
  - destruct (Z.even f).
    + split; lra.
    + rewrite inject_Z_plus. change (inject_Z 1) with 1. split; lra.
  - split; lra.
  - rewrite inject_Z_plus. change (inject_Z 1) with 1. split; lra.
Qed.

Lemma ilog2_unique (q : Q) (e : Z) :
  2 ^ e <= Qabs q -> Qabs q < 2 ^ (e + 1) -> ~ q == 0 -> ilog2 q = e.
Proof.
  intros Hlo Hhi Hq. destruct (ilog2_spec q Hq) as [Hlo' Hhi'].
  assert (H1 : (e < ilog2 q + 1)%Z).
  { apply pow2_lt_inv. now apply Qle_lt_trans with (Qabs q). }
  assert (H2 : (ilog2 q < e + 1)%Z).
  { apply pow2_lt_inv. now apply Qle_lt_trans with (Qabs q). }
  lia.
Qed.

Lemma ilog2_comp (q q' : Q) : q == q' -> ~ q == 0 -> ilog2 q = ilog2 q'.
Proof.
  intros E Hq. symmetry.
  assert (Hq' : ~ q' == 0) by now rewrite <- E.
  destruct (ilog2_spec q Hq) as [Hlo Hhi].
  apply ilog2_unique; [now rewrite <- E | now rewrite <- E | exact Hq'].
Qed.

Lemma rnd_zero (q : Q) : q == 0 -> rnd q = 0.
Proof.
  intros E. unfold rnd.
  now rewrite (proj2 (Qeq_bool_iff q 0) E).
Qed.

Lemma rnd_nonzero (q : Q) :
  ~ q == 0 ->
  rnd q = Qred (inject_Z (Numeric.round_half_even (q / 2 ^ ulp_exp q))
                * 2 ^ ulp_exp q).
Proof.
  intros Hq. unfold rnd.
  destruct (Qeq_bool q 0) eqn:E; [|reflexivity].
  apply Qeq_bool_iff in E. contradiction.
Qed.

(** [rnd] sends equal rationals to the same fraction. *)
Lemma rnd_comp (q q' : Q) : q == q' -> rnd q = rnd q'.
Proof.
  intros E. destruct (Qeq_dec q 0) as [H0|H0].
  - rewrite (rnd_zero q H0), (rnd_zero q'); [reflexivity | now rewrite <- E].
  - assert (H0' : ~ q' == 0) by now rewrite <- E.
    rewrite !rnd_nonzero by assumption.
    unfold ulp_exp. rewrite <- (ilog2_comp q q' E H0).
    apply Qred_complete.
    rewrite (round_half_even_comp (q / _) (q' / 2 ^ Z.max (ilog2 q - 52) (-1074)));
      [reflexivity|].
    apply Qdiv_comp; [exact E | reflexivity].
Qed.

Lemma ulp_exp_bound (q : Q) :
  ~ q == 0 -> 2 ^ ulp_exp q * (1 # 2) <= eps * Qabs q + eta.
Proof.
  intros Hq. destruct (ilog2_spec q Hq) as [Hlo _].
  pose proof (Qabs_nonneg q) as Habs.
  unfold ulp_exp.
  destruct (Z.max_spec (ilog2 q - 52) (-1074)) as [[Hc ->]|[Hc ->]].
  - assert (H : 0 <= eps * Qabs q).
    { apply Qmult_le_0_compat; [apply Qlt_le_weak, pow2_pos | exact Habs]. }
    assert (E : 2 ^ (-1074) * (1 # 2) == eta) by reflexivity.
    rewrite E. revert H. generalize (eps * Qabs q). intros x H. lra.
  - replace (ilog2 q - 52)%Z with (ilog2 q + -52)%Z by lia.
    rewrite pow2_plus.
    assert (Heta : 0 < eta) by apply pow2_pos.
    assert (E : eps * Qabs q == Qabs q * 2 ^ (-52) * (1 # 2)).
    { assert (E' : eps == 2 ^ (-52) * (1 # 2)) by reflexivity.
      rewrite E'. ring. }
    rewrite E.
    assert (Hm : 2 ^ ilog2 q * 2 ^ (-52) * (1 # 2)
                 <= Qabs q * 2 ^ (-52) * (1 # 2)).
    { apply Qmult_le_compat_r; [|discriminate].
      apply Qmult_le_compat_r; [exact Hlo | apply Qlt_le_weak, pow2_pos]. }
    revert Hm. generalize (2 ^ ilog2 q * 2 ^ (-52) * (1 # 2)).
    generalize (Qabs q * 2 ^ (-52) * (1 # 2)). intros x y Hm. lra.
Qed.

(** The rounded value is within half a unit in the last place. *)
Lemma rnd_half_ulp (q : Q) :
  ~ q == 0 -> Qabs (rnd q - q) <= 2 ^ ulp_exp q * (1 # 2).
Proof.
  intros Hq. rewrite rnd_nonzero by exact Hq. rewrite Qred_correct.
  set (e := ulp_exp q).
  pose proof (pow2_pos e) as He.
  pose proof (round_half_even_nearest (q / 2 ^ e)) as Hm.
  set (m := inject_Z (Numeric.round_half_even (q / 2 ^ e))) in *.
  assert (E : m * 2 ^ e - q == (m - q / 2 ^ e) * 2 ^ e).
  { field. intros H0. rewrite H0 in He. discriminate. }
  rewrite E, Qabs_Qmult, (Qabs_pos (2 ^ e)) by now apply Qlt_le_weak.
  rewrite (Qmult_comm (2 ^ e)).
  apply Qmult_le_compat_r; [exact Hm | now apply Qlt_le_weak].
Qed.

Lemma rnd_error (q : Q) : Qabs (rnd q - q) <= eps * Qabs q + eta.
Proof.
  destruct (Qeq_dec q 0) as [H0|H0].
  - rewrite (rnd_zero q H0), H0. vm_compute. discriminate.
  - eapply Qle_trans; [now apply rnd_half_ulp | now apply ulp_exp_bound].
Qed.

End Rounding.

Section Grid.

Lemma round_half_even_mono (x y : Q) :
  x <= y -> (Numeric.round_half_even x <= Numeric.round_half_even y)%Z.
Proof.
  intros Hxy.
  destruct (Z.le_gt_cases (Numeric.round_half_even x)
                          (Numeric.round_half_even y)) as [H|H];
    [exact H|exfalso].
  pose proof (round_half_even_nearest x) as Hx.
  pose proof (round_half_even_nearest y) as Hy.
  apply Qabs_Qle_condition in Hx, Hy.
  assert (Hstep : inject_Z (Numeric.round_half_even y) + 1
                  <= inject_Z (Numeric.round_half_even x)).
  { change 1 with (inject_Z 1). rewrite <- inject_Z_plus.
    rewrite <- Zle_Qle. lia. }
  assert (Heq : x == y) by (apply Qle_antisym; lra).
  rewrite (round_half_even_comp x y Heq) in H. lia.
Qed.

(** A whole number rounds to itself. *)
Lemma round_half_even_Z (z : Z) : Numeric.round_half_even (inject_Z z) = z.
Proof.
  unfold Numeric.round_half_even. rewrite Qfloor_Z.
  assert (E : inject_Z z - inject_Z z == 0) by ring.
  rewrite (Qcompare_comp _ _ E _ _ (Qeq_refl (1 # 2))). reflexivity.
Qed.

Lemma rnd_value (q : Q) :
  ~ q == 0 ->
  rnd q == inject_Z (Numeric.round_half_even (q / 2 ^ ulp_exp q))
           * 2 ^ ulp_exp q.
Proof. intros Hq. rewrite rnd_nonzero by exact Hq. apply Qred_correct. Qed.


(** Rounding does not cross a point of the grid that [q] is rounded on. *)
Lemma rnd_le_grid (q : Q) (j : Z) :
  ~ q == 0 -> q <= inject_Z j * 2 ^ ulp_exp q ->
  rnd q <= inject_Z j * 2 ^ ulp_exp q.
Proof.
  intros Hq Hle. rewrite (rnd_value q Hq).
  apply Qmult_le_compat_r; [|apply Qlt_le_weak, pow2_pos].
  rewrite <- Zle_Qle. rewrite <- (round_half_even_Z j).
  apply round_half_even_mono.
  apply Qle_shift_div_r; [apply pow2_pos | exact Hle].
Qed.

Lemma rnd_ge_grid (q : Q) (j : Z) :
  ~ q == 0 -> inject_Z j * 2 ^ ulp_exp q <= q ->
  inject_Z j * 2 ^ ulp_exp q <= rnd q.
Proof.
  intros Hq Hle. rewrite (rnd_value q Hq).
  apply Qmult_le_compat_r; [|apply Qlt_le_weak, pow2_pos].
  rewrite <- Zle_Qle. rewrite <- (round_half_even_Z j).
  apply round_half_even_mono.
  apply Qle_shift_div_l; [apply pow2_pos | exact Hle].
Qed.

(** A power of two at or above the last place of [q] is on its grid. *)
Lemma pow2_on_grid (k e : Z) :
  (e <= k)%Z -> 2 ^ k == inject_Z (2 ^ (k - e)) * 2 ^ e.
Proof.
  intros H. rewrite (Zpower_Qpower 2) by lia.
  change (inject_Z 2) with 2. rewrite <- pow2_plus.
  now replace (k - e + e)%Z with k by lia.
Qed.

Lemma ilog2_le (q : Q) (k : Z) :
  ~ q == 0 -> Qabs q <= 2 ^ k -> (ilog2 q <= k)%Z.
Proof.
  intros Hq Hk. destruct (ilog2_spec q Hq) as [Hlo _].
  assert (H : (ilog2 q < k + 1)%Z).
  { apply pow2_lt_inv. apply Qle_lt_trans with (2 ^ k).
    - now apply Qle_trans with (Qabs q).
    - apply pow2_lt. lia. }
  lia.
Qed.

Lemma ulp_exp_le (q : Q) (k : Z) :
  ~ q == 0 -> (-1074 <= k)%Z -> Qabs q <= 2 ^ k -> (ulp_exp q <= k)%Z.
Proof.
  intros Hq Hmin Hk. pose proof (ilog2_le q k Hq Hk). unfold ulp_exp. lia.
Qed.

(** Rounding keeps a value within a power of two that bounds it. *)
Lemma rnd_abs_le_pow2 (q : Q) (k : Z) :
  (-1074 <= k)%Z -> Qabs q <= 2 ^ k -> Qabs (rnd q) <= 2 ^ k.
Proof.
  intros Hmin Hk. destruct (Qeq_dec q 0) as [H0|H0].
  - rewrite (rnd_zero q H0). apply Qlt_le_weak, pow2_pos.
  - pose proof (ulp_exp_le q k H0 Hmin Hk) as He.
    apply Qabs_Qle_condition in Hk as [Hlo Hhi].
    apply Qabs_Qle_condition. split.
    + rewrite (pow2_on_grid k (ulp_exp q) He).
      assert (E : - (inject_Z (2 ^ (k - ulp_exp q)) * 2 ^ ulp_exp q)
                  == inject_Z (- 2 ^ (k - ulp_exp q)) * 2 ^ ulp_exp q).
      { rewrite inject_Z_opp. ring. }
      rewrite E. apply rnd_ge_grid; [exact H0|].
      rewrite <- E, <- (pow2_on_grid k (ulp_exp q) He). exact Hlo.
    + rewrite (pow2_on_grid k (ulp_exp q) He).
      apply rnd_le_grid; [exact H0|].
      rewrite <- (pow2_on_grid k (ulp_exp q) He). exact Hhi.
Qed.

(** Below [2 ^ 1024] nothing overflows. *)
Lemma of_Q_finite (q : Q) (k : Z) :
  (-1074 <= k <= 1023)%Z -> Qabs q <= 2 ^ k -> of_Q q = Finite (rnd q).
Proof.
  intros Hk Hq. unfold of_Q.
  pose proof (rnd_abs_le_pow2 q k (proj1 Hk) Hq) as Hr.
  destruct (Qle_bool (2 ^ 1024) (Qabs (rnd q))) eqn:E; [|reflexivity].
  apply Qle_bool_iff in E. exfalso.
  assert (Hlt : 2 ^ k < 2 ^ 1024) by (apply pow2_lt; lia).
  apply (Qlt_not_le _ _ Hlt). now apply Qle_trans with (Qabs (rnd q)).
Qed.

End Grid.

Section Monotone.

Lemma rnd_nonneg (q : Q) : 0 <= q -> 0 <= rnd q.
Proof.
  intros Hq. destruct (Qeq_dec q 0) as [H0|H0].
  - rewrite (rnd_zero q H0). apply Qle_refl.
  - assert (E : 0 == inject_Z 0 * 2 ^ ulp_exp q) by ring.
    rewrite E. apply rnd_ge_grid; [exact H0|]. now rewrite <- E.
Qed.

Lemma rnd_nonpos (q : Q) : q <= 0 -> rnd q <= 0.
Proof.
  intros Hq. destruct (Qeq_dec q 0) as [H0|H0].
  - rewrite (rnd_zero q H0). apply Qle_refl.
  - assert (E : 0 == inject_Z 0 * 2 ^ ulp_exp q) by ring.
    rewrite E. apply rnd_le_grid; [exact H0|]. now rewrite <- E.
Qed.

Lemma rnd_mono_same_grid (q q' : Q) :
  ~ q == 0 -> ~ q' == 0 -> ulp_exp q = ulp_exp q' -> q <= q' ->
  rnd q <= rnd q'.
Proof.
  intros H0 H0' Ee Hle. rewrite (rnd_value q H0), (rnd_value q' H0'), Ee.
  apply Qmult_le_compat_r; [|apply Qlt_le_weak, pow2_pos].
  rewrite <- Zle_Qle. apply round_half_even_mono.
  apply Qmult_le_compat_r; [exact Hle|].
  apply Qlt_le_weak, Qinv_lt_0_compat, pow2_pos.
Qed.

(** From a finer grid to a coarser one the power of two between them is
    on both. *)
Lemma rnd_across (lo hi : Q) (k : Z) :
  ~ lo == 0 -> ~ hi == 0 ->
  (ulp_exp lo <= k)%Z -> (ulp_exp hi <= k)%Z ->
  forall s : Z, lo <= inject_Z s * 2 ^ k -> inject_Z s * 2 ^ k <= hi ->
  rnd lo <= rnd hi.
Proof.
  intros Hlo Hhi Hk Hk' s H1 H2.
  assert (G : forall e, (e <= k)%Z ->
            inject_Z s * 2 ^ k == inject_Z (s * 2 ^ (k - e)) * 2 ^ e).
  { intros e He. rewrite (pow2_on_grid k e He), inject_Z_mult. ring. }
  apply Qle_trans with (inject_Z s * 2 ^ k).
  - rewrite (G _ Hk). apply rnd_le_grid; [exact Hlo|]. now rewrite <- (G _ Hk).
  - rewrite (G _ Hk'). apply rnd_ge_grid; [exact Hhi|]. now rewrite <- (G _ Hk').
Qed.

Lemma ulp_exp_normal (q : Q) (e : Z) :
  (e < ulp_exp q)%Z -> (-1074 <= e)%Z -> ulp_exp q = (ilog2 q - 52)%Z.
Proof. unfold ulp_exp. lia. Qed.

Lemma rnd_mono_pos (q q' : Q) : 0 < q -> q <= q' -> rnd q <= rnd q'.
Proof.
  intros Hpos Hle.
  assert (Hpos' : 0 < q') by now apply Qlt_le_trans with q.
  assert (H0 : ~ q == 0) by (intros E; rewrite E in Hpos; discriminate).
  assert (H0' : ~ q' == 0) by (intros E; rewrite E in Hpos'; discriminate).
  destruct (ilog2_spec q H0) as [Hlo Hhi].
  destruct (ilog2_spec q' H0') as [Hlo' Hhi'].
  rewrite (Qabs_pos q) in Hlo, Hhi by now apply Qlt_le_weak.
  rewrite (Qabs_pos q') in Hlo', Hhi' by now apply Qlt_le_weak.
  assert (Hil : (ilog2 q <= ilog2 q')%Z).
  { assert (H : (ilog2 q < ilog2 q' + 1)%Z).
    { apply pow2_lt_inv. apply Qle_lt_trans with q; [exact Hlo|].
      now apply Qle_lt_trans with q'. }
    lia. }
  destruct (Z.eq_dec (ulp_exp q) (ulp_exp q')) as [Ee|Ene].
  - now apply rnd_mono_same_grid.
  - assert (Hlt : (ulp_exp q < ulp_exp q')%Z) by (unfold ulp_exp in *; lia).
    assert (Hmin : (-1074 <= ulp_exp q)%Z) by (unfold ulp_exp; lia).
    pose proof (ulp_exp_normal q' _ Hlt Hmin) as En.
    assert (Hil' : (ilog2 q + 1 <= ilog2 q')%Z) by (unfold ulp_exp in *; lia).
    apply (rnd_across q q' (ilog2 q') H0 H0' ltac:(lia) ltac:(lia) 1%Z).
    + change (inject_Z 1) with 1. rewrite Qmult_1_l.
      apply Qlt_le_weak, Qlt_le_trans with (2 ^ (ilog2 q + 1)); [exact Hhi|].
      now apply pow2_le.
    + change (inject_Z 1) with 1. rewrite Qmult_1_l. exact Hlo'.
Qed.

Lemma rnd_mono_neg (q q' : Q) : q' < 0 -> q <= q' -> rnd q <= rnd q'.
Proof.
  intros Hneg' Hle.
  assert (Hneg : q < 0) by now apply Qle_lt_trans with q'.
  assert (H0 : ~ q == 0) by (intros E; rewrite E in Hneg; discriminate).
  assert (H0' : ~ q' == 0) by (intros E; rewrite E in Hneg'; discriminate).
  destruct (ilog2_spec q H0) as [Hlo Hhi].
  destruct (ilog2_spec q' H0') as [Hlo' Hhi'].
  rewrite (Qabs_neg q) in Hlo, Hhi by now apply Qlt_le_weak.
  rewrite (Qabs_neg q') in Hlo', Hhi' by now apply Qlt_le_weak.
  assert (Hil : (ilog2 q' <= ilog2 q)%Z).
  { assert (H : (ilog2 q' < ilog2 q + 1)%Z).
    { apply pow2_lt_inv. apply Qle_lt_trans with (- q'); [exact Hlo'|].
      apply Qle_lt_trans with (- q); [lra | exact Hhi]. }
    lia. }
  destruct (Z.eq_dec (ulp_exp q) (ulp_exp q')) as [Ee|Ene].
  - now apply rnd_mono_same_grid.
  - assert (Hlt : (ulp_exp q' < ulp_exp q)%Z) by (unfold ulp_exp in *; lia).
    assert (Hmin : (-1074 <= ulp_exp q')%Z) by (unfold ulp_exp; lia).
    pose proof (ulp_exp_normal q _ Hlt Hmin) as En.
    assert (Hil' : (ilog2 q' + 1 <= ilog2 q)%Z) by (unfold ulp_exp in *; lia).
    apply (rnd_across q q' (ilog2 q) H0 H0' ltac:(lia) ltac:(lia) (-1)%Z).
    + assert (E : inject_Z (-1) * 2 ^ ilog2 q == - 2 ^ ilog2 q) by ring.
      rewrite E. lra.
    + assert (E : inject_Z (-1) * 2 ^ ilog2 q == - 2 ^ ilog2 q) by ring.
      rewrite E.
      assert (H : 2 ^ (ilog2 q' + 1) <= 2 ^ ilog2 q) by now apply pow2_le.
      lra.
Qed.

(** Rounding to binary64 is monotone. *)
Lemma rnd_mono (q q' : Q) : q <= q' -> rnd q <= rnd q'.
Proof.
  intros Hle.
  destruct (Qlt_le_dec 0 q) as [Hpos|Hnp]; [now apply rnd_mono_pos|].
  destruct (Qlt_le_dec q' 0) as [Hneg|Hnn]; [now apply rnd_mono_neg|].
  apply Qle_trans with 0; [now apply rnd_nonpos | now apply rnd_nonneg].
Qed.

End Monotone.

Lemma node_bound (nl nr M d e h : Q) :
  1 <= nl -> 1 <= nr -> (nl + nr) * e * 2 <= 1 -> 0 <= M -> 0 <= e -> 0 <= h ->
  d == e * M + h ->
  2 * nl * nl * d + 2 * nr * nr * d
  + (e * ((nl + nr) * M + 2 * nl * nl * d + 2 * nr * nr * d) + h)
  <= 2 * (nl + nr) * (nl + nr) * d.
Proof.
  intros Hl Hr Hn HM He Hh Ed.
  assert (HeM : 0 <= e * M) by now apply Qmult_le_0_compat.
  assert (Hd : 0 <= d) by (rewrite Ed; lra).
  assert (Hld : 0 <= nl * d) by (apply Qmult_le_0_compat; lra).
  assert (Hrd : 0 <= nr * d) by (apply Qmult_le_0_compat; lra).
  assert (H1 : 0 <= (nr - 1) * (nl * d)) by (apply Qmult_le_0_compat; lra).
  assert (H2 : 0 <= (nl - 1) * (nr * d)) by (apply Qmult_le_0_compat; lra).
  assert (H3 : 0 <= (nl + nr - 1) * h) by (apply Qmult_le_0_compat; lra).
  assert (H3' : 0 <= (nl + nr - 1) * (e * M)) by (apply Qmult_le_0_compat; lra).
  assert (Hnd : 0 <= (nl + nr) * ((nl + nr) * d)).
  { apply Qmult_le_0_compat; [lra|]. apply Qmult_le_0_compat; lra. }
  assert (H5 : 0 <= (1 - (nl + nr) * e * 2) * ((nl + nr) * d)).
  { apply Qmult_le_0_compat; [lra|]. apply Qmult_le_0_compat; lra. }
  assert (H6 : 0 <= e * (2 * (nr * (nl * d)) + 2 * (nl * (nr * d)))).
  { apply Qmult_le_0_compat; [lra|].
    assert (0 <= nr * (nl * d)) by (apply Qmult_le_0_compat; lra).
    assert (0 <= nl * (nr * d)) by (apply Qmult_le_0_compat; lra). lra. }
  assert (Ed' : (nl + nr) * d == (nl + nr) * (e * M) + (nl + nr) * h).
  { rewrite Ed. ring. }
  lra.
Qed.

Section Summation.

Lemma total_app (l1 l2 : list float) : total (l1 ++ l2) == total l1 + total l2.
Proof.
  unfold total. induction l1 as [|x l1 IH]; simpl; [ring|].
  rewrite IH. ring.
Qed.

Lemma total_Permutation (l l' : list float) :
  Permutation l l' -> total l == total l'.
Proof.
  unfold total.
  induction 1 as [|a l l' _ IH|a b l|l l' l'' _ IH1 _ IH2]; simpl.
  - reflexivity.
  - now rewrite IH.
  - ring.
  - now rewrite IH1.
Qed.

Lemma len_app (l1 l2 : list float) : len (l1 ++ l2) == len l1 + len l2.
Proof.
  unfold len. rewrite length_app, Nat2Z.inj_add, inject_Z_plus. reflexivity.
Qed.

Lemma len_cons (x : float) (l : list float) : len (x :: l) == 1 + len l.
Proof. apply (len_app [x] l). Qed.

Lemma len_nonneg (l : list float) : 0 <= len l.
Proof. unfold len. change 0 with (inject_Z 0). rewrite <- Zle_Qle. lia. Qed.

Lemma total_bound (M : Q) (l : list float) :
  Forall (within M) l -> Qabs (total l) <= len l * M.
Proof.
  induction 1 as [|x l [v [-> Hv]] _ IH].
  - vm_compute. discriminate.
  - change (total (Finite v :: l)) with (v + total l).
    rewrite len_cons.
    eapply Qle_trans; [apply Qabs_triangle|].
    assert (E : (1 + len l) * M == M + len l * M) by ring.
    rewrite E. lra.
Qed.

Lemma sums_to_nonempty (l : list float) (x : float) :
  sums_to l x -> 1 <= len l.
Proof.
  induction 1 as [x|l1 l2 x y _ IH1 _ IH2|l l' x Hp _ IH].
  - vm_compute. discriminate.
  - rewrite len_app. pose proof (len_nonneg l2). lra.
  - unfold len in *. now rewrite <- (Permutation_length Hp).
Qed.

End Summation.

Section SummationError.

Lemma eps_pos : 0 < eps.
Proof. apply pow2_pos. Qed.

Lemma eta_pos : 0 < eta.
Proof. apply pow2_pos. Qed.

(** One addition that does not overflow. *)
Lemma add_finite (a b : Q) :
  Qabs (a + b) <= 2 ^ 1023 ->
  add (Finite a) (Finite b) = Finite (rnd (a + b))
  /\ Qabs (rnd (a + b) - (a + b)) <= eps * Qabs (a + b) + eta.
Proof.
  intros H. split; [|apply rnd_error].
  cbn [add]. apply (of_Q_finite _ 1023); [lia | exact H].
Qed.

Lemma square_le (n c : Q) : 0 <= n -> n <= c -> n * n <= c * c.
Proof. intros H0 Hc. apply Qmult_le_compat_nonneg; split; lra. Qed.

(** With at most [2 ^ 26] numbers of magnitude at most [2 ^ 970] the
    partial sums stay far from overflow. *)
Lemma node_magnitude (n M : Q) :
  0 <= n -> n <= 2 ^ 26 -> 0 <= M -> M <= 2 ^ 970 ->
  n * M + 2 * n * n * (eps * M + eta) <= 2 ^ 1000.
Proof.
  intros Hn0 Hn HM0 HM.
  assert (H1 : n * M <= 2 ^ 26 * 2 ^ 970).
  { apply Qmult_le_compat_nonneg; split; lra. }
  assert (H2 : n * n <= 2 ^ 26 * 2 ^ 26) by now apply square_le.
  assert (H3 : eps * M + eta <= eps * 2 ^ 970 + eta).
  { assert (eps * M <= eps * 2 ^ 970).
    { apply Qmult_le_l; [apply eps_pos | exact HM]. }
    lra. }
  assert (H4 : 0 <= eps * M + eta).
  { assert (0 <= eps * M).
    { apply Qmult_le_0_compat; [apply Qlt_le_weak, eps_pos | exact HM0]. }
    pose proof eta_pos. lra. }
  assert (H5 : n * n * (eps * M + eta)
               <= 2 ^ 26 * 2 ^ 26 * (eps * 2 ^ 970 + eta)).
  { apply Qmult_le_compat_nonneg; split; try lra.
    apply Qmult_le_0_compat; lra. }
  assert (H6 : 2 ^ 26 * 2 ^ 970
               + 2 * (2 ^ 26 * 2 ^ 26 * (eps * 2 ^ 970 + eta)) <= 2 ^ 1000).
  { vm_compute. discriminate. }
  revert H1 H5 H6.
  generalize (2 ^ 26 * 2 ^ 970)
             (2 ^ 26 * 2 ^ 26 * (eps * 2 ^ 970 + eta)) (2 ^ 1000).
  intros c1 c2 c3 H1 H5 H6.
  assert (E : 2 * n * n * (eps * M + eta)
              == 2 * (n * n * (eps * M + eta))) by ring.
  rewrite E. lra.
Qed.

Lemma delta_nonneg (M : Q) : 0 <= M -> 0 <= eps * M + eta.
Proof.
  intros HM.
  assert (0 <= eps * M).
  { apply Qmult_le_0_compat; [apply Qlt_le_weak, eps_pos | exact HM]. }
  pose proof eta_pos. lra.
Qed.

(** The error of a sum of [n] numbers of magnitude at most [M], however
    the additions are bracketed, is at most [2 n^2 (eps M + eta)]. *)
Lemma sums_to_error (M : Q) (l : list float) (x : float) :
  0 <= M -> M <= 2 ^ 970 ->
  sums_to l x -> Forall (within M) l -> len l <= 2 ^ 26 ->
  exists v, x = Finite v
    /\ Qabs (v - total l) <= 2 * len l * len l * (eps * M + eta).
Proof.
  intros HM0 HM Hsum. pose proof (delta_nonneg M HM0) as Hd.
  induction Hsum as [x|l1 l2 x y Hs1 IH1 Hs2 IH2|l l' x Hp _ IH];
    intros Hall Hlen.
  - apply Forall_cons in Hall as [[v [-> Hv]] _]. exists v.
    split; [reflexivity|].
    change (total [Finite v]) with (v + 0).
    assert (E : v - (v + 0) == 0) by ring. rewrite E.
    change (Qabs 0) with 0.
    apply Qmult_le_0_compat; [|exact Hd]. vm_compute. discriminate.
  - apply Forall_app in Hall as [Hall1 Hall2].
    pose proof (len_nonneg l1) as Hn1. pose proof (len_nonneg l2) as Hn2.
    pose proof (sums_to_nonempty _ _ Hs1) as Hone1.
    pose proof (sums_to_nonempty _ _ Hs2) as Hone2.
    rewrite len_app in Hlen.
    destruct (IH1 Hall1 ltac:(lra)) as [vl [-> Hvl]].
    destruct (IH2 Hall2 ltac:(lra)) as [vr [-> Hvr]].
    pose proof (total_bound M l1 Hall1) as Hb1.
    pose proof (total_bound M l2 Hall2) as Hb2.
    set (nl := len l1) in *. set (nr := len l2) in *.
    set (sl := total l1) in *. set (sr := total l2) in *.
    set (d := eps * M + eta) in *.
    apply Qabs_Qle_condition in Hvl, Hvr, Hb1, Hb2.
    assert (Hcross : 0 <= nl * nr * d).
    { apply Qmult_le_0_compat; [apply Qmult_le_0_compat; lra | exact Hd]. }
    assert (Hmag : (nl + nr) * M + 2 * (nl + nr) * (nl + nr) * d <= 2 ^ 1000).
    { apply node_magnitude; lra. }
    assert (Hpow : 2 ^ 1000 <= 2 ^ 1023) by (apply pow2_le; lia).
    assert (Hsq : 2 * (nl + nr) * (nl + nr) * d
                  == 2 * nl * nl * d + 2 * nr * nr * d + 4 * (nl * nr * d))
      by ring.
    assert (HnM : (nl + nr) * M == nl * M + nr * M) by ring.
    assert (Hx : Qabs (vl + vr)
                 <= (nl + nr) * M + 2 * nl * nl * d + 2 * nr * nr * d).
    { apply Qabs_Qle_condition. rewrite HnM. split; lra. }
    destruct (add_finite vl vr) as [Eadd Herr].
    { eapply Qle_trans; [exact Hx|]. rewrite Hsq in Hmag.
      revert Hmag Hpow. generalize (2 ^ 1000) (2 ^ 1023). intros c c' ? ?.
      lra. }
    exists (rnd (vl + vr)). split; [exact Eadd|].
    rewrite total_app, len_app. fold nl nr sl sr.
    assert (Herr' : eps * Qabs (vl + vr)
                    <= eps * ((nl + nr) * M + 2 * nl * nl * d
                              + 2 * nr * nr * d)).
    { apply Qmult_le_l; [apply eps_pos | exact Hx]. }
    pose proof (node_bound nl nr M d eps eta Hone1 Hone2) as Hnode.
    assert (Heps : (nl + nr) * eps * 2 <= 1).
    { assert (H : (nl + nr) * eps <= 2 ^ 26 * eps).
      { apply Qmult_le_compat_r; [exact Hlen | apply Qlt_le_weak, eps_pos]. }
      assert (H' : 2 ^ 26 * eps * 2 <= 1) by (vm_compute; discriminate).
      revert H H'. generalize (2 ^ 26 * eps). intros c H H'. lra. }
    specialize (Hnode Heps HM0 (Qlt_le_weak _ _ eps_pos)
                      (Qlt_le_weak _ _ eta_pos) (Qeq_refl _)).
    apply Qabs_Qle_condition in Herr.
    apply Qabs_Qle_condition.
    revert Herr Herr' Hnode.
    generalize (eps * Qabs (vl + vr))
               (eps * ((nl + nr) * M + 2 * nl * nl * d + 2 * nr * nr * d))
               (2 * (nl + nr) * (nl + nr) * d) (rnd (vl + vr)).
    intros e1 e2 bound r Herr Herr' Hnode.
    split; lra.
  - assert (Hall' : Forall (within M) l).
    { eapply Permutation_Forall; [symmetry; exact Hp | exact Hall]. }
    assert (El : len l' = len l).
    { unfold len. now rewrite (Permutation_length Hp). }
    rewrite El in *.
    destruct (IH Hall' Hlen) as [v [-> Hv]]. exists v.
    split; [reflexivity|]. now rewrite <- (total_Permutation _ _ Hp).
Qed.

End SummationError.

Section PairwiseSum.

Lemma sum_loop_sums_to (a l : list float) (res : float) :
  sums_to l res -> sums_to (l ++ a) (sum_loop res a).
Proof.
  revert l res. induction a as [|x a IH]; intros l res H.
  - now rewrite app_nil_r.
  - cbn [sum_loop fold_left]. change (fold_left add a (add res x))
      with (sum_loop (add res x) a).
    replace (l ++ x :: a) with ((l ++ [x]) ++ a)
      by (rewrite <- app_assoc; reflexivity).
    apply IH. apply sums_add; [exact H | apply sums_leaf].
Qed.










End PairwiseSum.

Section Operations.




(** A rounding that cannot overflow. *)
Lemma of_Q_near (q : Q) (k : Z) :
  (-1074 <= k <= 1023)%Z -> Qabs q <= 2 ^ k ->
  of_Q q = Finite (rnd q)
  /\ Qabs (rnd q - q) <= eps * Qabs q + eta
  /\ Qabs (rnd q) <= 2 ^ k.
Proof.
  intros Hk Hq. split; [now apply (of_Q_finite q k)|].
  split; [apply rnd_error | apply rnd_abs_le_pow2; [lia | exact Hq]].
Qed.


Lemma Qabs_hundredth (k : Z) (t : Q) :
  Qabs (inject_Z k - t * 100) <= 1 # 2 -> Qabs ((k # 100) - t) <= 1 # 200.
Proof.
  intros H. apply Qabs_Qle_condition in H. apply Qabs_Qle_condition.
  assert (E : k # 100 == inject_Z k * (1 # 100)).
  { unfold Qeq, Qmult. simpl. lia. }
  rewrite E. revert H. generalize (inject_Z k). intros x H. split; lra.
Qed.

Lemma Qdiv_hundred (k : Z) : inject_Z k / inject_Z (10 ^ Z.of_nat 2) == k # 100.
Proof. unfold Qdiv, Qmult, Qeq. simpl. lia. Qed.

(** Python's [round(x, 2)]: the nearest whole number of hundredths, as a
    binary64 number. *)
Lemma py_round_2 (t : Q) :
  Qabs t <= 2 ^ 1000 ->
  exists k : Z,
    py_round (Finite t) 2 = Finite (rnd (k # 100))
    /\ Qabs ((k # 100) - t) <= 1 # 200.
Proof.
  intros Ht. cbn [py_round].
  set (k := Numeric.round_half_even (t * inject_Z (10 ^ Z.of_nat 2))).
  exists k.
  pose proof (round_half_even_nearest (t * inject_Z (10 ^ Z.of_nat 2))) as Hk.
  fold k in Hk. change (inject_Z (10 ^ Z.of_nat 2)) with 100 in Hk.
  pose proof (Qabs_hundredth k t Hk) as Hnear.
  split; [|exact Hnear].
  rewrite (rnd_comp (k # 100) (inject_Z k / inject_Z (10 ^ Z.of_nat 2)))
    by (symmetry; apply Qdiv_hundred).
  apply (of_Q_finite _ 1001); [lia|].
  rewrite Qdiv_hundred.
  assert (Hp : 2 ^ 1001 == 2 * 2 ^ 1000) by (apply (pow2_succ 1000)).
  rewrite Hp.
  apply Qabs_Qle_condition in Ht, Hnear. apply Qabs_Qle_condition.
  pose proof (pow2_pos 1000) as Hpos.
  assert (H1 : 1 <= 2 ^ 1000).
  { change 1 with (2 ^ 0). apply pow2_le. lia. }
  revert Ht Hnear Hpos H1. generalize (2 ^ 1000) (k # 100).
  intros c x Ht Hnear Hpos H1. split; lra.
Qed.

End Operations.

Section NumPyRound.




End NumPyRound.

Section Mean.


Lemma within_weaken (M M' : Q) (x : float) :
  M <= M' -> within M x -> within M' x.
Proof. intros H [v [-> Hv]]. exists v. split; [reflexivity | lra]. Qed.






End Mean.

Section RoundedMean.


End RoundedMean.

(** ** The scoring calculator *)

Section Scoring.

(** What [g] reads from a row whose cells are numbers. *)
Lemma g_within (M : Q) (row : StatRow) (k : string) :
  0 <= M ->
  (forall x, stats row !! k = Some x -> within M x) ->
  exists c, g row k = Finite c /\ c == category_value row k /\ Qabs c <= M.
Proof.
  intros HM Hcell. unfold g, category_value.
  destruct (stats row !! k) as [x|]; simpl.
  - destruct (Hcell x eq_refl) as [v [-> Hv]]. simpl.
    destruct (Qeq_bool v 0) eqn:E.
    + apply Qeq_bool_iff in E. exists 0.
      split; [reflexivity | split; [now symmetry | exact HM]].
    + exists v. split; [reflexivity | split; [reflexivity | exact Hv]].
  - exists 0. split; [reflexivity | split; [reflexivity | exact HM]].
Qed.

(** One product of a cell and a weight. *)
Lemma mul_near (M W c w : Q) :
  M * W <= 2 ^ 960 -> Qabs c <= M -> Qabs w <= W ->
  exists t,
    mul (Finite c) (Finite w) = Finite t
    /\ Qabs (t - c * w) <= eps * (M * W) + eta
    /\ Qabs t <= 2 * (M * W) + eta.
Proof.
  intros Hmw Hc Hw.
  assert (Hcw : Qabs (c * w) <= M * W).
  { rewrite Qabs_Qmult.
    apply Qmult_le_compat_nonneg; split;
      [apply Qabs_nonneg | exact Hc | apply Qabs_nonneg | exact Hw]. }
  destruct (of_Q_near (c * w) 960 ltac:(lia)) as (E & Herr & _).
  { now apply Qle_trans with (M * W). }
  exists (rnd (c * w)). split; [exact E|].
  assert (He : eps * Qabs (c * w) <= eps * (M * W)).
  { apply Qmult_le_l; [apply eps_pos | exact Hcw]. }
  assert (He' : eps * (M * W) <= M * W).
  { rewrite <- (Qmult_1_l (M * W)) at 2.
    apply Qmult_le_compat_r; [vm_compute; discriminate|].
    apply Qle_trans with (Qabs (c * w)); [apply Qabs_nonneg | exact Hcw]. }
  split; [lra|].
  assert (Et : rnd (c * w) == c * w + (rnd (c * w) - c * w)) by ring.
  rewrite Et. eapply Qle_trans; [apply Qabs_triangle|]. lra.
Qed.

(** The products of the cells and the weights: each is a number, and
    their exact sum is within one rounding per product of the weighted
    sum. *)
Lemma products_near (M W : Q) (row : StatRow) (rule : ScoringRule)
    (cats : list (string * (ScoringRule -> float))) :
  0 <= M -> M * W <= 2 ^ 960 ->
  Forall (fun kw => forall x, stats row !! fst kw = Some x -> within M x)
         cats ->
  Forall (fun kw => within W (snd kw rule)) cats ->
  Forall (within (2 * (M * W) + eta))
         (map (fun kw => mul (g row (fst kw)) (snd kw rule)) cats)
  /\ Qabs (total (map (fun kw => mul (g row (fst kw)) (snd kw rule)) cats)
           - fold_right (fun kw acc =>
               category_value row (fst kw) * value (snd kw rule) + acc)
               0 cats)
     <= len (map (fun kw => mul (g row (fst kw)) (snd kw rule)) cats)
        * (eps * (M * W) + eta).
Proof.
  intros HM Hmw Hcells Hweights.
  induction cats as [|kw cats IH].
  - split; [constructor | vm_compute; discriminate].
  - apply Forall_cons in Hcells as [Hcell Hcells].
    apply Forall_cons in Hweights as [[w [Ew Hw]] Hweights].
    destruct (IH Hcells Hweights) as [IH1 IH2]. clear IH.
    destruct (g_within M row (fst kw) HM Hcell) as (c & Eg & Ec & Hc).
    destruct (mul_near M W c w Hmw Hc Hw) as (t & Et & Herr & Hmag).
    cbn [map fold_right]. rewrite Eg, Ew, Et. cbn [value].
    split.
    + constructor; [|exact IH1]. exists t. split; [reflexivity | exact Hmag].
    + rewrite len_cons.
      change (total (Finite t :: ?l)) with (t + total l).
      rewrite <- Ec.
      set (ts := map (fun kw => mul (g row (fst kw)) (snd kw rule)) cats) in *.
      set (ws := fold_right _ 0 cats) in *.
      assert (E : t + total ts - (c * w + ws)
                  == (t - c * w) + (total ts - ws)) by ring.
      rewrite E. eapply Qle_trans; [apply Qabs_triangle|].
      assert (E' : (1 + len ts) * (eps * (M * W) + eta)
                   == (eps * (M * W) + eta) + len ts * (eps * (M * W) + eta))
        by ring.
      rewrite E'. lra.
Qed.

Lemma fantasy_points_fold (row : StatRow) (rule : ScoringRule) :
  fantasy_points row rule
  = py_round
      (sum_loop (Finite 0)
         (map (fun kw => mul (g row (fst kw)) (snd kw rule)) categories)) 2.
Proof. reflexivity. Qed.

(** The score is a whole number of hundredths, as a binary64 number,
    within half a hundredth and [409 (eps M W + eta)] of the exact
    weighted sum. *)
Lemma fantasy_points_near (M W : Q) (row : StatRow) (rule : ScoringRule) :
  0 <= M -> 0 <= W -> M * W <= 2 ^ 960 ->
  cells_within M row -> weights_within W rule ->
  exists k : Z,
    fantasy_points row rule = Finite (rnd (k # 100))
    /\ Qabs ((k # 100) - weighted_sum row rule)
       <= (1 # 200) + 409 * (eps * (M * W) + eta).
Proof.
  intros HM HW Hmw Hcells Hweights.
  destruct (products_near M W row rule categories HM Hmw Hcells Hweights)
    as [Hts Hsum].
  fold (weighted_sum row rule) in Hsum.
  rewrite fantasy_points_fold.
  set (ts := map (fun kw => mul (g row (fst kw)) (snd kw rule)) categories)
    in *.
  assert (Hlen : len ts == 9) by reflexivity.
  assert (HMW : 0 <= M * W) by now apply Qmult_le_0_compat.
  pose proof eta_pos as Heta.
  set (P := 2 * (M * W) + eta) in *.
  assert (HP0 : 0 <= P) by (unfold P; lra).
  assert (HP : P <= 2 ^ 970).
  { assert (H : 2 * 2 ^ 960 + eta <= 2 ^ 970) by (vm_compute; discriminate).
    unfold P. revert Hmw H. generalize (2 ^ 960) (2 ^ 970). intros; lra. }
  assert (Hzero : within P (Finite 0)).
  { exists 0. split; [reflexivity | exact HP0]. }
  assert (Hleaves : Forall (within P) (Finite 0 :: ts)) by now constructor.
  assert (Hten : len (Finite 0 :: ts) == 10) by reflexivity.
  destruct (sums_to_error P (Finite 0 :: ts)
              (sum_loop (Finite 0) ts) HP0 HP) as [S [-> HS]].
  { apply (sum_loop_sums_to ts [Finite 0]), sums_leaf. }
  { exact Hleaves. }
  { rewrite Hten. vm_compute. discriminate. }
  change (total (Finite 0 :: ts)) with (0 + total ts) in HS.
  rewrite Hten in HS. rewrite Hlen in Hsum.
  assert (HepsP : eps * P <= 2 * (eps * (M * W)) + (1 # 4) * eta).
  { unfold P.
    assert (E : eps * (2 * (M * W) + eta) == 2 * (eps * (M * W)) + eps * eta)
      by ring.
    rewrite E.
    assert (eps * eta <= (1 # 4) * eta).
    { apply Qmult_le_compat_r; [vm_compute; discriminate | lra]. }
    lra. }
  assert (HeMW : 0 <= eps * (M * W)).
  { apply Qmult_le_0_compat; [apply Qlt_le_weak, eps_pos | exact HMW]. }
  assert (HSw : Qabs (S - weighted_sum row rule)
                <= 409 * (eps * (M * W) + eta)).
  { assert (E : S - weighted_sum row rule
                == (S - (0 + total ts)) + (total ts - weighted_sum row rule))
      by ring.
    rewrite E. eapply Qle_trans; [apply Qabs_triangle|].
    revert HS Hsum HepsP HeMW.
    generalize (Qabs (S - (0 + total ts)))
               (Qabs (total ts - weighted_sum row rule))
               (eps * P) (eps * (M * W)).
    intros a b c e HS Hsum HepsP HeMW. lra. }
  assert (Hmag : Qabs S <= 2 ^ 1000).
  { pose proof (total_bound P _ Hleaves) as HT. rewrite Hten in HT.
    change (total (Finite 0 :: ts)) with (0 + total ts) in HT.
    assert (E : S == (0 + total ts) + (S - (0 + total ts))) by ring.
    rewrite E. eapply Qle_trans; [apply Qabs_triangle|].
    assert (Hc : 10 * 2 ^ 970 + 2 * 10 * 10 * (eps * 2 ^ 970 + eta)
                 <= 2 ^ 1000) by (vm_compute; discriminate).
    assert (HeP : eps * P <= eps * 2 ^ 970).
    { apply Qmult_le_l; [apply eps_pos | exact HP]. }
    revert HS HT HeP Hc HP.
    generalize (Qabs (0 + total ts)) (Qabs (S - (0 + total ts)))
               (eps * P) (eps * 2 ^ 970) (2 ^ 970) (2 ^ 1000).
    intros a b c e c1 c2 HS HT HeP Hc HP'. lra. }
  destruct (py_round_2 S Hmag) as (k & Ek & Hk).
  exists k. split; [exact Ek|].
  assert (E : (k # 100) - weighted_sum row rule
              == ((k # 100) - S) + (S - weighted_sum row rule)) by ring.
  rewrite E. eapply Qle_trans; [apply Qabs_triangle|]. lra.
Qed.

End Scoring.

(** ** The pandas operations *)

Section Frames.

Context {A B : Type}.

Lemma find_head_filter (f : B -> bool) (l : list B) :
  List.find f l = head (List.filter f l).
Proof.
  induction l as [|b l IH]; simpl; [reflexivity|].
  destruct (f b); [reflexivity | exact IH].
Qed.

(** A left merge in which no left row has two partners keeps the left rows
    one for one. *)
Lemma merge_left_functional (on : A -> B -> bool) (left : list A)
    (right : list B) :
  (forall a, (length (List.filter (on a) right) <= 1)%nat) ->
  merge_left on left right = map (fun a => (a, List.find (on a) right)) left.
Proof.
  intros Huniq. unfold merge_left.
  induction left as [|a left IH]; [reflexivity|].
  cbn [flat_map]. rewrite IH, map_cons, find_head_filter.
  specialize (Huniq a).
  destruct (List.filter (on a) right) as [|b [|b' rest]]; simpl in *;
    [reflexivity | reflexivity | lia].
Qed.

Lemma filter_unique_key {K : Type} (key : B -> K) (f : B -> bool)
    (l : list B) :
  NoDup (map key l) ->
  (forall b b', f b = true -> f b' = true -> key b = key b') ->
  (length (List.filter f l) <= 1)%nat.
Proof.
  intros Hnd Hkey.
  induction l as [|b l IH]; simpl in *; [lia|].
  apply NoDup_cons in Hnd as [Hnotin Hnd].
  specialize (IH Hnd).
  destruct (f b) eqn:Hb; [|exact IH].
  assert (Hnone : List.filter f l = []).
  { destruct (List.filter f l) as [|b' rest] eqn:Hf; [reflexivity|].
    exfalso. apply Hnotin.
    assert (Hin : In b' (List.filter f l)) by (rewrite Hf; now left).
    apply filter_In in Hin as [Hin Hb'].
    rewrite (Hkey b b' Hb Hb').
    apply list_elem_of_In, in_map, Hin. }
  rewrite Hnone. simpl. lia.
Qed.

Lemma merge_left_length (on : A -> B -> bool) (left : list A)
    (right : list B) :
  (length left <= length (merge_left on left right))%nat.
Proof.
  unfold merge_left.
  induction left as [|a left IH]; [simpl; lia|].
  cbn [flat_map]. rewrite length_app.
  destruct (List.filter (on a) right); simpl in *; lia.
Qed.

(** A mask computed from the rows of the frame selects the rows it marks. *)
Lemma bool_index_map (m : A -> bool) (l : list A) :
  bool_index l (map m l) = Ok (List.filter m l).
Proof.
  unfold bool_index. rewrite length_map.
  replace (length l <? length l)%nat with false
    by (symmetry; apply Nat.ltb_ge; lia).
  f_equal.
  induction l as [|a l IH]; simpl; [reflexivity|].
  destruct (m a); simpl; now rewrite IH.
Qed.

Lemma count_true_map (m : A -> bool) (l : list A) :
  count_true (map m l) = length (List.filter m l).
Proof.
  unfold count_true.
  induction l as [|a l IH]; simpl; [reflexivity|].
  destruct (m a); simpl; now rewrite IH.
Qed.

Lemma put_masked_map (m : A -> bool) (f h : A -> B) (l : list A) :
  put_masked (map m l) (map f l) (map h (List.filter m l))
  = map (fun a => if m a then h a else f a) l.
Proof.
  induction l as [|a l IH]; simpl; [reflexivity|].
  destruct (m a); simpl; now rewrite IH.
Qed.

Lemma loc_assign_map (m : A -> bool) (f h : A -> B) (l : list A) :
  loc_assign (map f l) (map m l) (map h (List.filter m l))
  = Ok (map (fun a => if m a then h a else f a) l).
Proof.
  unfold loc_assign.
  rewrite count_true_map, length_map, Nat.eqb_refl.
  now rewrite put_masked_map.
Qed.

End Frames.


(** ** The snap join of [compute_ppg] *)

Section SnapJoin.

Lemma find_ext_eq {A : Type} (f f' : A -> bool) (l : list A) :
  (forall a, f a = f' a) -> List.find f l = List.find f' l.
Proof.
  intros E. induction l as [|a l IH]; simpl; [reflexivity|].
  now rewrite E, IH.
Qed.

Lemma on_primary_sid (c : Cand) (s : SnapRecord) (sid : string) :
  cand_pfr_id c = Some sid ->
  on_primary c s
  = bool_decide (primary_key s
                 = (season (fst c), week (fst c), team (fst c), sid)).
Proof.
  intros Hsid. unfold on_primary, primary_key. rewrite Hsid.
  rewrite <- !bool_decide_and. apply bool_decide_ext.
  split.
  - intros [[[-> ->] ->] E]. now inversion E.
  - intros E. inversion E. auto.
Qed.

Lemma on_primary_undefined (c : Cand) (s : SnapRecord) :
  cand_pfr_id c = None -> on_primary c s = false.
Proof.
  intros Hsid. unfold on_primary. rewrite Hsid.
  rewrite (bool_decide_eq_false_2 (None = Some _)) by discriminate.
  apply andb_false_r.
Qed.

Lemma on_fallback_key (c : Cand) (s : SnapRecord) :
  on_fallback c s
  = bool_decide (fallback_key s
                 = (season (fst c), week (fst c), team (fst c),
                    player_name (fst c))).
Proof.
  unfold on_fallback, fallback_key.
  rewrite <- !bool_decide_and. apply bool_decide_ext.
  split.
  - intros [[[-> ->] ->] ->]. reflexivity.
  - intros E. inversion E. auto.
Qed.

(** The primary merge finds the record under the primary key; a row whose
    secondary identifier is undefined finds none. *)
Lemma find_on_primary (snaps : list SnapRecord) (c : Cand) :
  List.find (on_primary c) snaps = lookup_primary snaps c.
Proof.
  unfold lookup_primary.
  destruct (cand_pfr_id c) as [sid|] eqn:Hsid; simpl.
  - apply find_ext_eq. intros s. now apply on_primary_sid.
  - induction snaps as [|s snaps IH]; simpl; [reflexivity|].
    now rewrite on_primary_undefined.
Qed.

Lemma find_on_fallback (snaps : list SnapRecord) (c : Cand) :
  List.find (on_fallback c) snaps = lookup_fallback snaps c.
Proof.
  unfold lookup_fallback. apply find_ext_eq. intros s. apply on_fallback_key.
Qed.

Lemma primary_partner_unique (snaps : list SnapRecord) (c : Cand) :
  NoDup (map primary_key snaps) ->
  (length (List.filter (on_primary c) snaps) <= 1)%nat.
Proof.
  intros Hnd. apply (filter_unique_key primary_key); [exact Hnd|].
  intros s s' Hs Hs'.
  destruct (cand_pfr_id c) as [sid|] eqn:Hsid.
  - rewrite (on_primary_sid c s sid Hsid) in Hs.
    rewrite (on_primary_sid c s' sid Hsid) in Hs'.
    apply bool_decide_eq_true_1 in Hs, Hs'. congruence.
  - rewrite on_primary_undefined in Hs by exact Hsid. discriminate.
Qed.

Lemma fallback_partner_unique (snaps : list SnapRecord) (c : Cand) :
  NoDup (map fallback_key snaps) ->
  (length (List.filter (on_fallback c) snaps) <= 1)%nat.
Proof.
  intros Hnd. apply (filter_unique_key fallback_key); [exact Hnd|].
  intros s s' Hs Hs'.
  rewrite on_fallback_key in Hs. rewrite on_fallback_key in Hs'.
  apply bool_decide_eq_true_1 in Hs, Hs'. congruence.
Qed.

Lemma zip_map_fst {A B C : Type} (x : A -> B) (y : A -> C) (l : list A) :
  zip (map fst (map (fun a => (a, x a)) l)) (map y l)
  = map (fun a => (a, y a)) l.
Proof.
  induction l as [|a l IH]; simpl; [reflexivity|]. now rewrite IH.
Qed.

Lemma existsb_id_map_false {A : Type} (m : A -> bool) (l : list A) :
  existsb id (map m l) = false -> forall a, In a l -> m a = false.
Proof.
  induction l as [|a l IH]; simpl; [tauto|].
  intros H b [<-|Hin].
  - unfold id in H. now destruct (m a).
  - apply IH; [|exact Hin]. unfold id in H at 1. now destruct (m a).
Qed.

Lemma offense_pct_column_map {A : Type} (x : A -> option SnapRecord)
    (l : list A) :
  offense_pct_column (map (fun a => (a, x a)) l)
  = map (fun a => offense_pct <$> x a) l.
Proof. unfold offense_pct_column. now rewrite map_map. Qed.

(** What the two merges leave in the [offense_pct] column when the snap
    counts have one record per key and the key columns can be merged. *)
Lemma snap_join_unique_keys (d : dtype) (cand : list Cand)
    (snaps : list SnapRecord) :
  merge_keys_clash d cand snaps = false ->
  NoDup (map primary_key snaps) ->
  NoDup (map fallback_key snaps) ->
  snap_join d cand snaps
  = Ok (map (fun c =>
         (c, match lookup_primary snaps c with
             | Some s => Some (offense_pct s)
             | None => offense_pct <$> lookup_fallback snaps c
             end)) cand).
Proof.
  intros Hd Hp Hf. unfold snap_join. rewrite Hd.
  rewrite (merge_left_functional on_primary)
    by (intros c; now apply primary_partner_unique).
  rewrite !offense_pct_column_map.
  set (f := fun c : Cand => offense_pct <$> List.find (on_primary c) snaps).
  rewrite !(map_map f isna).
  set (m := fun c : Cand => isna (f c)).
  set (h := fun c : Cand => offense_pct <$> List.find (on_fallback c) snaps).
  assert (Hcell : forall c,
    (if m c then h c else f c)
    = match lookup_primary snaps c with
      | Some s => Some (offense_pct s)
      | None => offense_pct <$> lookup_fallback snaps c
      end).
  { intros c. unfold m, h, f.
    rewrite find_on_primary, find_on_fallback.
    now destruct (lookup_primary snaps c). }
  destruct (existsb id (map m cand)) eqn:Hany.
  - rewrite (bool_index_map m cand). cbn [mbind result_bind].
    rewrite (merge_left_functional on_fallback)
      by (intros c; now apply fallback_partner_unique).
    rewrite offense_pct_column_map. fold h.
    rewrite (loc_assign_map m f h cand). cbn [mbind result_bind].
    rewrite zip_map_fst. f_equal. apply map_ext. intros c. now rewrite Hcell.
  - cbn [mbind result_bind]. rewrite zip_map_fst. f_equal.
    apply map_ext_in. intros c Hin. rewrite <- Hcell.
    now rewrite (existsb_id_map_false m cand Hany c Hin).
Qed.

Lemma fillna_snap_pct (d : dtype) (cand : list Cand)
    (snaps : list SnapRecord) :
  merge_keys_clash d cand snaps = false ->
  NoDup (map primary_key snaps) ->
  NoDup (map fallback_key snaps) ->
  exists joined,
    snap_join d cand snaps = Ok joined
    /\ fillna joined = map (fun c => (c, snap_pct snaps c)) cand.
Proof.
  intros Hd Hp Hf. eexists. split; [now apply snap_join_unique_keys|].
  unfold fillna. rewrite map_map. apply map_ext. intros c. cbn [fst snd].
  unfold snap_pct.
  destruct (lookup_primary snaps c); [reflexivity|].
  now destruct (lookup_fallback snaps c).
Qed.

(** C1.  When the snap counts hold one record per primary key and per
    fallback key, and the [pfr_id] column of the candidates can be merged
    with the text column of the snap counts, the snap join raises nothing
    and keeps the candidate rows one for one, in order; after [fillna]
    each row carries the percentage of the record under its primary key
    (season, week, team, secondary identifier) when there is one; a row
    with no such record, a row without a secondary identifier among them,
    carries the percentage of the record under the fallback key (season,
    week, team, name); a row with neither carries 0. *)
Theorem snap_join_first_match (d : dtype) (cand : list Cand)
    (snaps : list SnapRecord) :
  merge_keys_clash d cand snaps = false ->
  NoDup (map primary_key snaps) ->
  NoDup (map fallback_key snaps) ->
  (exists joined,
      snap_join d cand snaps = Ok joined
      /\ fillna joined = map (fun c => (c, snap_pct snaps c)) cand)
  /\ (forall c, cand_pfr_id c = None ->
        List.filter (on_primary c) snaps = []
        /\ snap_pct snaps c
           = match lookup_fallback snaps c with
             | Some s => offense_pct s
             | None => 0
             end).
Proof.
  intros Hd Hp Hf. split.
  - now apply fillna_snap_pct.
  - intros c Hc. split.
    + clear Hd. induction snaps as [|s snaps' IH]; [reflexivity|].
      cbn [List.filter]. rewrite on_primary_undefined by exact Hc.
      apply IH; [now apply NoDup_cons in Hp | now apply NoDup_cons in Hf].
    + unfold snap_pct. rewrite <- find_on_primary.
      replace (List.find (on_primary c) snaps) with (@None SnapRecord);
        [reflexivity|].
      symmetry. rewrite find_on_primary. unfold lookup_primary.
      now rewrite Hc.
Qed.

End SnapJoin.

(** ** The aggregator of [compute_ppg] *)

Section Aggregator.

Implicit Types (rows : list (StatRow * Q)) (rule : ScoringRule).

Lemma aggregate_count rows (t : Q) rule :
  snd (aggregate rows t rule)
  = length (List.filter (fun j => Qle_bool t (snd j)) rows).
Proof.
  unfold aggregate.
  now destruct (List.filter (fun j => Qle_bool t (snd j)) rows).
Qed.






(** C6.  Raising the threshold never raises the count of qualifying
    games. *)
Theorem aggregate_count_antitone rows (t1 t2 : Q) rule :
  t1 <= t2 ->
  (snd (aggregate rows t2 rule) <= snd (aggregate rows t1 rule))%nat.
Proof.
  intros Ht. rewrite !aggregate_count.
  induction rows as [|j rows IH]; [reflexivity|].
  cbn [List.filter].
  destruct (Qle_bool t2 (snd j)) eqn:E2.
  - apply Qle_bool_iff in E2.
    assert (E1 : Qle_bool t1 (snd j) = true).
    { apply Qle_bool_iff. now apply Qle_trans with t2. }
    rewrite E1. cbn [length]. lia.
  - destruct (Qle_bool t1 (snd j)); cbn [length]; lia.
Qed.

(** C7.  With the threshold 0 every row qualifies: whatever percentage a
    row has attached is between 0 and 100, and a row with none gets 0 from
    [fillna]. *)
Theorem aggregate_threshold_0_counts_all
    (joined : list (StatRow * option Q)) rule :
  Forall (fun j => forall p, snd j = Some p -> 0 <= p) joined ->
  snd (aggregate (fillna joined) 0 rule) = length joined.
Proof.
  intros Hpct. rewrite aggregate_count.
  induction Hpct as [|j joined Hj _ IH]; [reflexivity|].
  cbn [fillna map List.filter snd].
  assert (E : Qle_bool 0 (default 0 (snd j)) = true).
  { apply Qle_bool_iff. destruct (snd j) as [p|]; simpl.
    - now apply Hj.
    - apply Qle_refl. }
  rewrite E. cbn [length]. f_equal. exact IH.
Qed.






End Aggregator.

Section ScoringSum.

(** A category that the row lacks reads as one that is there with 0. *)
Lemma g_delete_insert_0 (row : StatRow) (m : gmap string float)
    (k k' : string) :
  g (with_stats row (delete k m)) k'
  = g (with_stats row (<[k:=Finite 0]> m)) k'.
Proof.
  unfold g. cbn [stats with_stats].
  destruct (decide (k = k')) as [->|Hne].
  - now rewrite lookup_delete_eq, lookup_insert_eq.
  - now rewrite lookup_delete_ne, lookup_insert_ne by done.
Qed.

Example scoring_presets_PPR :
  SCORING_PRESETS !! "PPR" = Some (preset (of_Q 1)).
Proof. reflexivity. Qed.

(** C3.  [fantasy_points] adds up, in binary64 and in the order of the
    code, the products of the nine cells and their weights, and rounds
    the sum with Python's [round].  For a row whose cells are numbers of
    magnitude at most [M] and a rule whose weights are numbers of
    magnitude at most [W], the score is a whole number of hundredths (as
    a binary64 number) within half a hundredth and [409 (eps M W + eta)]
    of the exact weighted sum, a category that the row lacks counting as
    0.  A category that the row lacks counts as one that is there with
    0.  The row with 5 receptions, 80 receiving yards and 1 receiving
    touchdown is worth exactly 19.0 under the PPR preset.  Being a
    function, the score depends on nothing but the row and the rule. *)
Theorem fantasy_points_weighted_sum :
  (forall row rule,
      fantasy_points row rule
      = py_round
          (sum_loop (Finite 0)
             (map (fun kw => mul (g row (fst kw)) (snd kw rule)) categories))
          2)
  /\ (forall row rule M W,
        0 <= M -> 0 <= W -> M * W <= 2 ^ 960 ->
        cells_within M row -> weights_within W rule ->
        exists k : Z,
          fantasy_points row rule = Finite (rnd (k # 100))
          /\ Qabs ((k # 100) - weighted_sum row rule)
             <= (1 # 200) + 409 * (eps * (M * W) + eta))
  /\ (forall row m k rule,
        fantasy_points (with_stats row (delete k m)) rule
        = fantasy_points (with_stats row (<[k:=Finite 0]> m)) rule)
  /\ (SCORING_PRESETS !! "PPR" = Some (preset (of_Q 1))
      /\ fantasy_points scenario_A (preset (of_Q 1)) = Finite 19).
Proof.
  split; [|split; [|split]].
  - intros row rule. apply fantasy_points_fold.
  - intros row rule M W. apply fantasy_points_near.
  - intros row m k rule. unfold fantasy_points.
    now rewrite !(g_delete_insert_0 row m k).
  - split; [reflexivity|]. vm_compute. reflexivity.
Qed.

End ScoringSum.

(** ** The name match of [compute_ppg] *)

Section NameMatch.

Lemma re_compile_literal (frag : string) :
  literal_fragment frag = true ->
  re_compile frag = Some (map PChar (list_ascii_of_string frag)).
Proof.
  unfold literal_fragment.
  induction frag as [|a frag IH]; [reflexivity|].
  cbn [list_ascii_of_string forallb re_compile map].
  intros H. apply andb_prop in H as [Ha Hrest].
  apply andb_prop in Ha as [Hdot Hspecial].
  apply negb_true_iff in Hdot, Hspecial.
  rewrite Hdot, Hspecial, (IH Hrest). reflexivity.
Qed.

Lemma match_here_literal (frag s : string) :
  match_here (map PChar (list_ascii_of_string frag)) s = String.prefix frag s.
Proof.
  revert s. induction frag as [|a frag IH]; intros s.
  - now destruct s.
  - destruct s as [|b s]; [reflexivity|].
    cbn [list_ascii_of_string map match_here item_matches String.prefix].
    destruct (ascii_dec a b) as [->|Hne].
    + now rewrite Ascii.eqb_refl, IH.
    + apply Ascii.eqb_neq in Hne. now rewrite Hne.
Qed.

Lemma re_search_literal (frag s : string) :
  re_search (map PChar (list_ascii_of_string frag)) s = substring_of frag s.
Proof.
  induction s as [|b s IH].
  - cbn [re_search substring_of]. now rewrite match_here_literal.
  - cbn [re_search substring_of]. now rewrite match_here_literal, IH.
Qed.

(** On a fragment without [.] and without the other special characters
    the regular-expression search is literal containment. *)
Lemma str_contains_literal (names : list string) (frag : string) :
  literal_fragment frag = true ->
  str_contains names frag = Ok (map (substring_of frag) names).
Proof.
  intros H. unfold str_contains. rewrite (re_compile_literal frag H).
  f_equal. apply map_ext. intros s. apply re_search_literal.
Qed.

(** The rows that [compute_ppg] keeps as candidates. *)
Lemma matching_rows_filter (SEASON : Z) (stats : list StatRow)
    (frag : string) (start_week end_week : Z) (items : list pat_item) :
  re_compile (lower frag) = Some items ->
  matching_rows SEASON stats frag start_week end_week
  = Ok (List.filter (fun r => re_search items (lower (player_name r)))
          (week_range start_week end_week (regular_season SEASON stats))).
Proof.
  intros Hpat. unfold matching_rows, str_contains. rewrite Hpat.
  cbn [mbind result_bind]. rewrite map_map.
  apply (bool_index_map (fun r => re_search items (lower (player_name r)))).
Qed.

Lemma matching_rows_In (SEASON : Z) (stats : list StatRow) (frag : string)
    (start_week end_week : Z) (items : list pat_item) (cand : list StatRow)
    (r : StatRow) :
  re_compile (lower frag) = Some items ->
  matching_rows SEASON stats frag start_week end_week = Ok cand ->
  In r cand <->
  In r stats /\ season r = SEASON /\ season_type r = "REG"
  /\ (start_week <= week r <= end_week)%Z
  /\ re_search items (lower (player_name r)) = true.
Proof.
  intros Hpat Hrun. rewrite (matching_rows_filter _ _ _ _ _ _ Hpat) in Hrun.
  injection Hrun as <-.
  unfold week_range, regular_season. rewrite !filter_In.
  rewrite !andb_true_iff, !bool_decide_eq_true, !Z.leb_le. tauto.
Qed.

(** C4.  [compute_ppg] reads the name fragment as a regular expression:
    with the fragment [D.J] it keeps the row of David Johnson, whose name
    does not contain the text [d.j] in any letter case. *)
Theorem matching_rows_reads_fragment_as_regex :
  matching_rows 2024 [david_johnson] "D.J" 1 18 = Ok [david_johnson]
  /\ substring_of (lower "D.J") (lower (player_name david_johnson)) = false.
Proof. split; vm_compute; reflexivity. Qed.

End NameMatch.

(** ** The whole of [compute_ppg] *)

Section Pipeline.

Variables (SEASON : Z) (stats : list StatRow) (snaps : list SnapRecord)
  (players : list PlayerRecord).

Lemma aggregate_none_qualify (rows : list (StatRow * Q)) (t : Q)
    (rule : ScoringRule) :
  Forall (fun j => snd j < t) rows ->
  aggregate rows t rule = (Finite 0, 0%nat).
Proof.
  intros Hlow. unfold aggregate.
  replace (List.filter (fun j => Qle_bool t (snd j)) rows)
    with (@nil (StatRow * Q)); [reflexivity|].
  symmetry. induction Hlow as [|j rows Hj _ IH]; [reflexivity|].
  cbn [List.filter].
  destruct (Qle_bool t (snd j)) eqn:E; [|exact IH].
  apply Qle_bool_iff in E. exfalso. exact (Qlt_not_le _ _ Hj E).
Qed.

Lemma compute_ppg_no_match (frag : string) (start_week end_week : Z)
    (min_snap_pct : Q) (key : string) :
  is_Some (SCORING_PRESETS !! key) ->
  matching_rows SEASON stats frag start_week end_week = Ok [] ->
  compute_ppg SEASON stats snaps players frag start_week end_week
              min_snap_pct key = Ok (Finite 0, 0%nat).
Proof.
  intros [rule Hkey] Hnone. unfold compute_ppg. now rewrite Hkey, Hnone.
Qed.

Lemma compute_ppg_no_qualifiers (frag : string) (start_week end_week : Z)
    (min_snap_pct : Q) (key : string) (cand : list StatRow)
    (joined : list (Cand * option Q)) :
  is_Some (SCORING_PRESETS !! key) ->
  matching_rows SEASON stats frag start_week end_week = Ok cand ->
  snap_join (text_dtype (map pfr_id players))
            (merge_left on_player_id cand players) snaps = Ok joined ->
  Forall (fun j => snd j < min_snap_pct) (fillna joined) ->
  compute_ppg SEASON stats snaps players frag start_week end_week
              min_snap_pct key = Ok (Finite 0, 0%nat).
Proof.
  intros [rule Hkey] Hcand Hjoin Hlow. unfold compute_ppg.
  rewrite Hkey, Hcand. cbn [mbind result_bind].
  destruct cand as [|r cand']; [reflexivity|].
  rewrite Hjoin. cbn [mbind result_bind]. f_equal.
  apply aggregate_none_qualify.
  apply List.Forall_map. exact Hlow.
Qed.

(** C5.  Let the scoring key be the name of a preset and the name
    fragment a pattern of ordinary characters and [.].  [compute_ppg]
    returns (0.0, 0) and raises nothing when no regular-season row of the
    season within the weeks matches the fragment; and also when rows
    match but, the identity map naming a PFR identifier (or having no
    line) and the snap counts holding one record per primary and per
    fallback key, the percentage found for every candidate row is below
    the threshold. *)
Theorem compute_ppg_empty_outcomes (frag : string) (start_week end_week : Z)
    (min_snap_pct : Q) (key : string) (items : list pat_item) :
  is_Some (SCORING_PRESETS !! key) ->
  re_compile (lower frag) = Some items ->
  let cand :=
    List.filter (fun r => re_search items (lower (player_name r)))
      (week_range start_week end_week (regular_season SEASON stats)) in
  cand = []
  \/ (text_dtype (map pfr_id players) = object
      /\ NoDup (map primary_key snaps)
      /\ NoDup (map fallback_key snaps)
      /\ Forall (fun c => snap_pct snaps c < min_snap_pct)
                (merge_left on_player_id cand players)) ->
  compute_ppg SEASON stats snaps players frag start_week end_week
              min_snap_pct key = Ok (Finite 0, 0%nat).
Proof.
  intros Hkey Hpat cand Hcase.
  pose proof (matching_rows_filter SEASON stats frag start_week end_week
                items Hpat) as Hrows.
  fold cand in Hrows.
  destruct Hcase as [Hnone | (Hd & Hp & Hf & Hlow)].
  - rewrite Hnone in Hrows. now apply compute_ppg_no_match.
  - destruct (fillna_snap_pct object (merge_left on_player_id cand players)
                snaps eq_refl Hp Hf)
      as (joined & Hjoin & Hfill).
    apply (compute_ppg_no_qualifiers _ _ _ _ _ cand joined);
      [exact Hkey | exact Hrows | now rewrite Hd |].
    rewrite Hfill. apply List.Forall_map. exact Hlow.
Qed.

End Pipeline.

(** ** Published weeks and the closing of bets *)

Section Weeks.

Lemma fold_left_max_ge (ws : list Z) (w : Z) :
  (w <= fold_left Z.max ws w)%Z
  /\ Forall (fun v => (v <= fold_left Z.max ws w)%Z) ws.
Proof.
  revert w. induction ws as [|v ws IH]; intros w; cbn [fold_left].
  - split; [lia | constructor].
  - destruct (IH (Z.max w v)) as [Hacc Hall]. split; [lia|].
    constructor; [lia | exact Hall].
Qed.

Lemma fold_left_max_In (ws : list Z) (w : Z) :
  In (fold_left Z.max ws w) (w :: ws).
Proof.
  revert w. induction ws as [|v ws IH]; intros w; cbn [fold_left].
  - now left.
  - destruct (IH (Z.max w v)) as [E|Hin].
    + rewrite <- E. destruct (Z.max_spec w v) as [[_ ->]|[_ ->]].
      * right. now left.
      * now left.
    + right. now right.
Qed.

(** C9.  [get_current_max_week] returns 0 when the body of its [try]
    raised, and when the table has no regular-season row of the season;
    otherwise it returns the week of such a row that no such row
    exceeds.  The result is not negative when the weeks of those rows are
    not. *)
Theorem get_current_max_week_spec (SEASON : Z) (stats : list StatRow) :
  (forall e, get_current_max_week SEASON (inl e) = 0%Z)
  /\ ((forall r, In r stats ->
         ~ (season r = SEASON /\ season_type r = "REG"%string)) ->
      get_current_max_week SEASON (inr stats) = 0%Z)
  /\ ((exists r, In r stats /\ season r = SEASON
                 /\ season_type r = "REG"%string) ->
      (exists r, In r stats /\ season r = SEASON
                 /\ season_type r = "REG"%string
                 /\ week r = get_current_max_week SEASON (inr stats))
      /\ (forall r, In r stats -> season r = SEASON ->
                    season_type r = "REG"%string ->
                    (week r <= get_current_max_week SEASON (inr stats))%Z))
  /\ ((forall r, In r stats -> season r = SEASON ->
                 season_type r = "REG"%string -> (0 <= week r)%Z) ->
      (0 <= get_current_max_week SEASON (inr stats))%Z).
Proof.
  assert (Hin : forall r, In r (regular_season SEASON stats)
                          <-> In r stats /\ season r = SEASON
                              /\ season_type r = "REG"%string).
  { intros r. unfold regular_season.
    rewrite filter_In, andb_true_iff, !bool_decide_eq_true. tauto. }
  unfold get_current_max_week.
  destruct (regular_season SEASON stats) as [|r0 reg] eqn:Hreg; cbn [map].
  - split; [reflexivity|]. split; [reflexivity|]. split; [|lia].
    intros (r & Hr). apply Hin in Hr. destruct Hr.
  - destruct (fold_left_max_ge (map week reg) (week r0)) as [Hfirst Hrest].
    pose proof (fold_left_max_In (map week reg) (week r0)) as Hmax.
    set (m := fold_left Z.max (map week reg) (week r0)) in *.
    assert (Hle : forall r, In r (r0 :: reg) -> (week r <= m)%Z).
    { intros r [<-|Hr]; [exact Hfirst|].
      rewrite List.Forall_forall in Hrest. apply Hrest. now apply in_map. }
    assert (Hex : exists r, In r (r0 :: reg) /\ week r = m).
    { destruct Hmax as [E|Hm].
      - exists r0. split; [now left | exact E].
      - apply in_map_iff in Hm as (r & E & Hr). exists r.
        split; [now right | exact E]. }
    split; [reflexivity|]. split; [|split].
    + intros Hnone. exfalso. apply (Hnone r0); apply Hin; now left.
    + intros _. split.
      * destruct Hex as (r & Hr & E). apply Hin in Hr as (H1 & H2 & H3).
        exists r. auto.
      * intros r H1 H2 H3. apply Hle, Hin. auto.
    + intros Hweeks. destruct Hex as (r & Hr & E).
      apply Hin in Hr as (H1 & H2 & H3). rewrite <- E. now apply Hweeks.
Qed.

End Weeks.

Section Closing.

Import Bets.

Lemma set_is_active_same (b : Bet) : set_is_active (is_active b) b = b.
Proof. now destruct b. Qed.

Lemma completed_iff (SEASON max_week : Z) (b : Bet) :
  completed SEASON max_week b = true <->
  season b = SEASON /\ is_active b = Some 1%Z
  /\ exists e, end_week b = Some e /\ (e <= max_week)%Z.
Proof.
  unfold completed. rewrite !andb_true_iff, !bool_decide_eq_true.
  destruct (end_week b) as [e|].
  - rewrite Z.leb_le. split.
    + intros [[Hs Ha] He]. eauto.
    + intros (Hs & Ha & e' & [= <-] & He). auto.
  - split.
    + intros [_ [=]].
    + intros (_ & _ & e' & [=] & _).
Qed.

(** What the [UPDATE] does to one row. *)
Lemma update_completed_row (SEASON max_week : Z) (b : Bet) :
  let b' := if completed SEASON max_week b
            then set_is_active (Some 0%Z) b else b in
  completed SEASON max_week b' = false
  /\ b' = set_is_active (is_active b') b
  /\ (completed SEASON max_week b = false -> b' = b).
Proof.
  destruct (completed SEASON max_week b) eqn:E; cbn zeta.
  - split; [|split].
    + unfold completed. cbn [set_is_active is_active].
      rewrite (bool_decide_eq_false_2 (Some 0%Z = Some 1%Z)) by discriminate.
      now rewrite andb_false_r.
    + reflexivity.
    + discriminate.
  - split; [exact E|]. split; [|reflexivity].
    symmetry. apply set_is_active_same.
Qed.

(** C10.  When the largest published week is positive,
    [close_completed_bets] leaves no bet of the season with
    [is_active = 1] and an [end_week] up to that week; it keeps the rows
    one for one, changes no column but [is_active], and leaves alone every
    bet of another season and every bet whose [end_week] is not up to that
    week.  When the largest published week is 0 (or the check found none)
    the table is as before. *)
Theorem close_completed_bets_spec (SEASON : Z) (loaded : exn + list StatRow)
    (bets : list Bet) :
  let max_week := get_current_max_week SEASON loaded in
  let bets' := close_completed_bets SEASON loaded bets in
  ((0 < max_week)%Z ->
   Forall (fun b' => ~ (season b' = SEASON /\ is_active b' = Some 1%Z
                        /\ exists e, end_week b' = Some e
                                     /\ (e <= max_week)%Z)) bets'
   /\ Forall2 (fun b b' =>
        b' = set_is_active (is_active b') b
        /\ (season b <> SEASON
            \/ ~ (exists e, end_week b = Some e /\ (e <= max_week)%Z) ->
            b' = b)) bets bets')
  /\ ((max_week <= 0)%Z -> bets' = bets).
Proof.
  intros max_week bets'. subst bets'. unfold close_completed_bets.
  fold max_week. split.
  - intros Hpos.
    replace (max_week <=? 0)%Z with false by (symmetry; apply Z.leb_gt; lia).
    unfold update_completed. split.
    + apply List.Forall_map. apply Forall_forall. intros b _.
      destruct (update_completed_row SEASON max_week b) as (Hdone & _ & _).
      intros H. apply completed_iff in H. congruence.
    + induction bets as [|b bets IH]; cbn [map]; constructor; [|exact IH].
      destruct (update_completed_row SEASON max_week b) as (_ & Hcols & Hsame).
      split; [exact Hcols|].
      intros Hout. apply Hsame.
      destruct (completed SEASON max_week b) eqn:E; [|reflexivity].
      apply completed_iff in E as (Hs & _ & He). tauto.
  - intros Hnone.
    replace (max_week <=? 0)%Z with true by (symmetry; apply Z.leb_le; lia).
    reflexivity.
Qed.

End Closing.

(** ** The participants of a bet *)

Section Participants.

Lemma dedupe_elem_of (ids : list string) (seen : gset string) (x : string) :
  x ∈ dedupe ids seen <-> x ∈ ids /\ x ∉ seen.
Proof.
  revert seen. induction ids as [|i ids IH]; intros seen; cbn [dedupe].
  - split; [intros H; inversion H | intros [H _]; inversion H].
  - destruct (decide (i ∈ seen)) as [Hin|Hout].
    + rewrite IH, elem_of_cons. split; [tauto|].
      intros [[->|H] Hx]; [contradiction | tauto].
    + rewrite !elem_of_cons, IH, elem_of_union, elem_of_singleton.
      split.
      * intros [->|[H Hx]]; [tauto|]. split; [tauto|]. tauto.
      * intros [[->|H] Hx]; [tauto|].
        destruct (decide (x = i)) as [->|Hne]; [tauto|]. right. tauto.
Qed.

Lemma dedupe_NoDup (ids : list string) (seen : gset string) :
  NoDup (dedupe ids seen).
Proof.
  revert seen. induction ids as [|i ids IH]; intros seen; cbn [dedupe].
  - constructor.
  - destruct (decide (i ∈ seen)); [apply IH|].
    constructor; [|apply IH].
    rewrite dedupe_elem_of, elem_of_union, elem_of_singleton. tauto.
Qed.

Lemma dedupe_distinct (ids : list string) (seen : gset string) :
  NoDup ids -> (forall x, x ∈ ids -> x ∉ seen) -> dedupe ids seen = ids.
Proof.
  revert seen. induction ids as [|i ids IH]; intros seen Hnd Hseen;
    cbn [dedupe]; [reflexivity|].
  apply NoDup_cons in Hnd as [Hi Hnd].
  rewrite decide_False by (apply Hseen; left).
  f_equal. apply IH; [exact Hnd|].
  intros x Hx. rewrite elem_of_union, elem_of_singleton.
  intros [H| ->]; [|contradiction].
  apply (Hseen x); [now right | exact H].
Qed.

Lemma dedupe_app_seen (ids : list string) (seen : gset string) (x : string) :
  x ∈ ids \/ x ∈ seen -> dedupe (ids ++ [x]) seen = dedupe ids seen.
Proof.
  revert seen. induction ids as [|i ids IH]; intros seen Hx; cbn [app dedupe].
  - destruct Hx as [Hx|Hx]; [inversion Hx|]. now rewrite decide_True.
  - destruct (decide (i ∈ seen)) as [Hin|Hout].
    + apply IH. destruct Hx as [Hx|Hx]; [|tauto].
      apply elem_of_cons in Hx as [->|Hx]; tauto.
    + f_equal. apply IH. rewrite elem_of_union, elem_of_singleton.
      destruct Hx as [Hx|Hx]; [|tauto].
      apply elem_of_cons in Hx as [->|Hx]; tauto.
Qed.

Lemma dedupe_length (ids : list string) (seen : gset string) :
  (length (dedupe ids seen) <= length ids)%nat.
Proof.
  revert seen. induction ids as [|i ids IH]; intros seen; cbn [dedupe length].
  - lia.
  - destruct (decide (i ∈ seen)); cbn [length].
    + specialize (IH seen). lia.
    + specialize (IH (seen ∪ {[ i ]})). lia.
Qed.

Lemma omap_length_le {A B : Type} (f : A -> option B) (l : list A) :
  (length (omap f l) <= length l)%nat.
Proof.
  induction l as [|a l IH]; cbn [omap list_omap length]; [lia|].
  destruct (f a); cbn [length]; lia.
Qed.

Lemma tagged_ids_elem_of (users : list (option User)) (s : string) :
  s ∈ omap (fun u : option User => (fun u' => str (user_id u')) <$> u) users
  <-> exists u, Some u ∈ users /\ s = str (user_id u).
Proof.
  rewrite list_elem_of_omap. split.
  - intros (o & Ho & Hs). destruct o as [u|]; [|discriminate].
    exists u. split; [exact Ho|]. simpl in Hs. congruence.
  - intros (u & Hu & ->). exists (Some u). split; [exact Hu | reflexivity].
Qed.

(** [_collect_participant_ids] returns each tagged user once: the ids of
    the users that are not [None], without repetition, and never more
    ids than arguments. *)
Theorem collect_participant_ids_once (users : list (option User)) :
  NoDup (_collect_participant_ids users)
  /\ (forall s, s ∈ _collect_participant_ids users
                <-> exists u, Some u ∈ users /\ s = str (user_id u))
  /\ (length (_collect_participant_ids users) <= length users)%nat.
Proof.
  unfold _collect_participant_ids. split; [apply dedupe_NoDup|]. split.
  - intros s. rewrite dedupe_elem_of, tagged_ids_elem_of.
    split; [tauto|]. intros H. split; [exact H|]. apply not_elem_of_empty.
  - etransitivity; [apply dedupe_length|]. apply omap_length_le.
Qed.

(** When the tagged users are different users, their ids come out in the
    order of the arguments. *)
Theorem collect_participant_ids_distinct_users (users : list (option User)) :
  NoDup (omap (fun u : option User => user_id <$> u) users) ->
  _collect_participant_ids users
  = omap (fun u : option User => (fun u' => str (user_id u')) <$> u) users.
Proof.
  intros Hnd. unfold _collect_participant_ids.
  apply dedupe_distinct; [|intros x _; apply not_elem_of_empty].
  induction users as [|[u|] users IH]; cbn [omap fmap option_fmap option_map] in *.
  - constructor.
  - apply NoDup_cons in Hnd as [Hu Hnd]. constructor; [|now apply IH].
    rewrite tagged_ids_elem_of. intros (u' & Hu' & E).
    apply Hu. apply list_elem_of_omap. exists (Some u').
    split; [exact Hu'|]. simpl. f_equal.
    symmetry. unfold str in E. exact (inj pretty _ _ E).
  - now apply IH.
Qed.

(** Tagging a user a second time changes nothing. *)
Theorem collect_participant_ids_tag_again (users : list (option User))
    (u : User) :
  Some u ∈ users ->
  _collect_participant_ids (users ++ [Some u])
  = _collect_participant_ids users.
Proof.
  intros Hu. unfold _collect_participant_ids.
  rewrite omap_app. cbn [omap fmap option_fmap option_map].
  apply dedupe_app_seen. left.
  apply tagged_ids_elem_of. now exists u.
Qed.

End Participants.


(** ** Writing the participants column and reading it back *)

Section ParticipantsColumn.

Lemma split_without_sep (sep : ascii) (s : string) :
  has_char sep s = false -> split sep s = [s].
Proof.
  induction s as [|a s IH]; cbn [has_char split]; [reflexivity|].
  intros H. apply orb_false_iff in H as [Ha Hs].
  now rewrite Ha, (IH Hs).
Qed.

Lemma split_app_sep (sep : ascii) (p rest : string) :
  has_char sep p = false ->
  split sep (p +:+ String sep rest) = p :: split sep rest.
Proof.
  induction p as [|a p IH]; cbn [has_char]; intros H.
  - change (EmptyString +:+ String sep rest) with (String sep rest).
    cbn [split]. now rewrite Ascii.eqb_refl.
  - apply orb_false_iff in H as [Ha Hp].
    change (String a p +:+ String sep rest)
      with (String a (p +:+ String sep rest)).
    cbn [split]. now rewrite Ha, (IH Hp).
Qed.

Lemma split_join (sep : ascii) (parts : list string) :
  Forall (fun p => has_char sep p = false) parts ->
  parts <> [] ->
  split sep (join (String sep EmptyString) parts) = parts.
Proof.
  induction 1 as [|p parts Hp Hparts IH]; [congruence|]. intros _.
  destruct parts as [|q parts].
  - now apply split_without_sep.
  - change (join (String sep EmptyString) (p :: q :: parts))
      with (p +:+ String sep (join (String sep EmptyString) (q :: parts))).
    rewrite split_app_sep by exact Hp.
    f_equal. now apply IH.
Qed.

Lemma filter_nonempty (parts : list string) :
  Forall (fun p => p <> EmptyString) parts ->
  List.filter (fun uid => negb (String.eqb uid EmptyString)) parts = parts.
Proof.
  induction 1 as [|p parts Hp _ IH]; cbn [List.filter]; [reflexivity|].
  apply String.eqb_neq in Hp. now rewrite Hp, IH.
Qed.

(** The column written from a list of ids reads back as that list, when
    no id is empty or contains a comma. *)
Lemma participant_mentions_join (ids : list string) :
  Forall (fun p => has_char ","%char p = false) ids ->
  Forall (fun p => p <> EmptyString) ids ->
  participant_mentions (Some (join "," ids)) = ids.
Proof.
  intros Hsep Hne. unfold participant_mentions.
  change (default EmptyString (Some (join "," ids))) with (join "," ids).
  destruct ids as [|p ids]; [reflexivity|].
  rewrite (split_join ","%char) by (exact Hsep || discriminate).
  now apply filter_nonempty.
Qed.

Lemma pretty_N_char_not_comma (x : N) : Ascii.eqb (pretty_N_char x) "," = false.
Proof. unfold pretty_N_char. now repeat case_match. Qed.

Lemma pretty_N_go_no_comma (x : N) (s : string) :
  has_char "," s = false -> has_char "," (pretty_N_go x s) = false.
Proof.
  revert s. induction (N.lt_wf_0 x) as [x _ IH]; intros s Hs.
  assert (x = 0 \/ 0 < x)%N as [->|Hx] by lia.
  - now rewrite pretty_N_go_0.
  - rewrite pretty_N_go_step by exact Hx. apply IH.
    + now apply N.div_lt.
    + cbn [has_char]. now rewrite pretty_N_char_not_comma.
Qed.

Lemma pretty_N_go_not_empty (x : N) (s : string) :
  (0 < x)%N \/ s <> EmptyString -> pretty_N_go x s <> EmptyString.
Proof.
  revert s. induction (N.lt_wf_0 x) as [x _ IH]; intros s Hs.
  assert (x = 0 \/ 0 < x)%N as [->|Hx] by lia.
  - rewrite pretty_N_go_0. destruct Hs as [Hs|Hs]; [lia | exact Hs].
  - rewrite pretty_N_go_step by exact Hx. apply IH.
    + now apply N.div_lt.
    + right. discriminate.
Qed.

Lemma pretty_N_plain (x : N) :
  has_char "," (pretty x) = false /\ pretty x <> EmptyString.
Proof.
  unfold pretty, pretty_N. destruct (decide (x = 0%N)) as [->|Hx].
  - split; [reflexivity | discriminate].
  - split; [now apply pretty_N_go_no_comma|].
    apply pretty_N_go_not_empty. left. lia.
Qed.

(** [str] of an int is a non-empty text without a comma. *)
Lemma str_plain (n : Z) :
  has_char "," (str n) = false /\ str n <> EmptyString.
Proof.
  unfold str, pretty, pretty_Z. destruct n as [|p|p].
  - split; [reflexivity | discriminate].
  - apply (pretty_N_plain (Npos p)).
  - destruct (pretty_N_plain (Npos p)) as [Hc Hne].
    split; [exact Hc | discriminate].
Qed.

(** The participants that [addbet] and [editbet] write into the column
    are the participants that [standings], [mybets] and [weekly_job] read
    from it. *)
Theorem participants_column_round_trip (users : list (option User)) :
  participant_mentions (Some (join "," (_collect_participant_ids users)))
  = _collect_participant_ids users.
Proof.
  assert (Hids : forall s, s ∈ _collect_participant_ids users ->
                           exists n, s = str n).
  { intros s Hs. unfold _collect_participant_ids in Hs.
    apply dedupe_elem_of in Hs as [Hs _].
    apply tagged_ids_elem_of in Hs as (u & _ & ->). now exists (user_id u). }
  apply participant_mentions_join; apply Forall_forall; intros s Hs;
    destruct (Hids s Hs) as [n ->]; apply str_plain.
Qed.

(** A NULL or empty column reads back as no participant. *)
Example participant_mentions_none :
  participant_mentions None = [] /\ participant_mentions (Some "") = [].
Proof. split; reflexivity. Qed.

End ParticipantsColumn.


(** ** [addbet] and [editbet] *)

Section CommandsOnBets.

Import Bets Commands.

Lemma next_id_fresh (db : Db) :
  (sqlite_sequence db < next_id db)%Z
  /\ Forall (fun b => (id b < next_id db)%Z) (bets db).
Proof.
  unfold next_id. generalize (sqlite_sequence db) as seq.
  induction (bets db) as [|b rows IH]; intros seq; cbn [map fold_right].
  - split; [lia | constructor].
  - destruct (IH seq) as [Hseq Hrows]. split; [lia|].
    constructor; [lia|].
    revert Hrows. apply List.Forall_impl. intros b'. lia.
Qed.

Lemma valid_pct_iff (p : Q) : valid_pct p = true <-> 0 <= p /\ p <= 100.
Proof.
  unfold valid_pct. now rewrite andb_true_iff, !Qle_bool_iff.
Qed.

(** [addbet] refuses a scoring that, in upper case, is not the name of
    a preset, and a threshold outside 0..100; it then leaves the table as
    it is. *)
Theorem addbet_refused (SEASON : Z) (now_iso : string) (db : Db)
    (interaction : Interaction) (a b : string) (tagged : list (option User))
    (scoring_arg : string) (pct : Q) (s e : Z) (d : string) :
  SCORING_PRESETS !! upper scoring_arg = None \/ ~ (0 <= pct /\ pct <= 100) ->
  fst (addbet SEASON now_iso db interaction a b tagged scoring_arg pct s e d)
  = db
  /\ forall i,
       snd (addbet SEASON now_iso db interaction a b tagged scoring_arg
                   pct s e d) <> BetCreated i.
Proof.
  intros Hbad. unfold addbet.
  destruct (bool_decide (is_Some (SCORING_PRESETS !! upper scoring_arg)))
    eqn:Hs; cbn [negb].
  - destruct (valid_pct pct) eqn:Hp; cbn [negb].
    + exfalso. apply bool_decide_eq_true in Hs as [rule Hs].
      apply valid_pct_iff in Hp.
      destruct Hbad as [Hnone|Hout]; [congruence | tauto].
    + split; [reflexivity | discriminate].
  - split; [reflexivity | discriminate].
Qed.

(** An accepted [addbet] appends one row and touches no other: the new
    bet has a key that no row has and that is above the counter, is
    active, is of the current season, has the preset name in upper case
    as scoring, a start week of at least 1 and an end week of at most
    18. *)
Theorem addbet_accepted (SEASON : Z) (now_iso : string) (db : Db)
    (interaction : Interaction) (a b : string) (tagged : list (option User))
    (scoring_arg : string) (pct : Q) (s e : Z) (d : string) :
  is_Some (SCORING_PRESETS !! upper scoring_arg) ->
  0 <= pct /\ pct <= 100 ->
  exists bet,
    addbet SEASON now_iso db interaction a b tagged scoring_arg pct s e d
    = ({| bets := bets db ++ [bet]; sqlite_sequence := id bet |},
       BetCreated (id bet))
    /\ Forall (fun row => (id row < id bet)%Z) (bets db)
    /\ (sqlite_sequence db < id bet)%Z
    /\ is_active bet = Some 1%Z
    /\ season bet = SEASON
    /\ scoring bet = upper scoring_arg
    /\ min_snap_pct bet = pct
    /\ start_week bet = Some (Z.max 1 s)
    /\ end_week bet = Some (Z.min e 18)
    /\ creator_discord_id bet = str (user_id (user interaction))
    /\ bet_valid bet.
Proof.
  intros Hs Hp. unfold addbet.
  rewrite (bool_decide_eq_true_2 _ Hs).
  rewrite (proj2 (valid_pct_iff pct) Hp). cbn [negb].
  destruct (next_id_fresh db) as [Hseq Hrows].
  cbn zeta.
  match goal with
  | |- context [bets db ++ [?bet]] => exists bet
  end.
  split; [reflexivity|]. cbn [id is_active season scoring
    min_snap_pct start_week end_week creator_discord_id].
  unfold bet_valid. cbn [scoring min_snap_pct]. tauto.
Qed.

Lemma fold_apply_update_fixed (us : list Update) (b : Bet) :
  let b' := fold_left apply_update us b in
  id b' = id b /\ creator_discord_id b' = creator_discord_id b
  /\ season b' = season b /\ is_active b' = is_active b
  /\ created_at b' = created_at b.
Proof.
  revert b. induction us as [|u us IH]; intros b; cbn [fold_left].
  - cbn zeta. tauto.
  - specialize (IH (apply_update b u)). cbn zeta in *.
    destruct IH as (-> & -> & -> & -> & ->). now destruct u.
Qed.

(** [editbet] never changes a row with another key, and in the row that
    it edits it never changes the key, the creator, the season, the time
    of creation or whether the bet is active; it adds and removes no row
    and leaves the key counter alone. *)
Theorem editbet_fixed_columns (db : Db) (interaction : Interaction)
    (bet_id : Z) (e : Edit) :
  sqlite_sequence (fst (editbet db interaction bet_id e))
  = sqlite_sequence db
  /\ Forall2 (fun b b' =>
       (id b <> bet_id -> b' = b)
       /\ id b' = id b /\ creator_discord_id b' = creator_discord_id b
       /\ season b' = season b /\ is_active b' = is_active b
       /\ created_at b' = created_at b)
     (bets db) (bets (fst (editbet db interaction bet_id e))).
Proof.
  assert (Hsame : Forall2 (fun b b' =>
       (id b <> bet_id -> b' = b)
       /\ id b' = id b /\ creator_discord_id b' = creator_discord_id b
       /\ season b' = season b /\ is_active b' = is_active b
       /\ created_at b' = created_at b) (bets db) (bets db)).
  { apply Forall2_same_length_lookup_2; [reflexivity|].
    intros i b b' H1 H2. assert (b' = b) as -> by congruence. tauto. }
  unfold editbet.
  destruct (List.find _ (bets db)) as [row|]; [|now split].
  destruct (user_can_edit interaction (creator_discord_id row));
    cbn [negb]; [|now split].
  destruct (edit_updates e) as [r|[|u us]]; [now split | now split |].
  cbn [fst bets sqlite_sequence]. split; [reflexivity|].
  unfold update_where_id. clear Hsame.
  induction (bets db) as [|b rows IH]; cbn [map]; constructor; [|exact IH].
  destruct (bool_decide (id b = bet_id)) eqn:Hid.
  - apply bool_decide_eq_true in Hid. split; [congruence|].
    apply (fold_apply_update_fixed (u :: us) b).
  - tauto.
Qed.

(** Only an answer [BetUpdated] goes with a change of the table, and
    that answer is given only to the creator of the bet or to a member who
    may manage the guild or is an administrator. *)
Theorem editbet_needs_permission (db : Db) (interaction : Interaction)
    (bet_id : Z) (e : Edit) :
  (snd (editbet db interaction bet_id e) <> BetUpdated bet_id ->
   fst (editbet db interaction bet_id e) = db)
  /\ (snd (editbet db interaction bet_id e) = BetUpdated bet_id ->
      exists row,
        In row (bets db) /\ id row = bet_id
        /\ (creator_discord_id row = str (user_id (user interaction))
            \/ manage_guild interaction = true
            \/ administrator interaction = true)).
Proof.
  unfold editbet.
  destruct (List.find _ (bets db)) as [row|] eqn:Hfind;
    [|split; [reflexivity | discriminate]].
  apply find_some in Hfind as [Hin Hid]. apply bool_decide_eq_true in Hid.
  destruct (user_can_edit interaction (creator_discord_id row)) eqn:Hcan;
    cbn [negb]; [|split; [reflexivity | discriminate]].
  destruct (edit_updates e) as [r|[|u us]]; cbn [fst snd].
  - split; [reflexivity|]. intros ->. exists row. split; [exact Hin|].
    split; [exact Hid|]. revert Hcan. unfold user_can_edit.
    destruct (String.eqb_spec (str (user_id (user interaction)))
                              (creator_discord_id row)) as [->|_]; [tauto|].
    rewrite orb_true_iff. tauto.
  - split; [reflexivity | discriminate].
  - split; [congruence|]. intros _. exists row. split; [exact Hin|].
    split; [exact Hid|]. revert Hcan. unfold user_can_edit.
    destruct (String.eqb_spec (str (user_id (user interaction)))
                              (creator_discord_id row)) as [->|_]; [tauto|].
    rewrite orb_true_iff. tauto.
Qed.

End CommandsOnBets.


(** ** What [editbet] writes, and what the commands keep true *)

Section EditedRow.

Import Bets Commands.

Lemma clamp_week_range (w : Z) : (1 <= clamp_week w <= 18)%Z.
Proof. unfold clamp_week. lia. Qed.

Lemma scoring_update_cases (e : Edit) (us : list Update) :
  scoring_update e = inr us ->
  (given (edit_scoring e) = None /\ us = [])
  \/ (exists v, given (edit_scoring e) = Some v
                /\ is_Some (SCORING_PRESETS !! upper v)
                /\ us = [SetScoring (upper v)]).
Proof.
  unfold scoring_update. destruct (given (edit_scoring e)) as [v|].
  - destruct (bool_decide (is_Some (SCORING_PRESETS !! upper v))) eqn:Hv;
      [|discriminate].
    intros [= <-]. right. exists v. apply bool_decide_eq_true in Hv. tauto.
  - intros [= <-]. now left.
Qed.

Lemma min_snap_pct_update_cases (e : Edit) (us : list Update) :
  min_snap_pct_update e = inr us ->
  (edit_min_snap_pct e = None /\ us = [])
  \/ (exists p, edit_min_snap_pct e = Some p /\ (0 <= p /\ p <= 100)
                /\ us = [SetMinSnapPct p]).
Proof.
  unfold min_snap_pct_update. destruct (edit_min_snap_pct e) as [p|].
  - destruct (valid_pct p) eqn:Hp; [|discriminate].
    intros [= <-]. right. exists p. apply valid_pct_iff in Hp. tauto.
  - intros [= <-]. now left.
Qed.

Lemma edit_updates_inr (e : Edit) (us : list Update) :
  edit_updates e = inr us ->
  exists scoring_updates pct_updates,
    scoring_update e = inr scoring_updates
    /\ min_snap_pct_update e = inr pct_updates
    /\ us = when_given (given (edit_player_a e))
                       (fun v => SetPlayerA (strip v))
            ++ when_given (given (edit_player_b e))
                          (fun v => SetPlayerB (strip v))
            ++ scoring_updates
            ++ pct_updates
            ++ when_given (edit_start_week e)
                          (fun w => SetStartWeek (clamp_week w))
            ++ when_given (edit_end_week e)
                          (fun w => SetEndWeek (clamp_week w))
            ++ when_given (edit_description e)
                          (fun d => SetDescription (strip d))
            ++ participants_update e.
Proof.
  unfold edit_updates.
  destruct (scoring_update e) as [r|l1]; [discriminate|].
  destruct (min_snap_pct_update e) as [r|l2]; [discriminate|].
  intros [= <-]. now exists l1, l2.
Qed.

Lemma edit_updates_inl (e : Edit) (r : Response) :
  edit_updates e = inl r -> r = ScoringMustBe \/ r = MinSnapPctMustBe.
Proof.
  unfold edit_updates, scoring_update, min_snap_pct_update.
  repeat case_match; intros [= <-]; simplify_eq; tauto.
Qed.

(** Every update that [editbet] builds carries a checked value. *)
Lemma edit_updates_valid (e : Edit) (us : list Update) :
  edit_updates e = inr us -> Forall update_valid us.
Proof.
  intros H. apply edit_updates_inr in H as (l1 & l2 & H1 & H2 & ->).
  apply scoring_update_cases in H1 as [[_ ->]|(v & _ & Hv & ->)];
    apply min_snap_pct_update_cases in H2 as [[_ ->]|(p & _ & Hp & ->)];
    unfold when_given, participants_update;
    repeat case_match; simpl app;
    repeat apply List.Forall_cons; try apply List.Forall_nil;
    cbn [update_valid]; try exact I; try assumption;
    apply clamp_week_range.
Qed.

Lemma apply_update_valid (b : Bet) (u : Update) :
  bet_valid b -> update_valid u -> bet_valid (apply_update b u).
Proof.
  unfold bet_valid. destruct u; cbn [apply_update update_valid scoring
    min_snap_pct]; tauto.
Qed.

Lemma fold_apply_update_valid (us : list Update) (b : Bet) :
  bet_valid b -> Forall update_valid us ->
  bet_valid (fold_left apply_update us b).
Proof.
  intros Hb Hus. revert b Hb.
  induction Hus as [|u us Hu _ IH]; intros b Hb; cbn [fold_left];
    [exact Hb|].
  apply IH. now apply apply_update_valid.
Qed.

(** The first four [append]s of [editbet]: names, scoring, threshold. *)
Lemma edit_updates_row_head (pa pb sc : option string) (pct : option Q)
    (b : Bet) :
  let b' := fold_left apply_update
              (when_given pa (fun v => SetPlayerA (strip v))
               ++ when_given pb (fun v => SetPlayerB (strip v))
               ++ when_given sc (fun v => SetScoring (upper v))
               ++ when_given pct SetMinSnapPct) b in
  player_a b' = from_option strip (player_a b) pa
  /\ player_b b' = from_option strip (player_b b) pb
  /\ scoring b' = from_option upper (scoring b) sc
  /\ min_snap_pct b' = default (min_snap_pct b) pct
  /\ start_week b' = start_week b
  /\ end_week b' = end_week b
  /\ description b' = description b
  /\ participants b' = participants b.
Proof.
  destruct pa, pb, sc, pct; cbn; repeat apply conj; reflexivity.
Qed.

(** The last four: weeks, description, participants. *)
Lemma edit_updates_row_tail (sw ew : option Z) (d : option string)
    (ps : list Update) (b : Bet) :
  ps = [] \/ (exists v, ps = [SetParticipants v]) ->
  let b' := fold_left apply_update
              (when_given sw (fun w => SetStartWeek (clamp_week w))
               ++ when_given ew (fun w => SetEndWeek (clamp_week w))
               ++ when_given d (fun v => SetDescription (strip v))
               ++ ps) b in
  player_a b' = player_a b
  /\ player_b b' = player_b b
  /\ scoring b' = scoring b
  /\ min_snap_pct b' = min_snap_pct b
  /\ start_week b'
     = from_option (fun w => Some (clamp_week w)) (start_week b) sw
  /\ end_week b' = from_option (fun w => Some (clamp_week w)) (end_week b) ew
  /\ description b' = from_option (fun v => Some (strip v)) (description b) d
  /\ participants b'
     = match ps with
       | SetParticipants v :: _ => Some v
       | _ => participants b
       end.
Proof.
  intros [->|[v ->]]; destruct sw, ew, d; cbn; repeat apply conj;
    reflexivity.
Qed.

Lemma scoring_update_when_given (e : Edit) (us : list Update) :
  scoring_update e = inr us ->
  us = when_given (given (edit_scoring e)) (fun v => SetScoring (upper v)).
Proof.
  intros H. now apply scoring_update_cases in H as [[-> ->]|(v & -> & _ & ->)].
Qed.

Lemma min_snap_pct_update_when_given (e : Edit) (us : list Update) :
  min_snap_pct_update e = inr us ->
  us = when_given (edit_min_snap_pct e) SetMinSnapPct.
Proof.
  intros H.
  now apply min_snap_pct_update_cases in H as [[-> ->]|(v & -> & _ & ->)].
Qed.

(** The row that the [UPDATE] of [editbet] leaves: every argument that
    was given is in its column (names and description stripped, the
    scoring in upper case, the weeks brought into 1..18), and every other
    column is as before. *)
Lemma edit_updates_row (e : Edit) (us : list Update) (b : Bet) :
  edit_updates e = inr us ->
  let b' := fold_left apply_update us b in
  player_a b' = from_option strip (player_a b) (given (edit_player_a e))
  /\ player_b b' = from_option strip (player_b b) (given (edit_player_b e))
  /\ scoring b' = from_option upper (scoring b) (given (edit_scoring e))
  /\ min_snap_pct b' = default (min_snap_pct b) (edit_min_snap_pct e)
  /\ start_week b'
     = from_option (fun w => Some (clamp_week w)) (start_week b)
                   (edit_start_week e)
  /\ end_week b'
     = from_option (fun w => Some (clamp_week w)) (end_week b)
                   (edit_end_week e)
  /\ description b'
     = from_option (fun d => Some (strip d)) (description b)
                   (edit_description e)
  /\ participants b'
     = if default false (clear_participants e) then Some EmptyString
       else if existsb (fun p => negb (isna p)) (edit_tagged e)
            then Some (join "," (_collect_participant_ids (edit_tagged e)))
            else participants b.
Proof.
  intros H. apply edit_updates_inr in H as (l1 & l2 & H1 & H2 & ->).
  apply scoring_update_when_given in H1 as ->.
  apply min_snap_pct_update_when_given in H2 as ->.
  match goal with
  | |- context [fold_left apply_update (?p1 ++ ?p2 ++ ?p3 ++ ?p4 ++ ?tl) b] =>
      replace (p1 ++ p2 ++ p3 ++ p4 ++ tl) with ((p1 ++ p2 ++ p3 ++ p4) ++ tl)
        by (rewrite <- !List.app_assoc; reflexivity)
  end.
  rewrite fold_left_app.
  set (mid := fold_left apply_update _ b).
  assert (Hps : participants_update e = []
                \/ exists v, participants_update e = [SetParticipants v]).
  { unfold participants_update.
    destruct (default false (clear_participants e)
              || existsb (fun p => negb (isna p)) (edit_tagged e));
      [right; eexists; reflexivity | now left]. }
  destruct (edit_updates_row_tail (edit_start_week e) (edit_end_week e)
              (edit_description e) (participants_update e) mid Hps)
    as (Ea & Eb & Es & Ep & Esw & Eew & Ed & Eps).
  destruct (edit_updates_row_head (given (edit_player_a e))
              (given (edit_player_b e)) (given (edit_scoring e))
              (edit_min_snap_pct e) b)
    as (Ea' & Eb' & Es' & Ep' & Esw' & Eew' & Ed' & Eps').
  fold mid in Ea', Eb', Es', Ep', Esw', Eew', Ed', Eps'.
  cbn zeta. rewrite Ea, Eb, Es, Ep, Esw, Eew, Ed, Eps.
  rewrite Ea', Eb', Es', Ep', Esw', Eew', Ed', Eps'.
  repeat apply conj; try reflexivity.
  unfold participants_update.
  destruct (default false (clear_participants e));
    destruct (existsb (fun p => negb (isna p)) (edit_tagged e)); reflexivity.
Qed.

(** After an [editbet] that answers [BetUpdated], the row with the key
    has every given argument in its column: names and description
    stripped (an empty name counts as not given), the scoring in upper
    case, the weeks brought into 1..18, the participants cleared or
    replaced; every column for which nothing was given is as before. *)
Theorem editbet_writes_given_columns (db : Db) (interaction : Interaction)
    (bet_id : Z) (e : Edit) :
  snd (editbet db interaction bet_id e) = BetUpdated bet_id ->
  Forall2 (fun b b' =>
      id b = bet_id ->
      player_a b' = from_option strip (player_a b) (given (edit_player_a e))
      /\ player_b b'
         = from_option strip (player_b b) (given (edit_player_b e))
      /\ scoring b' = from_option upper (scoring b) (given (edit_scoring e))
      /\ min_snap_pct b' = default (min_snap_pct b) (edit_min_snap_pct e)
      /\ start_week b'
         = from_option (fun w => Some (clamp_week w)) (start_week b)
                       (edit_start_week e)
      /\ end_week b'
         = from_option (fun w => Some (clamp_week w)) (end_week b)
                       (edit_end_week e)
      /\ description b'
         = from_option (fun d => Some (strip d)) (description b)
                       (edit_description e)
      /\ participants b'
         = if default false (clear_participants e) then Some EmptyString
           else if existsb (fun p => negb (isna p)) (edit_tagged e)
                then Some (join ","
                             (_collect_participant_ids (edit_tagged e)))
                else participants b)
    (bets db) (bets (fst (editbet db interaction bet_id e))).
Proof.
  unfold editbet.
  destruct (List.find _ (bets db)) as [row|]; [|discriminate].
  destruct (user_can_edit interaction (creator_discord_id row));
    cbn [negb]; [|discriminate].
  destruct (edit_updates e) as [r|[|u us]] eqn:Hus; cbn [fst snd bets].
  - intros ->. apply edit_updates_inl in Hus as [Hus|Hus]; discriminate.
  - discriminate.
  - intros _. unfold update_where_id.
    induction (bets db) as [|b rows IH]; cbn [map]; constructor; [|exact IH].
    intros Hid. rewrite (bool_decide_eq_true_2 _ Hid).
    exact (edit_updates_row e (u :: us) b Hus).
Qed.

(** The three writers of the table keep every bet fit for
    [compute_ppg]: if each stored scoring is the name of a preset and each
    stored threshold is within 0..100, this is so after [addbet], after
    [editbet] and after [close_completed_bets], whatever their
    arguments. *)
Theorem writers_keep_bets_valid (SEASON : Z) (db : Db) :
  Forall bet_valid (bets db) ->
  (forall now_iso interaction a b tagged scoring_arg pct s e d,
      Forall bet_valid
        (bets (fst (addbet SEASON now_iso db interaction a b tagged
                           scoring_arg pct s e d))))
  /\ (forall interaction bet_id e,
        Forall bet_valid (bets (fst (editbet db interaction bet_id e))))
  /\ (forall loaded,
        Forall bet_valid (close_completed_bets SEASON loaded (bets db))).
Proof.
  intros Hdb. split; [|split].
  - intros now_iso interaction a b tagged scoring_arg pct s e d.
    unfold addbet.
    destruct (bool_decide (is_Some (SCORING_PRESETS !! upper scoring_arg)))
      eqn:Hs; cbn [negb]; [|exact Hdb].
    destruct (valid_pct pct) eqn:Hp; cbn [negb]; [|exact Hdb].
    cbn [fst bets]. apply Forall_app. split; [exact Hdb|].
    apply List.Forall_cons; [|apply List.Forall_nil].
    apply bool_decide_eq_true in Hs. apply valid_pct_iff in Hp.
    unfold bet_valid. cbn [scoring min_snap_pct]. tauto.
  - intros interaction bet_id e. unfold editbet.
    destruct (List.find _ (bets db)) as [row|]; [|exact Hdb].
    destruct (user_can_edit interaction (creator_discord_id row));
      cbn [negb]; [|exact Hdb].
    destruct (edit_updates e) as [r|[|u us]] eqn:Hus;
      [exact Hdb | exact Hdb |].
    cbn [fst bets]. unfold update_where_id. apply List.Forall_map.
    revert Hdb. apply List.Forall_impl. intros b Hb.
    destruct (bool_decide (id b = bet_id)); [|exact Hb].
    apply fold_apply_update_valid; [exact Hb|].
    exact (edit_updates_valid e _ Hus).
  - intros loaded. unfold close_completed_bets.
    destruct (get_current_max_week SEASON loaded <=? 0)%Z; [exact Hdb|].
    unfold update_completed. apply List.Forall_map.
    revert Hdb. apply List.Forall_impl. intros b Hb.
    destruct (completed SEASON _ b); exact Hb.
Qed.

End EditedRow.


(** ** Closing bets, and the bets that [standings] lists *)

Section ClosingAgain.

Import Bets Commands.

Lemma update_completed_idempotent (SEASON max_week : Z) (rows : list Bet) :
  update_completed SEASON max_week (update_completed SEASON max_week rows)
  = update_completed SEASON max_week rows.
Proof.
  unfold update_completed. rewrite map_map. apply map_ext. intros b.
  destruct (update_completed_row SEASON max_week b) as (Hdone & _ & _).
  cbn zeta in Hdone. now rewrite Hdone.
Qed.

(** Closing twice on the same published statistics is closing once. *)
Theorem close_completed_bets_idempotent (SEASON : Z)
    (loaded : exn + list StatRow) (rows : list Bet) :
  close_completed_bets SEASON loaded
    (close_completed_bets SEASON loaded rows)
  = close_completed_bets SEASON loaded rows.
Proof.
  unfold close_completed_bets.
  destruct (get_current_max_week SEASON loaded <=? 0)%Z; [reflexivity|].
  apply update_completed_idempotent.
Qed.

(** [close_completed_bets] never opens a bet: a bet that is active
    afterwards was in the table before, as it is. *)
Theorem close_completed_bets_never_opens (SEASON : Z)
    (loaded : exn + list StatRow) (rows : list Bet) (b' : Bet) :
  In b' (close_completed_bets SEASON loaded rows) ->
  is_active b' <> Some 0%Z ->
  In b' rows.
Proof.
  unfold close_completed_bets.
  destruct (get_current_max_week SEASON loaded <=? 0)%Z; [tauto|].
  unfold update_completed. intros Hin Hactive.
  apply in_map_iff in Hin as (b & <- & Hin).
  destruct (completed SEASON _ b); [|exact Hin].
  now contradiction Hactive.
Qed.

Lemma active_bets_In (SEASON : Z) (rows : list Bet) (b : Bet) :
  In b (active_bets SEASON rows)
  <-> In b rows /\ is_active b = Some 1%Z /\ season b = SEASON.
Proof.
  unfold active_bets.
  now rewrite filter_In, andb_true_iff, !bool_decide_eq_true.
Qed.

Lemma close_completed_bets_left_open (SEASON : Z)
    (loaded : exn + list StatRow) (rows : list Bet) (b : Bet) (e : Z) :
  (0 < get_current_max_week SEASON loaded)%Z ->
  In b (active_bets SEASON (close_completed_bets SEASON loaded rows)) ->
  end_week b = Some e ->
  (get_current_max_week SEASON loaded < e)%Z.
Proof.
  intros Hpos Hin He. apply active_bets_In in Hin as (Hin & Hact & Hs).
  unfold close_completed_bets in Hin.
  replace (get_current_max_week SEASON loaded <=? 0)%Z with false in Hin
    by (symmetry; apply Z.leb_gt; lia).
  unfold update_completed in Hin.
  apply in_map_iff in Hin as (b0 & Hb & _).
  destruct (update_completed_row SEASON
              (get_current_max_week SEASON loaded) b0) as (Hdone & _ & _).
  cbn zeta in Hdone. rewrite Hb in Hdone.
  destruct (Z.lt_ge_cases (get_current_max_week SEASON loaded) e)
    as [Hlt|Hge]; [exact Hlt|].
  assert (Hc : completed SEASON (get_current_max_week SEASON loaded) b = true).
  { apply completed_iff. eauto. }
  congruence.
Qed.

(** The bets that [standings] lists are active bets of the season.  When
    a week is published and both loads of the statistics agree on it,
    every listed bet ends after that week, so that its points are taken
    up to exactly the last published week; when no week is published the
    points are taken up to the end week of the bet. *)
Theorem standings_windows_spec (SEASON : Z)
    (loaded loaded_again : exn + list StatRow) (db : Db) :
  get_current_max_week SEASON loaded_again
  = get_current_max_week SEASON loaded ->
  Forall (fun bw =>
      is_active (fst bw) = Some 1%Z /\ season (fst bw) = SEASON
      /\ ((0 < get_current_max_week SEASON loaded)%Z ->
          (forall e, end_week (fst bw) = Some e ->
             (get_current_max_week SEASON loaded < e)%Z)
          /\ snd bw
             = (fun _ => get_current_max_week SEASON loaded)
               <$> end_week (fst bw))
      /\ ((get_current_max_week SEASON loaded <= 0)%Z ->
          snd bw = end_week (fst bw)))
    (standings_windows SEASON loaded loaded_again db).
Proof.
  intros Hsame. unfold standings_windows. rewrite Hsame.
  apply List.Forall_map, List.Forall_forall. intros b Hin. cbn [fst snd].
  pose proof (proj1 (active_bets_In _ _ _) Hin) as (_ & Hact & Hs).
  split; [exact Hact|]. split; [exact Hs|]. split.
  - intros Hpos. split.
    + intros e He.
      exact (close_completed_bets_left_open _ _ _ _ _ Hpos Hin He).
    + destruct (end_week b) as [e|] eqn:He; [|reflexivity].
      pose proof (close_completed_bets_left_open _ _ _ _ _ Hpos Hin He).
      cbn. f_equal. unfold clamp_to_published.
      replace (0 <? get_current_max_week SEASON loaded)%Z with true
        by (symmetry; apply Z.ltb_lt; lia).
      lia.
  - intros Hnone. destruct (end_week b) as [e|]; [|reflexivity].
    cbn. f_equal. unfold clamp_to_published.
    replace (0 <? get_current_max_week SEASON loaded)%Z with false
      by (symmetry; apply Z.ltb_ge; lia).
    lia.
Qed.

End ClosingAgain.

(** ** The next weekly post *)

Section WeeklyPost.

Lemma datetime_le_iff (a b : datetime) :
  datetime_le a b = true
  <-> (days a < days b \/ (days a = days b /\ micros a <= micros b))%Z.
Proof.
  unfold datetime_le.
  rewrite orb_true_iff, andb_true_iff, Z.ltb_lt, Z.eqb_eq, Z.leb_le.
  tauto.
Qed.

Lemma datetime_le_false_iff (a b : datetime) :
  datetime_le a b = false
  <-> (days b < days a \/ (days a = days b /\ micros b < micros a))%Z.
Proof.
  rewrite <- not_true_iff_false, datetime_le_iff. lia.
Qed.

(** [next_run_datetime] keeps the UTC offset that [now] came with, and
    on the clock of that offset it returns the first Tuesday noon that is
    strictly after [now]: it is a Tuesday at 12:00:00, it is later than
    now and at most seven days ahead, and no Tuesday noon of that clock
    lies between now and it. *)
Theorem next_run_datetime_first_tuesday_noon (now_local : datetime) :
  let t := next_run_datetime now_local in
  utcoffset t = utcoffset now_local
  /\ weekday t = 1%Z
  /\ micros t = (12 * 3600 * 1000000)%Z
  /\ datetime_le t now_local = false
  /\ (days now_local <= days t <= days now_local + 7)%Z
  /\ (forall t', utcoffset t' = utcoffset now_local ->
        weekday t' = 1%Z -> micros t' = (12 * 3600 * 1000000)%Z ->
        datetime_le t' now_local = false -> datetime_le t t' = true).
Proof.
  cbn zeta. split.
  { unfold next_run_datetime.
    destruct (datetime_le _ now_local); reflexivity. }
  unfold next_run_datetime.
  set (candidate := replace_time _ _ _).
  assert (Hday : (days candidate
                  = days now_local + (1 - days now_local mod 7) mod 7)%Z)
    by reflexivity.
  assert (Htime : micros candidate = (12 * 3600 * 1000000)%Z) by reflexivity.
  clearbody candidate.
  assert (Hahead : (0 <= (1 - days now_local mod 7) mod 7 < 7)%Z)
    by (apply Z.mod_pos_bound; lia).
  assert (Hwd : (days candidate mod 7 = 1)%Z).
  { rewrite Hday. rewrite Zplus_mod_idemp_r.
    replace (days now_local + (1 - days now_local mod 7))%Z
      with (1 + (days now_local - days now_local mod 7))%Z by lia.
    rewrite (Z.div_mod (days now_local) 7) at 1 by lia.
    replace (1 + (7 * (days now_local / 7) + days now_local mod 7
                  - days now_local mod 7))%Z
      with (1 + (days now_local / 7) * 7)%Z by lia.
    now rewrite Z_mod_plus_full. }
  destruct (datetime_le candidate now_local) eqn:Hle.
  - apply datetime_le_iff in Hle.
    unfold weekday. cbn [add_days days micros].
    split.
    { replace (days candidate + 7)%Z with (days candidate + 1 * 7)%Z by lia.
      now rewrite Z_mod_plus_full. }
    split; [exact Htime|].
    split; [apply datetime_le_false_iff; cbn [add_days days micros]; lia|].
    split; [lia|].
    intros t' _ Hwd' Ht' Hafter. unfold weekday in Hwd'.
    apply datetime_le_false_iff in Hafter.
    apply datetime_le_iff. cbn [add_days days micros].
    assert (days candidate < days t')%Z by lia.
    assert (Hdiv : ((days t' - days candidate) mod 7 = 0)%Z).
    { rewrite Zminus_mod, Hwd, Hwd'. reflexivity. }
    apply Z.mod_divide in Hdiv as [k Hk]; [|lia].
    assert (1 <= k)%Z by lia.
    assert (days t' = days candidate + k * 7)%Z by lia.
    lia.
  - split; [exact Hwd|]. split; [exact Htime|]. split; [exact Hle|].
    apply datetime_le_false_iff in Hle.
    split; [lia|].
    intros t' _ Hwd' Ht' Hafter. unfold weekday in Hwd'.
    apply datetime_le_false_iff in Hafter.
    apply datetime_le_iff.
    destruct (Z.lt_trichotomy (days candidate) (days t')) as [Hlt|[Heq|Hgt]];
      [lia | lia |].
    exfalso.
    assert (Hdiv : ((days candidate - days t') mod 7 = 0)%Z).
    { rewrite Zminus_mod, Hwd, Hwd'. reflexivity. }
    apply Z.mod_divide in Hdiv as [k Hk]; [|lia].
    assert (1 <= k)%Z by lia.
    lia.
Qed.

(** Across the end of daylight-saving time the post is an hour early
    on the clocks of Toronto: asked on Saturday 2 November 2024 (UTC-4),
    the next run is Tuesday 5 November at 12:00 of UTC-4, that is 16:00
    UTC, when Toronto, then on UTC-5, shows 11:00. *)
Example next_run_datetime_across_fall_back :
  next_run_datetime before_fall_back
  = {| days := 739194; micros := 12 * 3600 * 1000000; utcoffset := -14400 |}
  /\ (utc_micros (next_run_datetime before_fall_back) mod 86400000000
      = 16 * 3600 * 1000000)%Z.
Proof. split; vm_compute; reflexivity. Qed.

End WeeklyPost.

(** ** More on [compute_ppg] *)

Section ComputePpgEdges.

Variables (SEASON : Z) (snaps : list SnapRecord)
  (players : list PlayerRecord).

Lemma matching_rows_outcome (stats : list StatRow) (frag : string)
    (start_week end_week : Z) :
  matching_rows SEASON stats frag start_week end_week = OutsideModel
  \/ exists items,
       re_compile (lower frag) = Some items
       /\ matching_rows SEASON stats frag start_week end_week
          = Ok (List.filter
                  (fun r => re_search items (lower (player_name r)))
                  (week_range start_week end_week
                              (regular_season SEASON stats))).
Proof.
  destruct (re_compile (lower frag)) as [items|] eqn:Hpat.
  - right. exists items. split; [reflexivity|].
    now apply matching_rows_filter.
  - left. unfold matching_rows, str_contains. now rewrite Hpat.
Qed.

Lemma put_masked_length {A : Type} (mask : list bool) (col vals : list A) :
  length (put_masked mask col vals) = length col.
Proof.
  revert col vals. induction mask as [|m mask IH]; intros col vals.
  - now destruct col.
  - destruct col as [|x col]; [now destruct m|].
    destruct m; cbn [put_masked].
    + destruct vals; cbn [length]; now rewrite IH.
    + cbn [length]. now rewrite IH.
Qed.

Lemma snap_join_outcome (d : dtype) (cand : list Cand) :
  (exists joined,
      snap_join d cand snaps = Ok joined
      /\ map fst joined = map fst (merge_left on_primary cand snaps))
  \/ snap_join d cand snaps = Raise ValueError
  \/ snap_join d cand snaps = Raise IndexingError.
Proof.
  unfold snap_join.
  destruct (merge_keys_clash d cand snaps); [right; left; reflexivity|].
  set (merged := merge_left on_primary cand snaps).
  set (col := offense_pct_column merged).
  assert (Hlen : length (map fst merged) = length col)
    by (unfold col, offense_pct_column; now rewrite !length_map).
  destruct (existsb id (map isna col)).
  - unfold bool_index.
    destruct (length (map isna col) <? length cand)%nat;
      [right; right; reflexivity|].
    cbn [mbind result_bind]. unfold loc_assign.
    destruct (count_true (map isna col) =? _)%nat;
      [|right; left; reflexivity].
    cbn [mbind result_bind]. left. eexists. split; [reflexivity|].
    apply fst_zip. rewrite put_masked_length. lia.
  - cbn [mbind result_bind]. left. eexists. split; [reflexivity|].
    apply fst_zip. lia.
Qed.

(** A scoring key that is not one of the names PPR, HALF, STD as they
    are spelt in [SCORING_PRESETS] makes [compute_ppg] raise [KeyError],
    whatever the tables and the other arguments. *)
Theorem compute_ppg_unknown_key_KeyError (stats : list StatRow)
    (frag : string) (start_week end_week : Z) (min_snap_pct : Q)
    (key : string) :
  key <> "PPR"%string -> key <> "HALF"%string -> key <> "STD"%string ->
  compute_ppg SEASON stats snaps players frag start_week end_week
              min_snap_pct key = Raise KeyError.
Proof.
  intros Hppr Hhalf Hstd.
  assert (Hkey : SCORING_PRESETS !! key = None).
  { unfold SCORING_PRESETS.
    rewrite !lookup_insert_None, lookup_singleton_None.
    intuition congruence. }
  unfold compute_ppg. now rewrite Hkey.
Qed.

Lemma filter_all {A : Type} (f : A -> bool) (l : list A) :
  Forall (fun a => f a = true) l -> List.filter f l = l.
Proof.
  induction 1 as [|a l Ha _ IH]; cbn [List.filter]; [reflexivity|].
  now rewrite Ha, IH.
Qed.

Lemma filter_none {A : Type} (f : A -> bool) (l : list A) :
  Forall (fun a => f a = false) l -> List.filter f l = [].
Proof.
  induction 1 as [|a l Ha _ IH]; cbn [List.filter]; [reflexivity|].
  now rewrite Ha, IH.
Qed.

(** A bet whose weeks are in the wrong order scores nothing: with
    [end_week < start_week] no row is in range and the result is
    (0, 0). *)
Theorem compute_ppg_empty_week_range (stats : list StatRow) (frag : string)
    (start_week end_week : Z) (min_snap_pct : Q) (key : string) :
  is_Some (SCORING_PRESETS !! key) ->
  is_Some (re_compile (lower frag)) ->
  (end_week < start_week)%Z ->
  compute_ppg SEASON stats snaps players frag start_week end_week
              min_snap_pct key = Ok (Finite 0, 0%nat).
Proof.
  intros [rule Hkey] [items Hpat] Hweeks. unfold compute_ppg.
  rewrite Hkey, (matching_rows_filter _ _ _ _ _ _ Hpat).
  replace (week_range start_week end_week (regular_season SEASON stats))
    with (@nil StatRow); [reflexivity|].
  symmetry. apply filter_none, List.Forall_forall. intros r _.
  apply andb_false_iff. rewrite !Z.leb_gt. lia.
Qed.

(** Rows of another season, of the post-season or of a week outside the
    range never count: adding such rows to the statistics does not change
    the result of [compute_ppg]. *)
Theorem compute_ppg_ignores_rows_out_of_scope (stats others : list StatRow)
    (frag : string) (start_week end_week : Z) (min_snap_pct : Q)
    (key : string) :
  Forall (fun r => season r <> SEASON
                   \/ season_type r <> "REG"%string
                   \/ (week r < start_week)%Z
                   \/ (end_week < week r)%Z) others ->
  compute_ppg SEASON (stats ++ others) snaps players frag start_week
              end_week min_snap_pct key
  = compute_ppg SEASON stats snaps players frag start_week end_week
                min_snap_pct key
  /\ compute_ppg SEASON (others ++ stats) snaps players frag start_week
                 end_week min_snap_pct key
     = compute_ppg SEASON stats snaps players frag start_week end_week
                   min_snap_pct key.
Proof.
  intros Hout.
  assert (Hnone : week_range start_week end_week
                    (regular_season SEASON others) = []).
  { unfold week_range, regular_season.
    induction Hout as [|r others Hr _ IH]; [reflexivity|].
    cbn [List.filter].
    destruct (bool_decide (season r = SEASON)
              && bool_decide (season_type r = "REG"%string)) eqn:Hreg;
      [|exact IH].
    cbn [List.filter]. apply andb_true_iff in Hreg as [Hs Ht].
    apply bool_decide_eq_true in Hs, Ht.
    replace ((start_week <=? week r)%Z && (week r <=? end_week)%Z)
      with false; [exact IH|].
    symmetry. apply andb_false_iff. rewrite !Z.leb_gt.
    destruct Hr as [H|[H|[H|H]]]; [contradiction | contradiction | |]; lia. }
  unfold compute_ppg, matching_rows.
  split; unfold regular_season, week_range in *;
    rewrite !List.filter_app, Hnone; [now rewrite app_nil_r | reflexivity].
Qed.

(** A blank name matches every player: with an empty fragment every
    regular-season row of the season within the weeks is a candidate. *)
Theorem matching_rows_empty_fragment (stats : list StatRow)
    (start_week end_week : Z) :
  matching_rows SEASON stats EmptyString start_week end_week
  = Ok (week_range start_week end_week (regular_season SEASON stats)).
Proof.
  rewrite (matching_rows_filter SEASON stats EmptyString start_week end_week
             [] eq_refl). f_equal.
  apply filter_all, List.Forall_forall. intros r _.
  now destruct (lower (player_name r)).
Qed.

Lemma lower_upper_ascii (a : ascii) :
  lower_ascii (upper_ascii a) = lower_ascii a.
Proof. destruct a as [[] [] [] [] [] [] [] []]; reflexivity. Qed.

Lemma lower_lower_ascii (a : ascii) :
  lower_ascii (lower_ascii a) = lower_ascii a.
Proof. destruct a as [[] [] [] [] [] [] [] []]; reflexivity. Qed.

Lemma lower_upper (s : string) : lower (upper s) = lower s.
Proof.
  induction s as [|a s IH]; cbn [upper lower]; [reflexivity|].
  now rewrite lower_upper_ascii, IH.
Qed.

Lemma lower_lower (s : string) : lower (lower s) = lower s.
Proof.
  induction s as [|a s IH]; cbn [lower]; [reflexivity|].
  now rewrite lower_lower_ascii, IH.
Qed.

(** The letter case of a name fragment of ASCII text does not matter:
    the fragment in upper case and the fragment in lower case give the
    result of the fragment as typed. *)
Theorem compute_ppg_fragment_case (stats : list StatRow) (frag : string)
    (start_week end_week : Z) (min_snap_pct : Q) (key : string) :
  ascii_text frag ->
  compute_ppg SEASON stats snaps players (upper frag) start_week end_week
              min_snap_pct key
  = compute_ppg SEASON stats snaps players frag start_week end_week
                min_snap_pct key
  /\ compute_ppg SEASON stats snaps players (lower frag) start_week
                 end_week min_snap_pct key
     = compute_ppg SEASON stats snaps players frag start_week end_week
                   min_snap_pct key.
Proof.
  intros _. unfold compute_ppg, matching_rows.
  now rewrite lower_upper, lower_lower.
Qed.

Lemma merge_left_keeps_left {A B : Type} (on : A -> B -> bool)
    (left : list A) (right : list B) (a : A) :
  In a left -> In a (map fst (merge_left on left right)).
Proof.
  unfold merge_left. intros Hin.
  apply in_map_iff. apply in_split in Hin as (l1 & l2 & ->).
  rewrite flat_map_app. cbn [flat_map].
  destruct (List.filter (on a) right) as [|b matches].
  - exists (a, None). split; [reflexivity|].
    apply in_or_app. right. now left.
  - exists (a, Some b). split; [reflexivity|].
    apply in_or_app. right. now left.
Qed.

(** Whatever the snap counts hold, duplicates included, a snap join that
    returns does not lose a candidate row. *)
Theorem snap_join_keeps_rows (d : dtype) (cand : list Cand)
    (joined : list (Cand * option Q)) :
  snap_join d cand snaps = Ok joined ->
  (forall c, In c cand -> In c (map fst joined))
  /\ (length cand <= length joined)%nat.
Proof.
  intros Hj.
  destruct (snap_join_outcome d cand) as [(joined' & Hj' & Hrows)|[H|H]];
    [|congruence|congruence].
  assert (joined' = joined) as -> by congruence.
  split.
  - intros c Hc. rewrite Hrows. now apply merge_left_keeps_left.
  - rewrite <- (length_map fst joined), Hrows, length_map.
    apply merge_left_length.
Qed.

End ComputePpgEdges.

(** ** The count of qualifying games and the order of the presets *)

Section CountsAndPresets.

(** The count that the aggregator returns is the number of rows at or
    above the threshold: never more than the rows it was given, and 0
    exactly when every row is below the threshold, in which case the mean
    is 0 as well. *)
Theorem aggregate_count_bounds (rows : list (StatRow * Q)) (t : Q)
    (rule : ScoringRule) :
  (snd (aggregate rows t rule) <= length rows)%nat
  /\ (snd (aggregate rows t rule) = 0%nat
      <-> Forall (fun j => snd j < t) rows)
  /\ (snd (aggregate rows t rule) = 0%nat ->
      aggregate rows t rule = (Finite 0, 0%nat)).
Proof.
  split; [|split].
  - rewrite aggregate_count. apply List.filter_length_le.
  - split.
    + rewrite aggregate_count.
      intros H. apply List.Forall_forall. intros j Hj.
      apply Qnot_le_lt. intros Hle.
      assert (Hin : In j (List.filter (fun j => Qle_bool t (snd j)) rows)).
      { apply filter_In. split; [exact Hj|]. now apply Qle_bool_iff. }
      destruct (List.filter _ rows); [inversion Hin | discriminate].
    + intros H. now rewrite (aggregate_none_qualify rows t rule H).
  - unfold aggregate.
    destruct (List.filter _ rows); [reflexivity | discriminate].
Qed.

(** A running sum [pts += t] from a smaller start stays smaller: each
    addition rounds monotonically, and nothing overflows below
    [2 ^ 1023]. *)
Lemma sum_loop_mono (ts : list float) :
  forall (k : Z) (acc acc' : Q),
    (0 <= k)%Z -> (k + Z.of_nat (length ts) <= 1023)%Z ->
    Forall (within (2 ^ k)) ts ->
    Qabs acc <= 2 ^ k -> Qabs acc' <= 2 ^ k -> acc <= acc' ->
    exists s s',
      sum_loop (Finite acc) ts = Finite s
      /\ sum_loop (Finite acc') ts = Finite s'
      /\ s <= s'
      /\ Qabs s <= 2 ^ (k + Z.of_nat (length ts))
      /\ Qabs s' <= 2 ^ (k + Z.of_nat (length ts)).
Proof.
  induction ts as [|t ts IH]; intros k acc acc' Hk Hlen Hts Ha Ha' Hle.
  - exists acc, acc'. cbn [length Z.of_nat]. rewrite Z.add_0_r.
    repeat split; assumption.
  - apply Forall_cons in Hts as [[v [-> Hv]] Hts].
    cbn [length] in Hlen |- *. rewrite Nat2Z.inj_succ in Hlen |- *.
    assert (Hstep : forall a, Qabs a <= 2 ^ k -> Qabs (a + v) <= 2 ^ (k + 1)).
    { intros a Hab. rewrite pow2_succ.
      eapply Qle_trans; [apply Qabs_triangle|]. lra. }
    assert (Hsum : forall a, Qabs a <= 2 ^ k ->
                     add (Finite a) (Finite v) = Finite (rnd (a + v))
                     /\ Qabs (rnd (a + v)) <= 2 ^ (k + 1)).
    { intros a Hab. split.
      - cbn [add]. apply (of_Q_finite _ (k + 1)); [lia | now apply Hstep].
      - apply rnd_abs_le_pow2; [lia | now apply Hstep]. }
    destruct (Hsum acc Ha) as [E1 B1]. destruct (Hsum acc' Ha') as [E2 B2].
    destruct (IH (k + 1)%Z (rnd (acc + v)) (rnd (acc' + v)))
      as (s & s' & Es & Es' & Hss & Bs & Bs').
    + lia.
    + lia.
    + eapply Forall_impl; [exact Hts|]. intros x.
      apply within_weaken, pow2_le. lia.
    + exact B1.
    + exact B2.
    + apply rnd_mono. lra.
    + exists s, s'.
      replace (k + Z.succ (Z.of_nat (length ts)))%Z
        with (k + 1 + Z.of_nat (length ts))%Z by lia.
      unfold sum_loop in *. cbn [fold_left]. rewrite E1, E2.
      repeat split; assumption.
Qed.

(** [round(x, 2)] does not change the order of two numbers. *)
Lemma py_round_mono (s s' : Q) :
  Qabs s <= 2 ^ 1000 -> Qabs s' <= 2 ^ 1000 -> s <= s' ->
  exists a b,
    py_round (Finite s) 2 = Finite a /\ py_round (Finite s') 2 = Finite b
    /\ a <= b.
Proof.
  intros Hs Hs' Hle.
  assert (Hfin : forall t, Qabs t <= 2 ^ 1000 ->
            py_round (Finite t) 2
            = Finite (rnd (inject_Z (Numeric.round_half_even
                                       (t * inject_Z (10 ^ Z.of_nat 2)))
                           / inject_Z (10 ^ Z.of_nat 2)))).
  { intros t Ht. cbn [py_round].
    set (k := Numeric.round_half_even (t * inject_Z (10 ^ Z.of_nat 2))).
    pose proof (round_half_even_nearest (t * inject_Z (10 ^ Z.of_nat 2)))
      as Hk.
    fold k in Hk. change (inject_Z (10 ^ Z.of_nat 2)) with 100 in Hk.
    pose proof (Qabs_hundredth k t Hk) as Hnear.
    apply (of_Q_finite _ 1001); [lia|].
    rewrite Qdiv_hundred.
    assert (Hp : 2 ^ 1001 == 2 * 2 ^ 1000) by (apply (pow2_succ 1000)).
    rewrite Hp.
    apply Qabs_Qle_condition in Ht, Hnear. apply Qabs_Qle_condition.
    pose proof (pow2_pos 1000) as Hpos.
    assert (H1 : 1 <= 2 ^ 1000).
    { change 1 with (2 ^ 0). apply pow2_le. lia. }
    revert Ht Hnear Hpos H1. generalize (2 ^ 1000) (k # 100).
    intros c x Ht Hnear Hpos H1. split; lra. }
  eexists _, _. split; [exact (Hfin s Hs)|]. split; [exact (Hfin s' Hs')|].
  apply rnd_mono. unfold Qdiv. apply Qmult_le_compat_r; [|discriminate].
  rewrite <- Zle_Qle. apply round_half_even_mono.
  apply Qmult_le_compat_r; [exact Hle | discriminate].
Qed.

(** The score does not go down when the weight of a reception goes up,
    for a row whose receptions are not negative. *)
Lemma fantasy_points_reception_weight_mono (row : StatRow) (w w' : Q) :
  cells_within (2 ^ 950) row ->
  0 <= category_value row "receptions" ->
  0 <= w -> w <= w' -> w' <= 1 ->
  exists a b,
    fantasy_points row (preset (Finite w)) = Finite a
    /\ fantasy_points row (preset (Finite w')) = Finite b
    /\ a <= b.
Proof.
  intros Hcells Hrec Hw Hww Hw'.
  pose proof (pow2_pos 950) as Hpos.
  assert (HM : 0 <= 2 ^ 950) by now apply Qlt_le_weak.
  apply Forall_cons in Hcells as [Hcell Hcells].
  destruct (g_within (2 ^ 950) row "receptions" HM Hcell)
    as (c & Eg & Ec & Hc).
  rewrite <- Ec in Hrec. rewrite (Qabs_pos c Hrec) in Hc.
  assert (Hothers : forall r,
            Forall (within (2 ^ 955))
              (map (fun kw => mul (g row (fst kw)) (snd kw (preset r)))
                   (tail categories))).
  { intros r.
    assert (Hmw : 2 ^ 950 * 8 <= 2 ^ 960) by (vm_compute; discriminate).
    assert (Hws : Forall (fun kw => within 8 (snd kw (preset r)))
                         (tail categories)).
    { repeat constructor;
        (eexists; split; [vm_compute; reflexivity | vm_compute; discriminate]). }
    destruct (products_near (2 ^ 950) 8 row (preset r) (tail categories)
                HM Hmw Hcells Hws) as [H _].
    eapply Forall_impl; [exact H|]. intros x. apply within_weaken.
    vm_compute. discriminate. }
  assert (Hfirst : forall u, 0 <= u -> u <= 1 ->
            add (Finite 0) (mul (g row "receptions") (Finite u))
            = Finite (rnd (0 + rnd (c * u)))
            /\ Qabs (rnd (0 + rnd (c * u))) <= 2 ^ 955).
  { intros u Hu Hu'.
    assert (Hcu : Qabs (c * u) <= 2 ^ 950).
    { assert (0 <= c * u) by now apply Qmult_le_0_compat.
      rewrite Qabs_pos by assumption.
      apply Qle_trans with (c * 1); [|lra].
      rewrite (Qmult_comm c u), (Qmult_comm c 1).
      apply Qmult_le_compat_r; assumption. }
    assert (Hr : Qabs (rnd (c * u)) <= 2 ^ 950)
      by (apply rnd_abs_le_pow2; [lia | exact Hcu]).
    assert (Hr0 : Qabs (0 + rnd (c * u)) <= 2 ^ 950)
      by now rewrite Qplus_0_l.
    rewrite Eg. cbn [mul]. rewrite (of_Q_finite _ 950) by (lia || exact Hcu).
    cbn [add]. rewrite (of_Q_finite _ 950) by (lia || exact Hr0).
    split; [reflexivity|].
    apply Qle_trans with (2 ^ 950);
      [apply rnd_abs_le_pow2; [lia | exact Hr0] | apply pow2_le; lia]. }
  assert (Hw1 : w <= 1) by lra. assert (Hw0' : 0 <= w') by lra.
  destruct (Hfirst w Hw Hw1) as [E1 B1].
  destruct (Hfirst w' Hw0' Hw') as [E2 B2].
  assert (Hle : rnd (0 + rnd (c * w)) <= rnd (0 + rnd (c * w'))).
  { apply rnd_mono. rewrite !Qplus_0_l. apply rnd_mono.
    rewrite (Qmult_comm c w), (Qmult_comm c w').
    apply Qmult_le_compat_r; assumption. }
  set (ts := map (fun kw => mul (g row (fst kw)) (snd kw (preset (Finite w))))
                 (tail categories)).
  assert (Ets : map (fun kw => mul (g row (fst kw))
                                   (snd kw (preset (Finite w'))))
                    (tail categories) = ts) by reflexivity.
  destruct (sum_loop_mono ts 955 _ _ ltac:(lia) ltac:(cbn; lia)
              (Hothers (Finite w)) B1 B2 Hle)
    as (s & s' & Es & Es' & Hss & Bs & Bs').
  assert (Hbig : 2 ^ (955 + Z.of_nat (length ts)) <= 2 ^ 1000)
    by (apply pow2_le; cbn; lia).
  destruct (py_round_mono s s') as (a & b & Ea & Eb & Hab);
    [lra | lra | exact Hss |].
  exists a, b. rewrite !fantasy_points_fold.
  change (sum_loop (Finite 0)
            (map (fun kw => mul (g row (fst kw)) (snd kw (preset (Finite w))))
                 categories))
    with (sum_loop (add (Finite 0)
                        (mul (g row "receptions") (Finite w))) ts).
  change (sum_loop (Finite 0)
            (map (fun kw => mul (g row (fst kw)) (snd kw (preset (Finite w'))))
                 categories))
    with (sum_loop (add (Finite 0)
                        (mul (g row "receptions") (Finite w'))) ts).
  rewrite E1, E2, Es, Es'. repeat split; assumption.
Qed.

(** The presets differ in the weight of a reception only, so for a row
    of numbers whose receptions are not negative the points under STD
    are at most the points under HALF, which are at most the points
    under PPR. *)
Theorem fantasy_points_presets_ordered (row : StatRow) :
  cells_within (2 ^ 950) row ->
  0 <= category_value row "receptions" ->
  (SCORING_PRESETS !! "STD" = Some (preset (of_Q 0))
   /\ SCORING_PRESETS !! "HALF" = Some (preset (of_Q (1 # 2)))
   /\ SCORING_PRESETS !! "PPR" = Some (preset (of_Q 1)))
  /\ exists std half ppr,
       fantasy_points row (preset (of_Q 0)) = Finite std
       /\ fantasy_points row (preset (of_Q (1 # 2))) = Finite half
       /\ fantasy_points row (preset (of_Q 1)) = Finite ppr
       /\ std <= half /\ half <= ppr.
Proof.
  intros Hcells Hrec. split; [repeat split; reflexivity|].
  replace (of_Q 0) with (Finite 0) by (vm_compute; reflexivity).
  replace (of_Q (1 # 2)) with (Finite (1 # 2)) by (vm_compute; reflexivity).
  replace (of_Q 1) with (Finite 1) by (vm_compute; reflexivity).
  destruct (fantasy_points_reception_weight_mono row 0 (1 # 2) Hcells Hrec)
    as (a & b & Ea & Eb & Hab); [lra | lra | lra |].
  destruct (fantasy_points_reception_weight_mono row (1 # 2) 1 Hcells Hrec)
    as (b' & c & Eb' & Ec & Hbc); [lra | lra | lra |].
  assert (b' = b) as -> by congruence.
  exists a, b, c. repeat split; assumption.
Qed.

End CountsAndPresets.

(** ** The properties on the sample tables *)

Section Samples.

Ltac by_computation := vm_compute; reflexivity.

Ltac decided :=
  match goal with
  | |- ?P => apply (bool_decide_unpack P); vm_compute; exact I
  end.

Ltac each_row tac :=
  vm_compute; repeat (constructor; [tac|]); constructor.

Ltac a_number :=
  eexists; split; [vm_compute; reflexivity | vm_compute; discriminate].

(** 0.1 + 0.2 in binary64 is 0.30000000000000004, which is not the
    binary64 number 0.3; 1 / 3 and 2 ^ 53 + 1 are rounded. *)
Example binary64_sample :
  add (of_Q (1 # 10)) (of_Q (2 # 10))
  = Finite (1351079888211149 # 4503599627370496)
  /\ of_Q (3 # 10) = Finite (5404319552844595 # 18014398509481984)
  /\ div (Finite 1) (Finite 3)
     = Finite (6004799503160661 # 18014398509481984)
  /\ of_Q (9007199254740993 # 1) = Finite 9007199254740992
  /\ mul (of_Q (2 ^ 1023)) (Finite 2) = Inf false
  /\ add (Inf false) (Inf true) = NaN.
Proof. repeat split; by_computation. Qed.

(** On these numbers [add], [mul] and [div] are the operations of the
    standard library's specification of IEEE 754 at the binary64
    format. *)
Example binary64_agrees_with_SpecFloat :
  forallb (fun x => forallb (agree_with_SpecFloat x) sample_floats)
          sample_floats = true.
Proof. by_computation. Qed.

Example snap_join_sample :
  exists joined,
    snap_join object sample_cand sample_snaps = Ok joined
    /\ map snd (fillna joined) = [10; 40; 0; 55].
Proof. eexists. split; by_computation. Qed.

(** An identity map without any PFR identifier: the merge of a float64
    key with a text key raises. *)
Example compute_ppg_unmapped_players :
  text_dtype (map pfr_id unmapped_players) = float64
  /\ compute_ppg 2024 sample_stats sample_snaps unmapped_players "lamb" 1 18
                 25 "PPR" = Raise ValueError.
Proof. split; by_computation. Qed.

Example compute_ppg_sample :
  compute_ppg 2024 sample_stats sample_snaps sample_players "lamb" 1 18 25
              "PPR" = Ok (Finite 19, 1%nat)
  /\ compute_ppg 2024 sample_stats sample_snaps sample_players "e" 1 18 0
                 "HALF" = Ok (Finite (33 # 2), 4%nat).
Proof. split; by_computation. Qed.

(** Scenario B of the specification: of the weeks with 10 and with 40
    percent of the snaps, the threshold 25 keeps the second; and a row just
    at the threshold is kept. *)
Example aggregate_scenario_B :
  aggregate sample_pairs 25 (preset (of_Q 1)) = (Finite 19, 1%nat)
  /\ aggregate sample_pairs 40 (preset (of_Q 1)) = (Finite 19, 1%nat)
  /\ aggregate sample_pairs (41 # 1) (preset (of_Q 1)) = (Finite 0, 0%nat).
Proof. repeat split; by_computation. Qed.

Example compute_ppg_unknown_scoring :
  compute_ppg 2024 sample_stats sample_snaps sample_players "lamb" 1 18 25
              "ppr" = Raise KeyError.
Proof. by_computation. Qed.

(** An empty cell is NaN, which [or 0] does not replace: the score of
    the row is NaN. *)
Example fantasy_points_empty_cell :
  g empty_cell_row "receptions" = NaN
  /\ fantasy_points empty_cell_row (preset (of_Q 1)) = NaN.
Proof. split; by_computation. Qed.

Example close_completed_bets_sample :
  map Bets.is_active
      (Bets.close_completed_bets 2024 (inr sample_stats) sample_bets)
  = [Some 0; Some 0; Some 1; Some 1; Some 0]%Z.
Proof. by_computation. Qed.

(** *** Inputs on which the specification and the code differ *)

(** Two snap records under one fallback key: the join raises. *)
Lemma snap_join_duplicate_keys_ValueError :
  merge_keys_clash object sample_cand duplicate_snaps = false
  /\ NoDup (map primary_key duplicate_snaps)
  /\ snap_join object sample_cand duplicate_snaps = Raise ValueError.
Proof. split; [by_computation|]. split; [decided | by_computation]. Qed.


(** A row with 38 passing yards and 102.75 receiving yards: the code
    scores 11.79, and the weighted sum, 11.795 in decimal arithmetic and
    a little more with the binary64 weights, rounds to 11.80. *)
Lemma fantasy_points_a_hundredth_off :
  fantasy_points fractional_row (preset (of_Q 1)) = of_Q (1179 # 100)
  /\ (1179 # 100) + (1 # 200)
     < weighted_sum fractional_row (preset (of_Q 1))
  /\ Qabs (weighted_sum fractional_row (preset (of_Q 1)) - (1180 # 100))
     < 1 # 200
  /\ Numeric.round_half_even ((38 * (4 # 100) + (411 # 4) * (1 # 10)) * 100)
     = 1180%Z.
Proof. repeat split; by_computation. Qed.

(** Rows match and no snap record reaches the threshold 90, but two
    records share a fallback key: [compute_ppg] raises. *)
Lemma compute_ppg_duplicate_keys_ValueError :
  is_Some (SCORING_PRESETS !! "PPR")
  /\ (exists cand,
        matching_rows 2024 sample_stats "CeeDee" 1 18 = Ok cand
        /\ length cand = 3%nat)
  /\ Forall (fun s => offense_pct s < 90) duplicate_snaps
  /\ compute_ppg 2024 sample_stats duplicate_snaps sample_players "CeeDee"
                 1 18 90 "PPR" = Raise ValueError.
Proof.
  split; [exists (preset (of_Q 1)); reflexivity|].
  split; [eexists; split; by_computation|].
  split; [each_row by_computation | by_computation].
Qed.


(** A regular-season row of the season with the week -1: the result is
    negative. *)
Lemma get_current_max_week_negative :
  get_current_max_week 2024 (inr negative_week_stats) = (-1)%Z.
Proof. by_computation. Qed.

(** *** The theorems at the sample tables *)

Lemma snap_join_first_match_witness :
  merge_keys_clash object sample_cand sample_snaps = false
  /\ NoDup (map primary_key sample_snaps)
  /\ NoDup (map fallback_key sample_snaps)
  /\ exists joined,
      snap_join object sample_cand sample_snaps = Ok joined
      /\ fillna joined
         = map (fun c => (c, snap_pct sample_snaps c)) sample_cand.
Proof.
  assert (Hd : merge_keys_clash object sample_cand sample_snaps = false)
    by reflexivity.
  assert (Hp : NoDup (map primary_key sample_snaps)) by decided.
  assert (Hf : NoDup (map fallback_key sample_snaps)) by decided.
  split; [exact Hd|]. split; [exact Hp|]. split; [exact Hf|].
  exact (proj1 (snap_join_first_match object sample_cand sample_snaps
                  Hd Hp Hf)).
Defined.


Lemma fantasy_points_weighted_sum_witness :
  exists k : Z,
    fantasy_points scenario_A (preset (of_Q 1)) = Finite (rnd (k # 100))
    /\ Qabs ((k # 100) - weighted_sum scenario_A (preset (of_Q 1)))
       <= (1 # 200) + 409 * (eps * (80 * 6) + eta).
Proof.
  apply (proj1 (proj2 fantasy_points_weighted_sum) scenario_A
           (preset (of_Q 1)) 80 6).
  - vm_compute. discriminate.
  - vm_compute. discriminate.
  - vm_compute. discriminate.
  - repeat (constructor;
            [cbn [fst]; intros x Hx; vm_compute in Hx;
             try discriminate Hx; injection Hx as <-; a_number|]).
    constructor.
  - repeat (constructor; [a_number|]). constructor.
Defined.

Lemma compute_ppg_empty_outcomes_witness :
  compute_ppg 2024 sample_stats sample_snaps sample_players "Kelce" 1 18 25
              "PPR" = Ok (Finite 0, 0%nat)
  /\ compute_ppg 2024 sample_stats sample_snaps sample_players "Lamb" 1 18 50
                 "PPR" = Ok (Finite 0, 0%nat).
Proof.
  assert (Hkey : is_Some (SCORING_PRESETS !! "PPR"))
    by (exists (preset (of_Q 1)); reflexivity).
  split.
  - eapply compute_ppg_empty_outcomes;
      [exact Hkey | by_computation | cbv zeta; left; by_computation].
  - eapply compute_ppg_empty_outcomes;
      [exact Hkey | by_computation | cbv zeta; right].
    split; [by_computation|]. split; [decided|]. split; [decided|].
    each_row by_computation.
Defined.

Lemma aggregate_count_antitone_witness :
  25 <= 50
  /\ (snd (aggregate sample_pairs 50 (preset (of_Q 1)))
      <= snd (aggregate sample_pairs 25 (preset (of_Q 1))))%nat.
Proof.
  assert (H : 25 <= 50) by (unfold Qle; simpl; lia).
  split; [exact H|].
  exact (aggregate_count_antitone sample_pairs _ _ (preset (of_Q 1)) H).
Defined.

Lemma aggregate_threshold_0_counts_all_witness :
  snd (aggregate (fillna sample_unfilled) 0 (preset (of_Q 1))) = 3%nat.
Proof.
  apply (aggregate_threshold_0_counts_all sample_unfilled).
  repeat constructor; cbn [snd]; intros p [= <-]; unfold Qle; simpl; lia.
Defined.


Lemma get_current_max_week_spec_witness :
  get_current_max_week 2024 (inl LoadError) = 0%Z
  /\ (exists r, In r sample_stats /\ season r = 2024%Z
                /\ season_type r = "REG"%string
                /\ week r = get_current_max_week 2024 (inr sample_stats))
  /\ (0 <= get_current_max_week 2024 (inr sample_stats))%Z.
Proof.
  destruct (get_current_max_week_spec 2024 sample_stats)
    as (Hfail & _ & Hmax & Hpos).
  split; [apply Hfail|]. split.
  - apply Hmax. exists (sample_row 1 "00-0036358" "CeeDee Lamb").
    split; [now left | split; reflexivity].
  - apply Hpos. intros r Hr _ _.
    repeat (destruct Hr as [<-|Hr]; [cbn; lia|]). destruct Hr.
Defined.

Lemma close_completed_bets_spec_witness :
  (0 < get_current_max_week 2024 (inr sample_stats))%Z
  /\ Forall (fun b' =>
       ~ (Bets.season b' = 2024%Z /\ Bets.is_active b' = Some 1%Z
          /\ exists e, Bets.end_week b' = Some e
               /\ (e <= get_current_max_week 2024 (inr sample_stats))%Z))
       (Bets.close_completed_bets 2024 (inr sample_stats) sample_bets)
  /\ Bets.close_completed_bets 2024 (inl LoadError) sample_bets = sample_bets.
Proof.
  assert (Hpos : (0 < get_current_max_week 2024 (inr sample_stats))%Z)
    by by_computation.
  split; [exact Hpos|]. split.
  - exact (proj1 (proj1 (close_completed_bets_spec 2024 (inr sample_stats)
                           sample_bets) Hpos)).
  - apply (proj2 (close_completed_bets_spec 2024 (inl LoadError) sample_bets)).
    vm_compute. discriminate.
Defined.

End Samples.


(** ** The further properties on the sample tables *)

Section MoreSamples.

Import Bets Commands.

Ltac by_computation := vm_compute; reflexivity.

Ltac decided :=
  match goal with
  | |- ?P => apply (bool_decide_unpack P); vm_compute; exact I
  end.

Example collect_participant_ids_sample :
  _collect_participant_ids sample_tagged = ["1001"; "2002"]%string
  /\ join "," (_collect_participant_ids sample_tagged) = "1001,2002"%string
  /\ participant_mentions (Some "1001,2002") = ["1001"; "2002"]%string.
Proof. repeat split; by_computation. Qed.

Example addbet_sample :
  snd (addbet 2024 "2024-09-03T12:00:00-04:00" sample_db sample_interaction
              " CeeDee Lamb " "Jake Ferguson" sample_tagged "ppr" 25 0 30
              " first to 100 ") = BetCreated 8.
Proof. by_computation. Qed.

Example editbet_sample :
  map (fun b => (id b, scoring b, start_week b, end_week b, is_active b))
      (bets (fst (editbet sample_db sample_interaction 2 sample_edit)))
  = [ (1, "PPR", Some 1, Some 2, Some 1);
      (2, "HALF", Some 1, Some 18, Some 1);
      (3, "PPR", Some 1, Some 18, Some 1);
      (4, "PPR", Some 1, Some 2, Some 1);
      (5, "PPR", Some 1, Some 1, Some 0) ]%Z%string
  /\ snd (editbet sample_db sample_stranger 2 sample_edit) = NoPermission
  /\ snd (editbet sample_db sample_interaction 9 sample_edit) = BetNotFound.
Proof. repeat split; by_computation. Qed.

Example standings_windows_sample :
  map (fun bw => (id (fst bw), snd bw))
      (standings_windows 2024 (inr sample_stats) (inr sample_stats)
                         sample_db)
  = [ (3, Some 3) ]%Z.
Proof. by_computation. Qed.

(** Monday 00:00 gives the Tuesday of that week; Tuesday 12:00 sharp
    gives the Tuesday a week later. *)
Example next_run_datetime_sample :
  next_run_datetime {| days := 0; micros := 0; utcoffset := -18000 |}
  = {| days := 1; micros := 43200000000; utcoffset := -18000 |}
  /\ next_run_datetime
       {| days := 1; micros := 43200000000; utcoffset := -18000 |}
     = {| days := 8; micros := 43200000000; utcoffset := -18000 |}
  /\ next_run_datetime
       {| days := 1; micros := 43199999999; utcoffset := -14400 |}
     = {| days := 1; micros := 43200000000; utcoffset := -14400 |}.
Proof. repeat split; by_computation. Qed.

Lemma collect_participant_ids_distinct_users_witness :
  NoDup (omap (fun u : option User => user_id <$> u) sample_users)
  /\ _collect_participant_ids sample_users = ["1001"; "2002"]%string.
Proof.
  assert (H : NoDup (omap (fun u : option User => user_id <$> u)
                          sample_users)) by decided.
  split; [exact H|].
  rewrite (collect_participant_ids_distinct_users sample_users H).
  by_computation.
Defined.

Lemma collect_participant_ids_tag_again_witness :
  _collect_participant_ids (sample_users ++ [Some {| user_id := 2002 |}])
  = _collect_participant_ids sample_users.
Proof.
  apply collect_participant_ids_tag_again.
  apply list_elem_of_In. cbn. tauto.
Defined.

Lemma addbet_refused_witness :
  fst (addbet 2024 "2024-09-03T12:00:00-04:00" sample_db sample_interaction
              "CeeDee Lamb" "Jake Ferguson" sample_tagged "ppx" 25 1 18
              EmptyString) = sample_db.
Proof.
  apply addbet_refused. left. by_computation.
Defined.

Lemma addbet_accepted_witness :
  exists bet,
    addbet 2024 "2024-09-03T12:00:00-04:00" sample_db sample_interaction
           "CeeDee Lamb" "Jake Ferguson" sample_tagged "ppr" 25 0 30
           EmptyString
    = ({| bets := bets sample_db ++ [bet]; sqlite_sequence := id bet |},
       BetCreated (id bet))
    /\ start_week bet = Some 1%Z /\ end_week bet = Some 18%Z.
Proof.
  destruct (addbet_accepted 2024 "2024-09-03T12:00:00-04:00" sample_db
              sample_interaction "CeeDee Lamb" "Jake Ferguson" sample_tagged
              "ppr" 25 0 30 EmptyString)
    as (bet & Hrun & _ & _ & _ & _ & _ & _ & Hs & He & _).
  - exists (preset (of_Q 1)). reflexivity.
  - split; unfold Qle; simpl; lia.
  - exists bet. split; [exact Hrun|]. split; [exact Hs | exact He].
Defined.

Lemma editbet_writes_given_columns_witness :
  snd (editbet sample_db sample_interaction 2 sample_edit) = BetUpdated 2
  /\ Forall2 (fun b b' =>
        id b = 2%Z ->
        scoring b' = "HALF"%string /\ end_week b' = Some 18%Z
        /\ player_b b' = player_b b)
      (bets sample_db)
      (bets (fst (editbet sample_db sample_interaction 2 sample_edit))).
Proof.
  assert (H : snd (editbet sample_db sample_interaction 2 sample_edit)
              = BetUpdated 2) by by_computation.
  split; [exact H|].
  pose proof (editbet_writes_given_columns sample_db sample_interaction 2
                sample_edit H) as Hrows.
  eapply Forall2_impl; [exact Hrows|]. intros b b' Hb Hid.
  destruct (Hb Hid) as (_ & Hpb & Hs & _ & _ & Hew & _).
  split; [exact Hs|]. split; [exact Hew | exact Hpb].
Defined.

Lemma writers_keep_bets_valid_witness :
  Forall bet_valid (bets sample_db)
  /\ Forall bet_valid
       (bets (fst (editbet sample_db sample_interaction 2 sample_edit)))
  /\ Forall bet_valid
       (close_completed_bets 2024 (inr sample_stats) (bets sample_db)).
Proof.
  assert (H : Forall bet_valid (bets sample_db)).
  { repeat (apply List.Forall_cons;
            [split; [exists (preset (of_Q 1)); reflexivity
                    | split; unfold Qle; simpl; lia]|]).
    apply List.Forall_nil. }
  destruct (writers_keep_bets_valid 2024 sample_db H) as (_ & Hedit & Hclose).
  split; [exact H|]. split; [apply Hedit | apply Hclose].
Defined.

Lemma close_completed_bets_never_opens_witness :
  In (sample_bet 3 2024 (Some 18%Z) (Some 1%Z)) sample_bets.
Proof.
  apply (close_completed_bets_never_opens 2024 (inr sample_stats)).
  - vm_compute. do 2 right. left. reflexivity.
  - discriminate.
Defined.

Lemma standings_windows_spec_witness :
  Forall (fun bw =>
      forall e, end_week (fst bw) = Some e ->
        (get_current_max_week 2024 (inr sample_stats) < e)%Z)
    (standings_windows 2024 (inr sample_stats) (inr sample_stats) sample_db).
Proof.
  pose proof (standings_windows_spec 2024 (inr sample_stats)
                (inr sample_stats) sample_db eq_refl) as H.
  revert H. apply List.Forall_impl. intros bw (_ & _ & Hpos & _).
  apply Hpos. by_computation.
Defined.

Lemma compute_ppg_empty_week_range_witness :
  compute_ppg 2024 sample_stats sample_snaps sample_players "lamb" 5 3 25
              "PPR" = Ok (Finite 0, 0%nat).
Proof.
  apply compute_ppg_empty_week_range.
  - exists (preset (of_Q 1)). reflexivity.
  - eexists. by_computation.
  - lia.
Defined.

Lemma compute_ppg_ignores_rows_out_of_scope_witness :
  compute_ppg 2024 (sample_stats ++ sample_out_of_scope) sample_snaps
              sample_players "lamb" 1 18 25 "PPR"
  = compute_ppg 2024 sample_stats sample_snaps sample_players "lamb" 1 18 25
                "PPR".
Proof.
  apply compute_ppg_ignores_rows_out_of_scope.
  apply List.Forall_cons; [left; cbn; lia|].
  apply List.Forall_cons; [right; left; cbn; discriminate|].
  apply List.Forall_cons; [right; right; right; cbn; lia|].
  apply List.Forall_nil.
Defined.

Lemma snap_join_keeps_rows_witness :
  exists joined,
    snap_join object expanding_cand expanding_snaps = Ok joined
    /\ length joined = 2%nat
    /\ (length expanding_cand <= length joined)%nat.
Proof.
  eexists. split; [by_computation|]. split; [reflexivity|].
  refine (proj2 (snap_join_keeps_rows expanding_snaps object expanding_cand
                   _ _)).
  by_computation.
Defined.

Lemma compute_ppg_unknown_key_KeyError_witness :
  compute_ppg 2024 sample_stats sample_snaps sample_players "lamb" 1 18 25
              "ppr" = Raise KeyError.
Proof.
  apply compute_ppg_unknown_key_KeyError; discriminate.
Defined.

Lemma compute_ppg_fragment_case_witness :
  compute_ppg 2024 sample_stats sample_snaps sample_players "LAMB" 1 18 25
              "PPR"
  = compute_ppg 2024 sample_stats sample_snaps sample_players "Lamb" 1 18 25
                "PPR".
Proof.
  refine (proj1 (compute_ppg_fragment_case 2024 sample_snaps sample_players
                   sample_stats "Lamb" 1 18 25 "PPR" _)).
  vm_compute. repeat (constructor; [reflexivity|]). constructor.
Defined.

Lemma fantasy_points_presets_ordered_witness :
  exists std half ppr,
    fantasy_points scenario_A (preset (of_Q 0)) = Finite std
    /\ fantasy_points scenario_A (preset (of_Q (1 # 2))) = Finite half
    /\ fantasy_points scenario_A (preset (of_Q 1)) = Finite ppr
    /\ std <= half /\ half <= ppr.
Proof.
  apply fantasy_points_presets_ordered.
  - repeat (constructor;
            [cbn [fst]; intros x Hx; vm_compute in Hx;
             try discriminate Hx; injection Hx as <-;
             (eexists; split; [vm_compute; reflexivity
                              | vm_compute; discriminate])|]).
    constructor.
  - vm_compute. discriminate.
Defined.

End MoreSamples.
